(** * group-maker: the scoring function and the random-swap optimizer

    A shallow embedding of the core of [src/app/page.tsx]
    ([buildForbiddenPairs], [shuffle], [chunkGroups], [countBy],
    [groupScore], [totalScore], [generateGroupsOptimized]) and the
    properties of it that the specification states; then of the roster
    parser ([uidFromName], [parseStudents]) and of the handlers of the page
    ([makeGroups], [acceptAsPrevious], [clearPrevious], the legend button),
    with further properties that the code shows.

    Conventions of the embedding.
    - A TypeScript [number] that holds a count, a weight or a score is an
      integer of [Z]: the application's weights are the integers 250, 6, 4, 4
      and 1, and sums and products of such values are exact in a double as
      long as they stay below 2^53.
    - The group size is an integer in the first embedding of the optimizer.
      The page can also pass a size with a fraction, such as 2.5: the module
      [Fractional] embeds [chunkGroups], the scores and the optimizer once
      more with the group size and the scores in [Q].
    - A [string] is a [string] of the Standard Library, a sequence of code
      units below 256; [a < b] on strings is the lexicographic order
      [String.ltb] on character codes.
    - A [Set<string>] is a [gset string], a [Record<string, number>] a
      [gmap string Z], an array a [list] read with [!!] and written with
      [<[ _ := _ ]>]. The map holds the own entries of the record; the keys
      that every object inherits, [Object_prototype_keys], are left out of
      what is stated on it.
    - [Math.random()] reads the next entry of a finite tape of draws; a run
      that asks for more draws than the tape holds is [Starved]. *)

From Stdlib Require Import ZArith QArith Qminmax Qabs Qround String Ascii List Lia.
From stdpp Require Import base list gmap strings.

Open Scope Z_scope.

(* ------------------------------------------------------------------ *)
(** ** Data model (page.tsx, lines 5-15 and 112-118) *)

(** [type Level = "bachelor" | "master"]. *)
Inductive Level : Type := bachelor | master.

(** [type Gender = "f" | "m" | "x" | "na"]. *)
Inductive Gender : Type := Gf | Gm | Gx | Gna.

Global Instance Level_eq_dec : EqDecision Level.
Proof. solve_decision. Defined.

Global Instance Gender_eq_dec : EqDecision Gender.
Proof. solve_decision. Defined.

(** [type Student]; in [level] and [exchange] the value ["na"] is [None]. *)
Record Student : Type := {
  id : string;
  name : string;
  gender : Gender;
  level : option Level;
  exchange : option bool
}.

(** [type Group = Student[]]. *)
Abbreviation Group := (list Student).

Record Weights : Type := {
  forbidPair : Z;
  genderImbalance : Z;
  levelImbalance : Z;
  exchangeImbalance : Z;
  sizeImbalance : Z
}.

(* ------------------------------------------------------------------ *)
(** ** Loops over an index range *)

(** [for (let k = lo; k < hi; k++) acc = body(acc, k)]. *)
Definition for_range {A : Type} (lo hi : nat) (body : A → nat → A) (acc : A) : A :=
  foldl body acc (seq lo (hi - lo)).

(* ------------------------------------------------------------------ *)
(** ** Forbidden pairs (page.tsx, lines 76-90) *)

(** [a < b ? `${a}||${b}` : `${b}||${a}`]. *)
Definition pairKey (a b : string) : string :=
  if String.ltb a b then a +:+ "||" +:+ b else b +:+ "||" +:+ a.

Definition buildForbiddenPairs (previousGroups : list Group) : gset string :=
  foldl (λ set g,
    for_range 0 (length g) (λ set i,
      for_range (i + 1) (length g) (λ set j,
        match g !! i, g !! j with
        | Some gi, Some gj =>
            let a := id gi in
            let b := id gj in
            let key := pairKey a b in
            {[ key ]} ∪ set
        | _, _ => set (* i and j are below g.length *)
        end) set) set)
    ∅ previousGroups.

(* ------------------------------------------------------------------ *)
(** ** The random source *)

(** A value of [Math.random()], a number of [0, 1): the fraction
    [num / (num + gap + 1)]. *)
Record draw : Type := { num : nat; gap : nat }.

(** [Math.floor(u * n)]. *)
Definition floor_mul (u : draw) (n : nat) : nat :=
  ((num u * n) / (num u + gap u + 1))%nat.

Inductive outcome (A : Type) : Type :=
  | Returned (a : A)     (* the call returns [a] *)
  | Thrown (msg : string) (* the call throws *)
  | Starved.              (* the tape holds too few draws *)
Arguments Returned {A} a.
Arguments Thrown {A} msg.
Arguments Starved {A}.

(** A computation that reads draws from the tape and hands back the rest. *)
Definition Rand (A : Type) : Type := list draw → outcome (A * list draw).

Definition ret {A : Type} (a : A) : Rand A := λ tape, Returned (a, tape).

Definition bind {A B : Type} (c : Rand A) (k : A → Rand B) : Rand B :=
  λ tape,
    match c tape with
    | Returned (a, tape') => k a tape'
    | Thrown msg => Thrown msg
    | Starved => Starved
    end.

Definition throw {A : Type} (msg : string) : Rand A := λ _, Thrown msg.

Global Instance Rand_ret : MRet Rand := @ret.
Global Instance Rand_bind : MBind Rand := λ A B k c, bind c k.

(** [Math.random()]. *)
Definition Math_random : Rand draw :=
  λ tape,
    match tape with
    | [] => Starved
    | u :: tape' => Returned (u, tape')
    end.

(** [arr[i]] where the program goes on to use the element: an index past
    the end yields [undefined], and the next access to a field of it throws
    a [TypeError]. *)
Definition read {A : Type} (arr : list A) (i : nat) : Rand A :=
  match arr !! i with
  | Some v => ret v
  | None => throw "TypeError: undefined"
  end.

(* ------------------------------------------------------------------ *)
(** ** shuffle and chunkGroups (page.tsx, lines 92-110) *)

(** The body of the loop of [shuffle], for [i] from [a.length - 1] down
    to 1: [j = Math.floor(rng() * (i + 1)); [a[i], a[j]] = [a[j], a[i]]]. *)
Fixpoint shuffle_loop {T : Type} (i : nat) (a : list T) : Rand (list T) :=
  match i with
  | O => mret a
  | S i' =>
      u ← Math_random;
      let j := floor_mul u (i + 1) in
      aj ← read a j;
      ai ← read a i;
      shuffle_loop i' (<[j := ai]> (<[i := aj]> a))
  end.

Definition shuffle {T : Type} (arr : list T) : Rand (list T) :=
  let a := arr in
  shuffle_loop (length a - 1) a.

(** [students.slice(lo, hi)] for [lo <= hi]. *)
Definition slice {A : Type} (lo hi : nat) (l : list A) : list A :=
  take (hi - lo) (drop lo l).

(** The loop of [chunkGroups], [for (i = 0; i < students.length; i +=
    groupSize)], at a group size that is an integer; [fuel] bounds the number
    of iterations. [Fractional.chunk_loop] is the loop at any group size. *)
Fixpoint chunk_loop (fuel : nat) (students : list Student) (groupSize i : nat)
    : list Group :=
  match fuel with
  | O => []
  | S fuel' =>
      if (i <? length students)%nat
      then slice i (i + groupSize) students
             :: chunk_loop fuel' students groupSize (i + groupSize)
      else []
  end.

(** With [groupSize >= 1] the loop runs at most [students.length] times. *)
Definition chunkGroups (students : list Student) (groupSize : nat) : list Group :=
  chunk_loop (length students) students groupSize 0.

(* ------------------------------------------------------------------ *)
(** ** Scoring (page.tsx, lines 120-178) *)

(** [r[k] ?? 0]. *)
Definition get0 (r : gmap string Z) (k : string) : Z := default 0 (r !! k).

(** The record starts as [{}]: at a key of [Object_prototype_keys] the read
    [r[k]] finds what the object inherits, not [undefined]; the keys of
    [groupScore] are none of these. *)
Definition countBy (group : Group) (keyFn : Student → string) : gmap string Z :=
  foldl (λ r s, let k := keyFn s in <[ k := get0 r k + 1 ]> r) ∅ group.

(** [Math.max(...vals)] and [Math.min(...vals)]; of no argument they are
    [-Infinity] and [Infinity], which [groupScore] never asks for. *)
Definition Math_max (vals : list Z) : Z :=
  match vals with
  | [] => 0
  | v :: vs => foldl Z.max v vs
  end.

Definition Math_min (vals : list Z) : Z :=
  match vals with
  | [] => 0
  | v :: vs => foldl Z.min v vs
  end.

Definition gender_key (s : Student) : string :=
  match gender s with Gf => "f" | Gm => "m" | Gx => "x" | Gna => "na" end.

Definition level_key (s : Student) : string :=
  match level s with
  | None => "na"
  | Some bachelor => "bachelor"
  | Some master => "master"
  end.

Definition exchange_key (s : Student) : string :=
  match exchange s with
  | None => "na"
  | Some true => "true"
  | Some false => "false"
  end.

Definition groupScore (group : Group) (forbiddenPairs : gset string)
    (targetSize : Z) (w : Weights) : Z :=
  let score := 0 in
  (* Pair repeats (hard penalty) *)
  let score :=
    for_range 0 (length group) (λ score i,
      for_range (i + 1) (length group) (λ score j,
        match group !! i, group !! j with
        | Some gi, Some gj =>
            let a := id gi in
            let b := id gj in
            let key := pairKey a b in
            if decide (key ∈ forbiddenPairs) then score + forbidPair w else score
        | _, _ => score (* i and j are below group.length *)
        end) score) score in
  (* Size penalty *)
  let score := score + sizeImbalance w * Z.abs (Z.of_nat (length group) - targetSize) in
  let genders := countBy group gender_key in
  let levels := countBy group level_key in
  let exchange := countBy group exchange_key in
  (* Gender *)
  let knownGenderCount := get0 genders "f" + get0 genders "m" + get0 genders "x" in
  let score :=
    if 2 <=? knownGenderCount then
      let vals :=
        filter (λ v, Is_true ((0 <? v) || true))
               [get0 genders "f"; get0 genders "m"; get0 genders "x"] in
      let max := Math_max vals in
      let min := Math_min vals in
      score + genderImbalance w * (max - min)
    else score in
  (* Level *)
  let knownLevelCount := get0 levels "bachelor" + get0 levels "master" in
  let score :=
    if 2 <=? knownLevelCount then
      score + levelImbalance w * Z.abs (get0 levels "bachelor" - get0 levels "master")
    else score in
  (* Exchange *)
  let knownExCount := get0 exchange "true" + get0 exchange "false" in
  let score :=
    if 2 <=? knownExCount then
      score + exchangeImbalance w * Z.abs (get0 exchange "true" - get0 exchange "false")
    else score in
  score.

Definition totalScore (groups : list Group) (forbiddenPairs : gset string)
    (targetSize : Z) (w : Weights) : Z :=
  foldl (λ acc g, acc + groupScore g forbiddenPairs targetSize w) 0 groups.

(* ------------------------------------------------------------------ *)
(** ** The optimizer (page.tsx, lines 186-261) *)

(** The value [{ groups, score }] that [generateGroupsOptimized] returns. *)
Record result : Type := { groups : list Group; score : Z }.

(** The variables of [generateGroupsOptimized] that the loop assigns. *)
Record search_state : Type := {
  bestGroups : list Group;
  bestScore : Z;
  curGroups : list Group;
  curScore : Z
}.

(** [Math.floor(Math.random() * n)]. *)
Definition randomIndex (n : nat) : Rand nat :=
  u ← Math_random; mret (floor_mul u n).

(** [while (gj === gi) gj = randomIndex(groupCount)]: each turn of the loop
    takes one draw from the tape. *)
Fixpoint redraw (groupCount gi gj : nat) (tape : list draw)
    : outcome (nat * list draw) :=
  if (gj =? gi)%nat then
    match tape with
    | [] => Starved
    | u :: tape' => redraw groupCount gi (floor_mul u groupCount) tape'
    end
  else Returned (gj, tape).

(** [groups[g][i] = v]: the write goes to row [g] of the shared array, so a
    later read of the same row through another variable sees it. *)
Definition write_cell (groups : list Group) (g i : nat) (v : Student) : list Group :=
  alter (λ row, <[ i := v ]> row) g groups.

(** [startTemp + (endTemp - startTemp) * (t / Math.max(1, attempts - 1))]
    with [startTemp = 3.0] and [endTemp = 0.2]. *)
Definition temperature (t attempts : Z) : Q :=
  (3 + ((1 # 5) - 3) * (inject_Z t / inject_Z (Z.max 1 (attempts - 1))))%Q.

Section Optimizer.

(** [lt_exp u q] is the test [u < Math.exp(q)] on a draw [u]. *)
Variable lt_exp : draw → Q → bool.

Variable forbiddenPairs : gset string.
Variable targetSize : Z.
Variable attempts : Z.
Variable w : Weights.
Variable groupCount : nat.

(** The loop [for (let t = 0; t < attempts; t++)] with [remaining]
    iterations to go. *)
Fixpoint search_loop (remaining : nat) (t : Z) (st : search_state)
    : Rand search_state :=
  match remaining with
  | O => mret st
  | S remaining' =>
      let temp := temperature t attempts in
      (* pick two different groups *)
      gi ← randomIndex groupCount;
      gj ← randomIndex groupCount;
      gj ← (if (1 <? groupCount)%nat then redraw groupCount gi gj else mret gj);
      g1 ← read (curGroups st) gi;
      g2 ← read (curGroups st) gj;
      if (length g1 =? 0)%nat || (length g2 =? 0)%nat
      then search_loop remaining' (t + 1) st (* continue *)
      else
        i ← randomIndex (length g1);
        j ← randomIndex (length g2);
        (* swap *)
        a ← read g1 i;
        b ← read g2 j;
        let swapped := write_cell (write_cell (curGroups st) gi i b) gj j a in
        let newScore := totalScore swapped forbiddenPairs targetSize w in
        let delta := newScore - curScore st in
        saysYes ← (if delta <=? 0 then mret true
                   else u ← Math_random;
                        mret (lt_exp u (- inject_Z delta / temp)%Q));
        let st' :=
          if saysYes : bool then
            let curScore' := newScore in
            if curScore' <? bestScore st then
              {| bestGroups := map (λ g, g) swapped;
                 bestScore := curScore';
                 curGroups := swapped;
                 curScore := curScore' |}
            else
              {| bestGroups := bestGroups st;
                 bestScore := bestScore st;
                 curGroups := swapped;
                 curScore := curScore' |}
          else
            (* revert *)
            {| bestGroups := bestGroups st;
               bestScore := bestScore st;
               curGroups := write_cell (write_cell swapped gi i a) gj j b;
               curScore := curScore st |} in
        (* early exit if perfect *)
        if bestScore st' =? 0 then mret st'
        else search_loop remaining' (t + 1) st'
  end.

End Optimizer.

Definition generateGroupsOptimized (lt_exp : draw → Q → bool)
    (students : list Student) (groupSize : Z) (forbiddenPairs : gset string)
    (attempts : Z) (w : Weights) : Rand result :=
  if groupSize <? 2 then throw "groupSize must be >= 2"
  else if (length students =? 0)%nat then mret {| groups := []; score := 0 |}
  else
    let targetSize := groupSize in
    (* initial *)
    shuffled ← shuffle students;
    let bestGroups0 := chunkGroups shuffled (Z.to_nat groupSize) in
    let bestScore0 := totalScore bestGroups0 forbiddenPairs targetSize w in
    (* current state *)
    let curGroups0 := map (λ g, g) bestGroups0 in
    let curScore0 := bestScore0 in
    let groupCount := length curGroups0 in
    st ← search_loop lt_exp forbiddenPairs targetSize attempts w groupCount
           (Z.to_nat attempts) 0
           {| bestGroups := bestGroups0; bestScore := bestScore0;
              curGroups := curGroups0; curScore := curScore0 |};
    mret {| groups := bestGroups st; score := bestScore st |}.

(* ------------------------------------------------------------------ *)
(** ** Notions used to state the properties *)

(** The pairs of members at positions [i < j] of a list, in the order in
    which the two nested loops visit them. *)
Fixpoint pairs_of {A : Type} (l : list A) : list (A * A) :=
  match l with
  | [] => []
  | x :: l' => map (pair x) l' ++ pairs_of l'
  end.

(** [l] is what the array [L] holds from index [k] on. *)
Definition suffix_at {A : Type} (L : list A) (k : nat) (l : list A) : Prop :=
  length L = (k + length l)%nat ∧ ∀ j, L !! (k + j)%nat = l !! j.

(** The key under which [buildForbiddenPairs] and [groupScore] look up the
    pair of two students. *)
Definition key_of (p : Student * Student) : string := pairKey (id p.1) (id p.2).

(** The number of members of [group] that [keyFn] sends to [k]. *)
Definition count_key (keyFn : Student → string) (k : string) (group : Group) : Z :=
  Z.of_nat (length (filter (λ s, keyFn s = k) group)).

(** The number of pairs of members of [group] whose key is in [forbidden]. *)
Definition forbidden_count (forbidden : gset string) (group : Group) : Z :=
  Z.of_nat (length (filter (λ p, key_of p ∈ forbidden) (pairs_of group))).

(** The largest minus the smallest of three counts. *)
Definition spread3 (a b c : Z) : Z := Z.max (Z.max a b) c - Z.min (Z.min a b) c.

(** The balance term of an attribute with the two known values counted by
    [c1] and [c2] (level, exchange status). *)
Definition balance2 (weight c1 c2 : Z) : Z :=
  if 2 <=? c1 + c2 then weight * Z.abs (c1 - c2) else 0.

(** The balance term of the gender, with three known values. *)
Definition balance3 (weight c1 c2 c3 : Z) : Z :=
  if 2 <=? c1 + c2 + c3 then weight * spread3 c1 c2 c3 else 0.

(** The number of members of [group] of gender [g]. *)
Definition count_gender (g : Gender) (group : Group) : Z :=
  Z.of_nat (length (filter (λ s, gender s = g) group)).

(** The members of [group] whose gender, level, exchange status is known. *)
Definition known_gender (group : Group) : list Student :=
  filter (λ s, gender s ≠ Gna) group.

Definition known_level (group : Group) : list Student :=
  filter (λ s, level s ≠ None) group.

Definition known_exchange (group : Group) : list Student :=
  filter (λ s, exchange s ≠ None) group.

(** No two members of [group] at distinct positions have their key in
    [forbidden]. *)
Definition no_forbidden_pair (forbidden : gset string) (group : Group) : Prop :=
  ∀ i j a b, (i < j)%nat → group !! i = Some a → group !! j = Some b →
    pairKey (id a) (id b) ∉ forbidden.

(** Some group of the history has, at two distinct positions, members with
    the ids [x] and [y]. *)
Definition grouped_together (previousGroups : list Group) (x y : string) : Prop :=
  ∃ g i j a b, g ∈ previousGroups ∧ i ≠ j ∧ g !! i = Some a ∧ g !! j = Some b
    ∧ id a = x ∧ id b = y.

(** The string holds no character [|]. *)
Fixpoint bar_free (s : string) : bool :=
  match s with
  | EmptyString => true
  | String c s' => negb (Ascii.eqb c "|") && bar_free s'
  end.

(** The array of groups after the two writes of a swap of the cells
    [(gi, i)] and [(gj, j)], which held [a] and [b]. *)
Definition swap_cells (L : list Group) (gi gj i j : nat) (a b : Student) : list Group :=
  write_cell (write_cell L gi i b) gj j a.

(** The four reads at the head of a swap: the rows [gi] and [gj] exist and
    hold [a] at [i] and [b] at [j]. *)
Definition cells_hold (L : list Group) (gi gj i j : nat) (a b : Student) : Prop :=
  ∃ g1 g2, L !! gi = Some g1 ∧ L !! gj = Some g2 ∧ g1 !! i = Some a ∧ g2 !! j = Some b.

(** What one iteration of the search can do to the state when it changes it:
    it keeps a swap, and records it as the best when its score is below the
    best. An iteration that skips or reverts leaves the state as it was. *)
Inductive search_step (forbiddenPairs : gset string) (targetSize : Z) (w : Weights)
    : search_state → search_state → Prop :=
  | step_new_best st gi gj i j a b :
      cells_hold (curGroups st) gi gj i j a b →
      totalScore (swap_cells (curGroups st) gi gj i j a b) forbiddenPairs targetSize w
        < bestScore st →
      search_step forbiddenPairs targetSize w st
        {| bestGroups := swap_cells (curGroups st) gi gj i j a b;
           bestScore := totalScore (swap_cells (curGroups st) gi gj i j a b)
                          forbiddenPairs targetSize w;
           curGroups := swap_cells (curGroups st) gi gj i j a b;
           curScore := totalScore (swap_cells (curGroups st) gi gj i j a b)
                         forbiddenPairs targetSize w |}
  | step_accept st gi gj i j a b :
      cells_hold (curGroups st) gi gj i j a b →
      bestScore st
        ≤ totalScore (swap_cells (curGroups st) gi gj i j a b) forbiddenPairs targetSize w →
      search_step forbiddenPairs targetSize w st
        {| bestGroups := bestGroups st;
           bestScore := bestScore st;
           curGroups := swap_cells (curGroups st) gi gj i j a b;
           curScore := totalScore (swap_cells (curGroups st) gi gj i j a b)
                         forbiddenPairs targetSize w |}.

(** The groups of the state hold the students [students], in groups of the
    sizes [sizes]. *)
Definition partitions (students : list Student) (sizes : list nat)
    (groups : list Group) : Prop :=
  concat groups ≡ₚ students ∧ map length groups = sizes.

(** The sum of a list of scores. *)
Definition sum_scores (l : list Z) : Z := foldr Z.add 0 l.

(** The weights with the gender weight put to [0]. *)
Definition without_gender (w : Weights) : Weights :=
  {| forbidPair := forbidPair w;
     genderImbalance := 0;
     levelImbalance := levelImbalance w;
     exchangeImbalance := exchangeImbalance w;
     sizeImbalance := sizeImbalance w |}.

Definition nonneg_weights (w : Weights) : Prop :=
  0 ≤ forbidPair w ∧ 0 ≤ genderImbalance w ∧ 0 ≤ levelImbalance w
  ∧ 0 ≤ exchangeImbalance w ∧ 0 ≤ sizeImbalance w.

(** The names of the properties that an object literal inherits from
    [Object.prototype]: at these keys [r[k] ?? 0] is not [0] on a fresh
    record. *)
Definition Object_prototype_keys : list string :=
  ["constructor"; "hasOwnProperty"; "isPrototypeOf"; "propertyIsEnumerable";
   "toLocaleString"; "toString"; "valueOf"; "__proto__";
   "__defineGetter__"; "__defineSetter__"; "__lookupGetter__"; "__lookupSetter__"].

(** The group sizes that chunking [n] students by [s] produces. *)
Definition chunk_sizes (n s : nat) : list nat :=
  replicate (n / s) s ++ (if (n mod s =? 0)%nat then [] else [(n mod s)%nat]).

(* ------------------------------------------------------------------ *)
(** ** The data of the concrete scenarios *)

(** The weights that [Page] passes (page.tsx, lines 297-306). *)
Definition default_weights : Weights :=
  {| forbidPair := 250;
     genderImbalance := 6;
     levelImbalance := 4;
     exchangeImbalance := 4;
     sizeImbalance := 1 |}.

(** A student whose display name is its id. *)
Definition student (i : string) (g : Gender) (l : option Level) (e : option bool)
    : Student :=
  {| id := i; name := i; gender := g; level := l; exchange := e |}.

Definition student_A : Student := student "A" Gf (Some master) (Some false).
Definition student_B : Student := student "B" Gm (Some bachelor) (Some true).
Definition student_C : Student := student "C" Gx (Some master) (Some false).
Definition student_D : Student := student "D" Gna None None.

Definition student_E : Student := student "E" Gf (Some bachelor) (Some false).
Definition student_F : Student := student "F" Gm (Some master) (Some true).

(** A group of two f and two m. *)
Definition two_f_two_m : Group := [student_A; student_E; student_B; student_F].

Definition roster : list Student := [student_A; student_B; student_C; student_D].

(** The history of one partition [[A, B], [C, D]] and its forbidden pairs. *)
Definition history : list Group := [[student_A; student_B]; [student_C; student_D]].

Definition history_pairs : gset string := buildForbiddenPairs history.

(** The draw [a / b], for [a < b]. *)
Definition fraction (a b : nat) : draw := {| num := a; gap := b - a - 1 |}.

(** A tape: three draws on which [shuffle] leaves a list of four as it is,
    then the draws of three iterations of the search. *)
Definition example_tape : list draw :=
  [fraction 3 4; fraction 2 3; fraction 1 2;
   fraction 0 1; fraction 1 2; fraction 1 2; fraction 0 1;
   fraction 0 1; fraction 1 2; fraction 1 2; fraction 1 2;
   fraction 0 1; fraction 1 2; fraction 0 1; fraction 0 1; fraction 0 1;
   fraction 1 2].

(** A tape of [k] draws that are in turn [0] and [1/2]; it starts with
    [1/2] when [b] holds. *)
Fixpoint alternate (k : nat) (b : bool) : list draw :=
  match k with
  | O => []
  | S k' => (if b then fraction 1 2 else fraction 0 1) :: alternate k' (negb b)
  end.

(** The run came to its end and returned a value. *)
Definition returns {A : Type} (o : outcome A) : Prop :=
  match o with
  | Returned _ => True
  | _ => False
  end.

(** An acceptance test that turns every worse state down. *)
Definition never : draw → Q → bool := λ _ _, false.

(** What the call returns on [roster] with [example_tape]. *)
Definition example_result : result :=
  {| groups := [[student_A; student_D]; [student_B; student_C]]; score := 6 |}.

(** Two students whose ids hold the separator of the keys. *)
Definition student_ab : Student := student "a||b" Gna None None.
Definition student_c : Student := student "c" Gna None None.

(* ------------------------------------------------------------------ *)
(** ** The methods of strings that the parser calls

    A character is a code unit below 256; on these the definitions follow
    ECMAScript: the white space and the line terminators are TAB, LF, VT, FF,
    CR, SP and NBSP, and [toLowerCase] moves A-Z, the letters from U+00C0 to
    U+00D6 and from U+00D8 to U+00DE up by 32. *)

Definition is_space (c : ascii) : bool :=
  let n := nat_of_ascii c in
  ((9 <=? n)%nat && (n <=? 13)%nat) || (n =? 32)%nat || (n =? 160)%nat.

Definition lower_char (c : ascii) : ascii :=
  let n := nat_of_ascii c in
  if ((65 <=? n)%nat && (n <=? 90)%nat)
     || ((192 <=? n)%nat && (n <=? 222)%nat && negb (n =? 215)%nat)
  then ascii_of_nat (n + 32)
  else c.

(** [s.toLowerCase()]. *)
Fixpoint toLowerCase (s : string) : string :=
  match s with
  | EmptyString => EmptyString
  | String c s' => String (lower_char c) (toLowerCase s')
  end.

(** [s.trimStart()] and [s.trimEnd()]. *)
Fixpoint trimStart (s : string) : string :=
  match s with
  | EmptyString => EmptyString
  | String c s' => if is_space c then trimStart s' else s
  end.

Fixpoint trimEnd (s : string) : string :=
  match s with
  | EmptyString => EmptyString
  | String c s' =>
      match trimEnd s' with
      | EmptyString => if is_space c then EmptyString else String c EmptyString
      | rest => String c rest
      end
  end.

(** [s.trim()]. *)
Definition trim (s : string) : string := trimEnd (trimStart s).

(** [s.replace(/\s+/g, " ")]: every run of white space becomes one space;
    [in_run] tells that the character before was white space. *)
Fixpoint replace_spaces (in_run : bool) (s : string) : string :=
  match s with
  | EmptyString => EmptyString
  | String c s' =>
      if is_space c then
        if in_run then replace_spaces true s'
        else String " " (replace_spaces true s')
      else String c (replace_spaces false s')
  end.

(** [s.split(sep)] for a separator of one character. *)
Fixpoint split_on (sep : ascii) (s : string) : list string :=
  match s with
  | EmptyString => [EmptyString]
  | String c s' =>
      if Ascii.eqb c sep then EmptyString :: split_on sep s'
      else
        match split_on sep s' with
        | [] => [String c EmptyString] (* split_on holds a piece at least *)
        | piece :: pieces => String c piece :: pieces
        end
  end.

(** The line feed, ["\n"]. *)
Definition LF : ascii := "010"%char.

(* ------------------------------------------------------------------ *)
(** ** The roster parser (page.tsx, lines 17-74) *)

Definition uidFromName (name : string) : string :=
  replace_spaces false (toLowerCase (trim name)).

(** The body of the loop [for (const line of lines)]: [out] after the line. *)
Definition parse_line (out : list Student) (line : string) : list Student :=
  let parts := map trim (split_on "," line) in
  let name := default "" (parts !! 0%nat) in
  if String.eqb name "" then out (* continue *)
  else
    let genderRaw := toLowerCase (default "na" (parts !! 1%nat)) in
    let levelRaw := toLowerCase (default "na" (parts !! 2%nat)) in
    let exchangeRaw := toLowerCase (default "na" (parts !! 3%nat)) in
    let gender :=
      if String.eqb genderRaw "f" then Gf
      else if String.eqb genderRaw "m" then Gm
      else if String.eqb genderRaw "x" then Gx
      else Gna in
    let level :=
      if String.eqb levelRaw "bachelor" then Some bachelor
      else if String.eqb levelRaw "master" then Some master
      else None in
    let exchange :=
      if String.eqb exchangeRaw "true" then Some true
      else if String.eqb exchangeRaw "false" then Some false
      else None in
    out ++ [ {| id := uidFromName name;
                name := name;
                gender := gender;
                level := level;
                exchange := exchange |} ].

(** The lines that the parser reads: trimmed, not empty, not a comment. *)
Definition roster_lines (input : string) : list string :=
  filter (λ l, l ≠ EmptyString ∧ String.prefix "#" l = false)
         (map trim (split_on LF input)).

(** The array [out] when the loop over the lines is through. *)
Definition parsed_lines (input : string) : list Student :=
  foldl parse_line [] (roster_lines input).

(** [out.filter((s) => (seen.has(s.id) ? false : (seen.add(s.id), true)))]. *)
Fixpoint filter_unseen (seen : gset string) (out : list Student) : list Student :=
  match out with
  | [] => []
  | s :: rest =>
      if decide (id s ∈ seen) then filter_unseen seen rest
      else s :: filter_unseen ({[ id s ]} ∪ seen) rest
  end.

Definition parseStudents (input : string) : list Student :=
  let out := parsed_lines input in
  (* Deduplicate by id, keep first occurrence *)
  let seen : gset string := ∅ in
  filter_unseen seen out.

(** The characters of a string. *)
Fixpoint chars (s : string) : list ascii :=
  match s with
  | EmptyString => []
  | String c s' => c :: chars s'
  end.

(** The string is empty or starts with a character that is not white
    space. *)
Definition starts_clean (s : string) : Prop :=
  match s with
  | EmptyString => True
  | String c _ => is_space c = false
  end.

(** A line that the parser passes over: it holds no line feed and, once
    trimmed, is empty or starts with [#]. *)
Definition skipped_line (line : string) : Prop :=
  (LF ∉ chars line)
  ∧ (trim line = EmptyString ∨ String.prefix "#" (trim line) = true).

(* ------------------------------------------------------------------ *)
(** ** The page: its state and its handlers (page.tsx, lines 272-350) *)

Module Page.

(** The state variables of [Page]. *)
Record state : Type := {
  raw : string;
  groupSize : Z;
  attempts : Z;
  previous : list Group;
  groups : list Group;
  score : Z;
  status : string
}.

(** [useMemo(() => buildForbiddenPairs(previous), [previous])]. *)
Definition forbiddenPairs (st : state) : gset string :=
  buildForbiddenPairs (previous st).

(** [useMemo(() => parseStudents(raw), [raw])]. *)
Definition students (st : state) : list Student := parseStudents (raw st).

Definition weights : Weights := default_weights.

(** [makeGroups]: the state after the handler. The status ["Generating..."]
    that it sets first is replaced before the handler ends; a thrown error is
    caught and its message becomes the status. *)
Definition makeGroups (lt_exp : draw → Q → bool) (st : state) (tape : list draw)
    : outcome state :=
  match generateGroupsOptimized lt_exp (students st) (groupSize st)
          (forbiddenPairs st) (attempts st) weights tape with
  | Returned (Build_result g sc, _) =>
      Returned {| raw := raw st; groupSize := groupSize st; attempts := attempts st;
                  previous := previous st;
                  groups := g;
                  score := sc;
                  status := if sc =? 0 then "Done (perfect constraints match)."
                            else "Done (best effort)." |}
  | Thrown msg =>
      Returned {| raw := raw st; groupSize := groupSize st; attempts := attempts st;
                  previous := previous st; groups := groups st; score := score st;
                  status := msg |}
  | Starved => Starved
  end.

Definition acceptAsPrevious (st : state) : state :=
  if (length (groups st) =? 0)%nat then st
  else
    {| raw := raw st; groupSize := groupSize st; attempts := attempts st;
       previous := previous st ++ map (λ g, g) (groups st);
       groups := groups st; score := score st;
       status := "Saved as previous groups (pair-avoidance updated)." |}.

Definition clearPrevious (st : state) : state :=
  {| raw := raw st; groupSize := groupSize st; attempts := attempts st;
     previous := [];
     groups := groups st; score := score st;
     status := "Cleared previous groups history." |}.

Definition csvTemplate : string :=
  "# name,gender,level,exchange" +:+ String LF
  ("# gender: f | m | x | na" +:+ String LF
  ("# level: bachelor | master | na" +:+ String LF
  ("# exchange: true | false | na" +:+ String LF EmptyString))).

(** The button "Add legend": [setRaw(csvTemplate + raw)]. *)
Definition addLegend (st : state) : state :=
  {| raw := csvTemplate +:+ raw st;
     groupSize := groupSize st; attempts := attempts st; previous := previous st;
     groups := groups st; score := score st; status := status st |}.

End Page.

(* ------------------------------------------------------------------ *)
(** ** The data of the scenarios of the parser and of the page *)

(** A text with a comment, two lines of one id, and codes in capitals. *)
Definition example_text : string :=
  "# roster" +:+ String LF
  ("Ada Lovelace,f,master,false" +:+ String LF
  (" ada   lovelace ,x" +:+ String LF
   "Sam Lee , M")).

Definition student_ada : Student :=
  {| id := "ada lovelace"; name := "Ada Lovelace"; gender := Gf;
     level := Some master; exchange := Some false |}.

Definition student_sam : Student :=
  {| id := "sam lee"; name := "Sam Lee"; gender := Gm;
     level := None; exchange := None |}.

(** A tape for one iteration on a single group of two. *)
Definition short_tape : list draw :=
  [fraction 1 2; fraction 0 1; fraction 0 1; fraction 0 1; fraction 1 2].

Definition page_before : Page.state :=
  {| Page.raw := example_text; Page.groupSize := 2; Page.attempts := 1;
     Page.previous := []; Page.groups := []; Page.score := 0; Page.status := "" |}.

(** The page after [makeGroups] on [short_tape]. *)
Definition page_after : Page.state :=
  {| Page.raw := example_text; Page.groupSize := 2; Page.attempts := 1;
     Page.previous := [];
     Page.groups := [[student_ada; student_sam]];
     Page.score := 6;
     Page.status := "Done (best effort)." |}.

(* ------------------------------------------------------------------ *)
(** ** The optimizer at a group size that is any number

    [groupSize] is a [number], and the field of the page stores
    [Math.max(2, Number(e.target.value))] as it is (page.tsx, line 395): a
    size such as 2.5 reaches [generateGroupsOptimized]. In this module the
    group size, the loop counter of [chunkGroups] and the scores are
    rationals of [Q], and [slice] truncates its two bounds. The functions
    are those of page.tsx, lines 104-110, 129-178 and 186-261, once more;
    what holds no fraction ([countBy], the counts, the weights, the indices,
    the tape) is shared with the embedding above. The arithmetic of [Q] is
    that of the doubles where these add without rounding, as they do on the
    multiples of 1/2. *)

Module Fractional.

(** [x < y] on numbers. *)
Definition ltb (x y : Q) : bool := negb (Qle_bool y x).

(** The integer that [slice] makes of a bound that is not negative: the
    fraction is cut off. *)
Definition to_index (x : Q) : nat := Z.to_nat (Qfloor x).

(** The loop of [chunkGroups], [for (i = 0; i < students.length; i +=
    groupSize) groups.push(students.slice(i, i + groupSize))]; [fuel] bounds
    the number of iterations. *)
Fixpoint chunk_loop (fuel : nat) (students : list Student) (groupSize i : Q)
    : list Group :=
  match fuel with
  | O => []
  | S fuel' =>
      if ltb i (inject_Z (Z.of_nat (length students)))
      then slice (to_index i) (to_index (i + groupSize)) students
             :: chunk_loop fuel' students groupSize (i + groupSize)
      else []
  end.

(** With [groupSize >= 1] the loop runs at most [students.length] times. *)
Definition chunkGroups (students : list Student) (groupSize : Q) : list Group :=
  chunk_loop (length students) students groupSize 0.

Definition groupScore (group : Group) (forbiddenPairs : gset string)
    (targetSize : Q) (w : Weights) : Q :=
  let score := 0%Q in
  (* Pair repeats (hard penalty) *)
  let score :=
    for_range 0 (length group) (λ score i,
      for_range (i + 1) (length group) (λ score j,
        match group !! i, group !! j with
        | Some gi, Some gj =>
            let a := id gi in
            let b := id gj in
            let key := pairKey a b in
            if decide (key ∈ forbiddenPairs)
            then (score + inject_Z (forbidPair w))%Q else score
        | _, _ => score (* i and j are below group.length *)
        end) score) score in
  (* Size penalty *)
  let score :=
    (score + inject_Z (sizeImbalance w)
             * Qabs (inject_Z (Z.of_nat (length group)) - targetSize))%Q in
  let genders := countBy group gender_key in
  let levels := countBy group level_key in
  let exchange := countBy group exchange_key in
  (* Gender *)
  let knownGenderCount := get0 genders "f" + get0 genders "m" + get0 genders "x" in
  let score :=
    if 2 <=? knownGenderCount then
      let vals :=
        filter (λ v, Is_true ((0 <? v) || true))
               [get0 genders "f"; get0 genders "m"; get0 genders "x"] in
      let max := Math_max vals in
      let min := Math_min vals in
      (score + inject_Z (genderImbalance w * (max - min)))%Q
    else score in
  (* Level *)
  let knownLevelCount := get0 levels "bachelor" + get0 levels "master" in
  let score :=
    if 2 <=? knownLevelCount then
      (score + inject_Z (levelImbalance w
                         * Z.abs (get0 levels "bachelor" - get0 levels "master")))%Q
    else score in
  (* Exchange *)
  let knownExCount := get0 exchange "true" + get0 exchange "false" in
  let score :=
    if 2 <=? knownExCount then
      (score + inject_Z (exchangeImbalance w
                         * Z.abs (get0 exchange "true" - get0 exchange "false")))%Q
    else score in
  score.

Definition totalScore (groups : list Group) (forbiddenPairs : gset string)
    (targetSize : Q) (w : Weights) : Q :=
  foldl (λ acc g, (acc + groupScore g forbiddenPairs targetSize w)%Q) 0%Q groups.

(** The value [{ groups, score }] that [generateGroupsOptimized] returns. *)
Record result : Type := { groups : list Group; score : Q }.

(** The variables of [generateGroupsOptimized] that the loop assigns. *)
Record search_state : Type := {
  bestGroups : list Group;
  bestScore : Q;
  curGroups : list Group;
  curScore : Q
}.

Section Optimizer.

(** [lt_exp u q] is the test [u < Math.exp(q)] on a draw [u]. *)
Variable lt_exp : draw → Q → bool.

Variable forbiddenPairs : gset string.
Variable targetSize : Q.
Variable attempts : Z.
Variable w : Weights.
Variable groupCount : nat.

(** The loop [for (let t = 0; t < attempts; t++)] with [remaining]
    iterations to go. *)
Fixpoint search_loop (remaining : nat) (t : Z) (st : search_state)
    : Rand search_state :=
  match remaining with
  | O => mret st
  | S remaining' =>
      let temp := temperature t attempts in
      (* pick two different groups *)
      gi ← randomIndex groupCount;
      gj ← randomIndex groupCount;
      gj ← (if (1 <? groupCount)%nat then redraw groupCount gi gj else mret gj);
      g1 ← read (curGroups st) gi;
      g2 ← read (curGroups st) gj;
      if (length g1 =? 0)%nat || (length g2 =? 0)%nat
      then search_loop remaining' (t + 1) st (* continue *)
      else
        i ← randomIndex (length g1);
        j ← randomIndex (length g2);
        (* swap *)
        a ← read g1 i;
        b ← read g2 j;
        let swapped := write_cell (write_cell (curGroups st) gi i b) gj j a in
        let newScore := totalScore swapped forbiddenPairs targetSize w in
        let delta := (newScore - curScore st)%Q in
        saysYes ← (if Qle_bool delta 0 then mret true
                   else u ← Math_random;
                        mret (lt_exp u (- delta / temp)%Q));
        let st' :=
          if saysYes : bool then
            let curScore' := newScore in
            if ltb curScore' (bestScore st) then
              {| bestGroups := map (λ g, g) swapped;
                 bestScore := curScore';
                 curGroups := swapped;
                 curScore := curScore' |}
            else
              {| bestGroups := bestGroups st;
                 bestScore := bestScore st;
                 curGroups := swapped;
                 curScore := curScore' |}
          else
            (* revert *)
            {| bestGroups := bestGroups st;
               bestScore := bestScore st;
               curGroups := write_cell (write_cell swapped gi i a) gj j b;
               curScore := curScore st |} in
        (* early exit if perfect *)
        if Qeq_bool (bestScore st') 0 then mret st'
        else search_loop remaining' (t + 1) st'
  end.

End Optimizer.

Definition generateGroupsOptimized (lt_exp : draw → Q → bool)
    (students : list Student) (groupSize : Q) (forbiddenPairs : gset string)
    (attempts : Z) (w : Weights) : Rand result :=
  if ltb groupSize 2 then throw "groupSize must be >= 2"
  else if (length students =? 0)%nat then mret {| groups := []; score := 0 |}
  else
    let targetSize := groupSize in
    (* initial *)
    shuffled ← shuffle students;
    let bestGroups0 := chunkGroups shuffled groupSize in
    let bestScore0 := totalScore bestGroups0 forbiddenPairs targetSize w in
    (* current state *)
    let curGroups0 := map (λ g, g) bestGroups0 in
    let curScore0 := bestScore0 in
    let groupCount := length curGroups0 in
    st ← search_loop lt_exp forbiddenPairs targetSize attempts w groupCount
           (Z.to_nat attempts) 0
           {| bestGroups := bestGroups0; bestScore := bestScore0;
              curGroups := curGroups0; curScore := curScore0 |};
    mret {| groups := bestGroups st; score := bestScore st |}.

End Fractional.

(* ------------------------------------------------------------------ *)
(** ** Notions used to state the sizes of the groups at any group size *)

(** A group size that is the integer [s]. *)
Definition integer_size (groupSize : Q) (s : nat) : Prop :=
  (groupSize == inject_Z (Z.of_nat s))%Q.

(** The numbers that the specification of the group sizes names, at a list
    of [n] and a group size [s]: [ceil(n / s)], and [n mod s], the rest
    [n - s * floor(n / s)]. *)
Definition ceil_div (n : nat) (s : Q) : Z := Qceiling (inject_Z (Z.of_nat n) / s).

Definition rest_mod (n : nat) (s : Q) : Q :=
  (inject_Z (Z.of_nat n) - s * inject_Z (Qfloor (inject_Z (Z.of_nat n) / s)))%Q.

(** A group of [k] members has the size [s]. *)
Definition has_size (k : nat) (s : Q) : Prop := (inject_Z (Z.of_nat k) == s)%Q.

(** The sizes that the specification asks of a partition of [n] students at
    the group size [s]: [ceil(n / s)] groups, [s] members in every group but
    the last, [n mod s] in the last when that is not 0 and [s] otherwise, and
    no empty group. *)
Definition size_profile (n : nat) (s : Q) (partition : list Group) : Prop :=
  Z.of_nat (length partition) = ceil_div n s
  ∧ (∀ k g, partition !! k = Some g → (S k < length partition)%nat →
       has_size (length g) s)
  ∧ (∀ g, last partition = Some g →
       has_size (length g) (if Qeq_bool (rest_mod n s) 0 then s else rest_mod n s))
  ∧ (∀ g, g ∈ partition → g ≠ []).

(** Five students, and a tape on which [shuffle] leaves them in their order
    and the one iteration of the search then exchanges the second students of
    the two groups, [B] and [D]. *)
Definition roster_of_five : list Student :=
  [student_A; student_B; student_C; student_D; student_E].

Definition tape_of_five : list draw :=
  [fraction 4 5; fraction 3 4; fraction 2 3; fraction 1 2;
   fraction 0 1; fraction 1 2; fraction 1 2; fraction 1 2].

(** What the call returns on [roster_of_five] at the group size 2.5. *)
Definition groups_of_five : list Group :=
  [[student_A; student_D]; [student_C; student_B; student_E]].

(** The state and the result of the embedding over the integers, read as
    those of [Fractional]. *)
Definition fractional_state (st : search_state) : Fractional.search_state :=
  {| Fractional.bestGroups := bestGroups st;
     Fractional.bestScore := inject_Z (bestScore st);
     Fractional.curGroups := curGroups st;
     Fractional.curScore := inject_Z (curScore st) |}.

Definition fractional_result (r : result) : Fractional.result :=
  {| Fractional.groups := groups r; Fractional.score := inject_Z (score r) |}.

(** The outcome of a run, with [f] on the value that it returns. *)
Definition map_outcome {A B : Type} (f : A → B) (o : outcome (A * list draw))
    : outcome (B * list draw) :=
  match o with
  | Returned (a, tape) => Returned (f a, tape)
  | Thrown msg => Thrown msg
  | Starved => Starved
  end.

(* ================================================================== *)
(** * Properties *)

(* ------------------------------------------------------------------ *)
(** ** The nested loops visit the pairs of [pairs_of] *)

Section PairLoops.
Context {A B : Type}.

Lemma suffix_at_all (l : list A) : suffix_at l 0 l.
Proof. by split. Qed.

Lemma suffix_at_cons (L : list A) k y l :
  suffix_at L k (y :: l) → L !! k = Some y ∧ suffix_at L (S k) l.
Proof.
  intros [Hlen Hget]. split.
  - specialize (Hget 0%nat). by rewrite Nat.add_0_r in Hget.
  - split; [cbn in Hlen; lia|]. intros j. specialize (Hget (S j)).
    by rewrite Nat.add_succ_r in Hget.
Qed.

Lemma for_range_lookup (h : B → A → B) (L : list A) k l (acc : B) :
  suffix_at L k l →
  foldl (λ acc j, match L !! j with Some b => h acc b | None => acc end)
        acc (seq k (length l))
  = foldl h acc l.
Proof.
  revert k acc. induction l as [|y l IH]; intros k acc Hs; [done|].
  apply suffix_at_cons in Hs as [Hk Hs]. cbn [length seq foldl].
  rewrite Hk. by apply IH.
Qed.

Lemma foldl_pair_with (f : B → A → A → B) (y : A) (l : list A) (acc : B) :
  foldl (λ acc p, f acc p.1 p.2) acc (map (pair y) l)
  = foldl (λ acc b, f acc y b) acc l.
Proof. revert acc. induction l as [|z l IH]; intros acc; [done|]. cbn. apply IH. Qed.

Lemma pair_loops_from (f : B → A → A → B) (L : list A) k l (acc : B) :
  suffix_at L k l →
  foldl (λ acc i,
    for_range (i + 1) (length L) (λ acc j,
      match L !! i, L !! j with
      | Some a, Some b => f acc a b
      | _, _ => acc
      end) acc) acc (seq k (length l))
  = foldl (λ acc p, f acc p.1 p.2) acc (pairs_of l).
Proof.
  revert k acc. induction l as [|y l IH]; intros k acc Hs; [done|].
  pose proof Hs as [Hlen _]. apply suffix_at_cons in Hs as [Hk Hs].
  cbn [length seq foldl pairs_of]. rewrite foldl_app, foldl_pair_with.
  rewrite (IH (S k)) by done. f_equal.
  unfold for_range. rewrite Hk, Nat.add_1_r.
  replace (length L - S k)%nat with (length l) by (cbn in Hlen; lia).
  by apply (for_range_lookup (λ acc b, f acc y b)).
Qed.

Lemma pair_loops (f : B → A → A → B) (l : list A) (acc : B) :
  for_range 0 (length l) (λ acc i,
    for_range (i + 1) (length l) (λ acc j,
      match l !! i, l !! j with
      | Some a, Some b => f acc a b
      | _, _ => acc
      end) acc) acc
  = foldl (λ acc p, f acc p.1 p.2) acc (pairs_of l).
Proof.
  unfold for_range at 1. rewrite Nat.sub_0_r.
  apply pair_loops_from, suffix_at_all.
Qed.

End PairLoops.

Lemma elem_of_pairs_of {A : Type} (l : list A) (a b : A) :
  (a, b) ∈ pairs_of l ↔ ∃ i j, (i < j)%nat ∧ l !! i = Some a ∧ l !! j = Some b.
Proof.
  induction l as [|y l IH]; cbn [pairs_of].
  - split; [by intros ?%elem_of_nil|]. by intros (i & j & _ & ? & _).
  - rewrite elem_of_app, list_elem_of_fmap, IH. split.
    + intros [(z & [= -> ->] & (j & Hj)%list_elem_of_lookup)|(i & j & ? & ? & ?)].
      * exists 0%nat, (S j). split; [lia|done].
      * exists (S i), (S j). split; [lia|done].
    + intros (i & j & Hij & Hi & Hj). destruct j as [|j]; [lia|].
      destruct i as [|i]; cbn in Hi, Hj.
      * left. injection Hi as ->. exists b. split; [done|].
        apply list_elem_of_lookup. eauto.
      * right. exists i, j. split; [lia|done].
Qed.

(* ------------------------------------------------------------------ *)
(** ** countBy counts *)

Lemma get0_insert (r : gmap string Z) (k k' : string) (v : Z) :
  get0 (<[ k := v ]> r) k' = if decide (k = k') then v else get0 r k'.
Proof.
  unfold get0. rewrite lookup_insert. by case_decide.
Qed.

Lemma countBy_from (keyFn : Student → string) (group : Group) (r : gmap string Z) k :
  get0 (foldl (λ r s, let k := keyFn s in <[ k := get0 r k + 1 ]> r) r group) k
  = get0 r k + count_key keyFn k group.
Proof.
  unfold count_key. revert r. induction group as [|s group IH]; intros r.
  - cbn. lia.
  - cbn [foldl]. rewrite IH, get0_insert. rewrite filter_cons.
    case_decide as Hk; [subst k|]; cbn [length]; lia.
Qed.

Lemma get0_countBy (keyFn : Student → string) (group : Group) k :
  get0 (countBy group keyFn) k = count_key keyFn k group.
Proof. unfold countBy. rewrite countBy_from. unfold get0. by rewrite lookup_empty. Qed.

(* ------------------------------------------------------------------ *)
(** ** groupScore is the sum of its five terms *)

Lemma pair_penalty_foldl (forbidden : gset string) (fp : Z) (ps : list (Student * Student)) acc :
  foldl (λ score p,
           if decide (pairKey (id p.1) (id p.2) ∈ forbidden) then score + fp else score)
        acc ps
  = acc + Z.of_nat (length (filter (λ p, key_of p ∈ forbidden) ps)) * fp.
Proof.
  revert acc. induction ps as [|p ps IH]; intros acc; [cbn; lia|].
  cbn [foldl]. rewrite IH, filter_cons. unfold key_of.
  case_decide; cbn [length]; rewrite ?Nat2Z.inj_succ; lia.
Qed.

Lemma filter_or_true (vals : list Z) :
  filter (λ v, Is_true ((0 <? v) || true)) vals = vals.
Proof.
  induction vals as [|v vals IH]; [done|].
  rewrite filter_cons, IH. rewrite orb_true_r. by case_decide.
Qed.

Lemma groupScore_terms (group : Group) (forbidden : gset string) (targetSize : Z)
    (w : Weights) :
  groupScore group forbidden targetSize w
  = forbidden_count forbidden group * forbidPair w
    + sizeImbalance w * Z.abs (Z.of_nat (length group) - targetSize)
    + balance3 (genderImbalance w) (count_key gender_key "f" group)
        (count_key gender_key "m" group) (count_key gender_key "x" group)
    + balance2 (levelImbalance w) (count_key level_key "bachelor" group)
        (count_key level_key "master" group)
    + balance2 (exchangeImbalance w) (count_key exchange_key "true" group)
        (count_key exchange_key "false" group).
Proof.
  unfold groupScore. cbv zeta.
  rewrite (pair_loops (λ score a b,
    if decide (pairKey (id a) (id b) ∈ forbidden) then score + forbidPair w else score)).
  rewrite pair_penalty_foldl, filter_or_true, !get0_countBy.
  unfold balance3, balance2, forbidden_count, spread3, Math_max, Math_min.
  cbn [foldl].
  destruct (2 <=? _ + _ + _); destruct (2 <=? _ + _); destruct (2 <=? _ + _); lia.
Qed.

Lemma balance2_nonneg weight c1 c2 : 0 ≤ weight → 0 ≤ balance2 weight c1 c2.
Proof. intros ?. unfold balance2. case_match; [|lia]. apply Z.mul_nonneg_nonneg; lia. Qed.

Lemma balance3_nonneg weight c1 c2 c3 : 0 ≤ weight → 0 ≤ balance3 weight c1 c2 c3.
Proof. intros ?. unfold balance3, spread3. case_match; [|lia]. apply Z.mul_nonneg_nonneg; lia. Qed.

Lemma groupScore_nonneg (group : Group) (forbidden : gset string) (targetSize : Z)
    (w : Weights) :
  nonneg_weights w → 0 ≤ groupScore group forbidden targetSize w.
Proof.
  intros (? & ? & ? & ? & ?). rewrite groupScore_terms.
  pose proof (balance3_nonneg (genderImbalance w) (count_key gender_key "f" group)
    (count_key gender_key "m" group) (count_key gender_key "x" group)).
  pose proof (balance2_nonneg (levelImbalance w) (count_key level_key "bachelor" group)
    (count_key level_key "master" group)).
  pose proof (balance2_nonneg (exchangeImbalance w) (count_key exchange_key "true" group)
    (count_key exchange_key "false" group)).
  assert (0 ≤ forbidden_count forbidden group * forbidPair w)
    by (apply Z.mul_nonneg_nonneg; [unfold forbidden_count|]; lia).
  assert (0 ≤ sizeImbalance w * Z.abs (Z.of_nat (length group) - targetSize))
    by (apply Z.mul_nonneg_nonneg; lia).
  lia.
Qed.

Lemma totalScore_from (groups : list Group) forbidden targetSize w acc :
  foldl (λ acc g, acc + groupScore g forbidden targetSize w) acc groups
  = acc + sum_scores (map (λ g, groupScore g forbidden targetSize w) groups).
Proof.
  revert acc. induction groups as [|g groups IH]; intros acc; cbn [foldl map].
  - unfold sum_scores. cbn. lia.
  - rewrite IH. unfold sum_scores. cbn [foldr]. lia.
Qed.

Lemma sum_scores_nonneg (l : list Z) : Forall (λ z, 0 ≤ z) l → 0 ≤ sum_scores l.
Proof. induction 1 as [|z l Hz Hl IH]; [done|]. unfold sum_scores in *. cbn [foldr]. lia. Qed.

(** C2. For every partition and every configuration of non-negative weights,
    [totalScore] is the sum of [groupScore] over the groups of the partition,
    it is at least 0, and so is the score of each group. *)
Theorem totalScore_sum_nonneg (partition : list Group) (forbidden : gset string)
    (targetSize : Z) (w : Weights) :
  nonneg_weights w →
  totalScore partition forbidden targetSize w
  = sum_scores (map (λ g, groupScore g forbidden targetSize w) partition)
  ∧ 0 ≤ totalScore partition forbidden targetSize w
  ∧ ∀ g : Group, 0 ≤ groupScore g forbidden targetSize w.
Proof.
  intros Hw.
  assert (Hsum : totalScore partition forbidden targetSize w
    = sum_scores (map (λ g, groupScore g forbidden targetSize w) partition)).
  { unfold totalScore. rewrite totalScore_from. lia. }
  split; [exact Hsum|]. split; [|intros g; by apply groupScore_nonneg].
  rewrite Hsum. apply sum_scores_nonneg, Forall_forall.
  intros z (g & -> & _)%list_elem_of_fmap. by apply groupScore_nonneg.
Qed.

(* ------------------------------------------------------------------ *)
(** ** Counting by key and counting by attribute *)

Lemma count_key_gender (group : Group) :
  count_key gender_key "f" group = count_gender Gf group
  ∧ count_key gender_key "m" group = count_gender Gm group
  ∧ count_key gender_key "x" group = count_gender Gx group.
Proof.
  unfold count_key, count_gender, gender_key.
  induction group as [|s group (IHf & IHm & IHx)]; [done|].
  rewrite !filter_cons. destruct (gender s); repeat case_decide; try done; cbn [length]; lia.
Qed.

Lemma known_gender_count (group : Group) :
  count_key gender_key "f" group + count_key gender_key "m" group
  + count_key gender_key "x" group = Z.of_nat (length (known_gender group)).
Proof.
  unfold count_key, known_gender, gender_key.
  induction group as [|s group IH]; [done|].
  rewrite !filter_cons. destruct (gender s); repeat case_decide; try done; cbn [length]; lia.
Qed.

Lemma known_level_count (group : Group) :
  count_key level_key "bachelor" group + count_key level_key "master" group
  = Z.of_nat (length (known_level group)).
Proof.
  unfold count_key, known_level, level_key.
  induction group as [|s group IH]; [done|].
  rewrite !filter_cons. destruct (level s) as [[]|]; repeat case_decide; try done;
    cbn [length]; lia.
Qed.

Lemma known_exchange_count (group : Group) :
  count_key exchange_key "true" group + count_key exchange_key "false" group
  = Z.of_nat (length (known_exchange group)).
Proof.
  unfold count_key, known_exchange, exchange_key.
  induction group as [|s group IH]; [done|].
  rewrite !filter_cons. destruct (exchange s) as [[]|]; repeat case_decide; try done;
    cbn [length]; lia.
Qed.

Lemma filter_none {A : Type} (P : A → Prop) `{∀ x, Decision (P x)} (l : list A) :
  (∀ x, x ∈ l → ¬ P x) → filter P l = [].
Proof.
  induction l as [|x l IH]; intros Hl; [done|].
  rewrite filter_cons_False by (apply Hl; left).
  apply IH. intros y Hy. apply Hl. by right.
Qed.

Lemma forbidden_count_zero (forbidden : gset string) (group : Group) :
  no_forbidden_pair forbidden group → forbidden_count forbidden group = 0.
Proof.
  intros Hno. unfold forbidden_count.
  rewrite filter_none; [done|].
  intros [a b] (i & j & Hij & Hi & Hj)%elem_of_pairs_of. by apply (Hno i j).
Qed.

(** C7. A group whose length is the target size, with no pair of members in
    the forbidden set and with at most one member of known gender, of known
    level and of known exchange status, has score 0, whatever the weights. *)
Theorem groupScore_zero (group : Group) (forbidden : gset string) (targetSize : Z)
    (w : Weights) :
  Z.of_nat (length group) = targetSize →
  no_forbidden_pair forbidden group →
  (length (known_gender group) ≤ 1)%nat →
  (length (known_level group) ≤ 1)%nat →
  (length (known_exchange group) ≤ 1)%nat →
  groupScore group forbidden targetSize w = 0.
Proof.
  intros Hlen Hno Hg Hl He. rewrite groupScore_terms, forbidden_count_zero by done.
  unfold balance3, balance2.
  rewrite known_gender_count, known_level_count, known_exchange_count, Hlen.
  repeat case_match; lia.
Qed.

(** C8. When at least two members of the group have a known gender, the
    score is the score without the gender weight plus [genderImbalance] times
    the largest minus the smallest of the counts of f, m and x, a count of 0
    included: with two f, two m and no x the term is twice the weight. *)
Theorem groupScore_gender_term (group : Group) (forbidden : gset string)
    (targetSize : Z) (w : Weights) :
  (2 ≤ length (known_gender group))%nat →
  groupScore group forbidden targetSize w
  = groupScore group forbidden targetSize (without_gender w)
    + genderImbalance w
      * spread3 (count_gender Gf group) (count_gender Gm group) (count_gender Gx group)
  ∧ (count_gender Gf group = 2 → count_gender Gm group = 2 → count_gender Gx group = 0 →
     groupScore group forbidden targetSize w
     = groupScore group forbidden targetSize (without_gender w) + 2 * genderImbalance w).
Proof.
  intros Hknown.
  assert (Heq : groupScore group forbidden targetSize w
    = groupScore group forbidden targetSize (without_gender w)
      + genderImbalance w
        * spread3 (count_gender Gf group) (count_gender Gm group) (count_gender Gx group)).
  { rewrite !groupScore_terms. cbn [without_gender forbidPair genderImbalance
      levelImbalance exchangeImbalance sizeImbalance].
    unfold balance3. rewrite known_gender_count.
    destruct (count_key_gender group) as (-> & -> & ->).
    destruct (Z.leb_spec 2 (Z.of_nat (length (known_gender group)))); lia. }
  split; [exact Heq|]. intros Hf Hm Hx. rewrite Heq, Hf, Hm, Hx. unfold spread3. lia.
Qed.

(* ------------------------------------------------------------------ *)
(** ** The score does not depend on the order of the members *)

Lemma pairKey_comm (a b : string) : pairKey a b = pairKey b a.
Proof.
  unfold pairKey, String.ltb. rewrite (String.compare_antisym b a).
  destruct (String.compare a b) eqn:Hab; cbn; [|done|done].
  apply String.compare_eq_iff in Hab. by subst.
Qed.

Lemma count_key_perm keyFn k (g g' : Group) :
  g ≡ₚ g' → count_key keyFn k g = count_key keyFn k g'.
Proof.
  intros Hp. unfold count_key. f_equal.
  apply Permutation_length. by apply filter_Permutation.
Qed.

Lemma forbidden_count_perm (forbidden : gset string) (g g' : Group) :
  g ≡ₚ g' → forbidden_count forbidden g = forbidden_count forbidden g'.
Proof.
  intros Hp. unfold forbidden_count. f_equal.
  induction Hp as [|x l l' Hp IH|x y l|l l' l'' _ IH1 _ IH2].
  - done.
  - cbn [pairs_of]. rewrite !filter_app, !length_app, IH. f_equal.
    apply Permutation_length, filter_Permutation, Permutation_map, Hp.
  - assert (Hk : key_of (y, x) = key_of (x, y)) by apply pairKey_comm.
    cbn [pairs_of map app]. rewrite !filter_cons, !filter_app.
    repeat case_decide; cbn [length]; rewrite !length_app; try lia;
      exfalso; rewrite Hk in *; done.
  - congruence.
Qed.

(** C9. [groupScore] gives the same value on a group and on any
    permutation of its members. *)
Theorem groupScore_permutation (group group' : Group) (forbidden : gset string)
    (targetSize : Z) (w : Weights) :
  group ≡ₚ group' →
  groupScore group forbidden targetSize w = groupScore group' forbidden targetSize w.
Proof.
  intros Hp. rewrite !groupScore_terms.
  rewrite (forbidden_count_perm forbidden group group' Hp).
  rewrite (Permutation_length Hp).
  by rewrite !(count_key_perm _ _ group group' Hp).
Qed.

(* ------------------------------------------------------------------ *)
(** ** buildForbiddenPairs *)

Lemma add_keys_elem (ps : list (Student * Student)) (set : gset string) (k : string) :
  k ∈ foldl (λ set p, {[ pairKey (id p.1) (id p.2) ]} ∪ set) set ps
  ↔ k ∈ set ∨ ∃ p, p ∈ ps ∧ k = key_of p.
Proof.
  revert set. induction ps as [|p ps IH]; intros set; cbn [foldl].
  - split; [by left|]. intros [?|(p & ?%elem_of_nil & _)]; done.
  - rewrite IH, elem_of_union, elem_of_singleton. unfold key_of. split.
    + intros [[->|?]|(q & ? & ?)]; [right; exists p|by left|right; exists q].
      * split; [left|done].
      * split; [by right|done].
    + intros [?|(q & [->|?]%elem_of_cons & ->)]; [by left; right|by left; left|].
      right. by exists q.
Qed.

Lemma buildForbiddenPairs_from (gs : list Group) (set : gset string) (k : string) :
  k ∈ foldl (λ set g,
        for_range 0 (length g) (λ set i,
          for_range (i + 1) (length g) (λ set j,
            match g !! i, g !! j with
            | Some gi, Some gj =>
                let a := id gi in
                let b := id gj in
                let key := pairKey a b in
                {[ key ]} ∪ set
            | _, _ => set
            end) set) set) set gs
  ↔ k ∈ set ∨ ∃ g p, g ∈ gs ∧ p ∈ pairs_of g ∧ k = key_of p.
Proof.
  revert set. induction gs as [|g gs IH]; intros set; cbn [foldl].
  - split; [by left|]. intros [?|(g & p & ?%elem_of_nil & _)]; done.
  - rewrite IH. cbv zeta.
    rewrite (pair_loops (λ set a b, {[ pairKey (id a) (id b) ]} ∪ set)), add_keys_elem.
    split.
    + intros [[?|(p & ? & ?)]|(g' & p & ? & ? & ?)]; [by left|right; exists g, p|right; exists g', p].
      * split; [left|done].
      * split; [by right|done].
    + intros [?|(g' & p & [->|?]%elem_of_cons & ? & ?)]; [by left; left|left; right; by exists p|].
      right. by exists g', p.
Qed.

(** The keys of the set are the keys of the pairs of members of a group. *)
Lemma elem_of_buildForbiddenPairs (gs : list Group) (k : string) :
  k ∈ buildForbiddenPairs gs ↔ ∃ g p, g ∈ gs ∧ p ∈ pairs_of g ∧ k = key_of p.
Proof.
  unfold buildForbiddenPairs. rewrite buildForbiddenPairs_from. split; [|by right].
  intros [?%not_elem_of_empty|?]; done.
Qed.

Lemma buildForbiddenPairs_nil : buildForbiddenPairs [] = ∅.
Proof. reflexivity. Qed.

(** Every two ids that a group of the history holds at distinct positions
    have their key in the set. *)
Lemma buildForbiddenPairs_complete (gs : list Group) (x y : string) :
  grouped_together gs x y → pairKey x y ∈ buildForbiddenPairs gs.
Proof.
  intros (g & i & j & a & b & Hg & Hij & Hi & Hj & <- & <-).
  apply elem_of_buildForbiddenPairs.
  destruct (Nat.lt_total i j) as [Hlt|[?|Hlt]]; [|done|].
  - exists g, (a, b). split; [done|]. split; [|done].
    apply elem_of_pairs_of. by exists i, j.
  - exists g, (b, a). split; [done|]. split; [|apply pairKey_comm].
    apply elem_of_pairs_of. by exists j, i.
Qed.

Lemma append_nil_l (s : string) : "" +:+ s = s.
Proof. reflexivity. Qed.

Lemma append_cons_l (c : ascii) (s s' : string) : String c s +:+ s' = String c (s +:+ s').
Proof. reflexivity. Qed.

Lemma append_bar_inj (a b c d : string) :
  bar_free a = true → bar_free c = true →
  a +:+ "||" +:+ b = c +:+ "||" +:+ d → a = c ∧ b = d.
Proof.
  revert c. induction a as [|ch a IH]; intros [|ch' c] Ha Hc Heq;
    rewrite ?append_nil_l, ?append_cons_l, ?append_nil_l in Heq; cbn [bar_free] in Ha, Hc.
  - by injection Heq as ->.
  - injection Heq as <- _. by rewrite Ascii.eqb_refl in Hc.
  - injection Heq as -> _. by rewrite Ascii.eqb_refl in Ha.
  - injection Heq as -> Heq. apply andb_prop in Ha as [_ Ha], Hc as [_ Hc].
    destruct (IH c Ha Hc Heq) as [-> ->]. done.
Qed.

Lemma pairKey_inj (x y a b : string) :
  bar_free x = true → bar_free y = true → bar_free a = true → bar_free b = true →
  pairKey x y = pairKey a b → (x = a ∧ y = b) ∨ (x = b ∧ y = a).
Proof.
  intros Hx Hy Ha Hb. unfold pairKey.
  destruct (String.ltb x y), (String.ltb a b); intros [-> ->]%append_bar_inj; auto.
Qed.

(** When no id holds the character [|], the set holds the key of [x] and [y]
    only if a group of the history holds both. *)
Lemma buildForbiddenPairs_sound (gs : list Group) (x y : string) :
  (∀ g s, g ∈ gs → s ∈ g → bar_free (id s) = true) →
  bar_free x = true → bar_free y = true →
  pairKey x y ∈ buildForbiddenPairs gs → grouped_together gs x y.
Proof.
  intros Hids Hx Hy (g & [a b] & Hg & (i & j & Hij & Hi & Hj)%elem_of_pairs_of & Hk)
    %elem_of_buildForbiddenPairs.
  assert (bar_free (id a) = true) by (eapply Hids, list_elem_of_lookup_2; done).
  assert (bar_free (id b) = true) by (eapply Hids, list_elem_of_lookup_2; done).
  apply pairKey_inj in Hk as [[-> ->]|[-> ->]]; [| |done..].
  - exists g, i, j, a, b. repeat split; [done|lia|done..].
  - exists g, j, i, b, a. repeat split; [done|lia|done..].
Qed.

(* ------------------------------------------------------------------ *)
(** ** Runs of a computation that reads the tape *)

Lemma bind_Returned {A B : Type} (c : Rand A) (k : A → Rand B) tape r :
  (c ≫= k) tape = Returned r
  ↔ ∃ a tape1, c tape = Returned (a, tape1) ∧ k a tape1 = Returned r.
Proof.
  unfold mbind, Rand_bind, bind. split.
  - destruct (c tape) as [[a tape1]| |]; [|done..]. intros Hk. by exists a, tape1.
  - intros (a & tape1 & -> & Hk). exact Hk.
Qed.

Lemma mret_Returned {A : Type} (a b : A) tape tape' :
  (mret a : Rand A) tape = Returned (b, tape') ↔ a = b ∧ tape = tape'.
Proof.
  unfold mret, Rand_ret, ret. split; [by intros [= -> ->]|by intros [-> ->]].
Qed.

Lemma Math_random_Returned u tape tape' :
  Math_random tape = Returned (u, tape') ↔ tape = u :: tape'.
Proof.
  unfold Math_random. destruct tape as [|v tape]; [done|].
  split; [by intros [= -> ->]|by intros [= -> ->]].
Qed.

Lemma read_Returned {A : Type} (arr : list A) i v tape tape' :
  read arr i tape = Returned (v, tape') ↔ arr !! i = Some v ∧ tape = tape'.
Proof.
  unfold read. destruct (arr !! i) as [x|]; unfold ret, throw.
  - split; [by intros [= -> ->]|by intros [[= ->] ->]].
  - split; [done|by intros [? _]].
Qed.

Lemma randomIndex_Returned n k tape tape' :
  randomIndex n tape = Returned (k, tape')
  ↔ ∃ u, tape = u :: tape' ∧ k = floor_mul u n.
Proof.
  unfold randomIndex. rewrite bind_Returned. split.
  - intros (u & tape1 & Hu%Math_random_Returned & [<- <-]%mret_Returned). by exists u.
  - intros (u & -> & ->). exists u, tape'. split; [done|]. by apply mret_Returned.
Qed.

(** Takes apart a hypothesis that a sequence of steps returned. *)
Ltac inv_run H :=
  repeat match type of H with
  | (_ ≫= _) _ = Returned _ =>
      let a := fresh "a" in let tp := fresh "tape" in let H1 := fresh "Hrun" in
      apply bind_Returned in H as (a & tp & H1 & H)
  end.

(* ------------------------------------------------------------------ *)
(** ** Exchanging two cells keeps the elements *)

Lemma insert_replaces {A : Type} (l : list A) i (x y : A) :
  l !! i = Some x → x :: <[ i := y ]> l ≡ₚ y :: l.
Proof.
  revert i. induction l as [|z l IH]; intros [|i] Hi; try done; cbn in *.
  - injection Hi as ->. apply perm_swap.
  - rewrite perm_swap, (IH i Hi). apply perm_swap.
Qed.

Lemma exchange_perm {A : Type} (l : list A) i j (ai aj : A) :
  l !! i = Some ai → l !! j = Some aj →
  <[ j := ai ]> (<[ i := aj ]> l) ≡ₚ l.
Proof.
  intros Hi Hj.
  assert (Hj' : <[ i := aj ]> l !! j = Some aj).
  { destruct (decide (i = j)) as [->|Hne].
    - apply list_lookup_insert_eq. by eapply lookup_lt_Some.
    - by rewrite list_lookup_insert_ne. }
  apply (Permutation_cons_inv (a := aj)).
  rewrite (insert_replaces _ j aj ai Hj'). by apply insert_replaces.
Qed.

Lemma write_cell_lookup (L : list Group) g g' i v :
  write_cell L g i v !! g'
  = if decide (g = g') then (λ row, <[ i := v ]> row) <$> L !! g' else L !! g'.
Proof.
  unfold write_cell. case_decide as Hg.
  - subst. apply list_lookup_alter_eq.
  - by apply list_lookup_alter_ne.
Qed.

Lemma write_cell_lengths (L : list Group) g i v :
  map length (write_cell L g i v) = map length L.
Proof.
  unfold write_cell. revert g. induction L as [|row L IH]; intros [|g]; cbn; [done..| |].
  - by rewrite length_insert.
  - f_equal. apply IH.
Qed.

Lemma write_cell_replaces (L : list Group) g i row (x y : Student) :
  L !! g = Some row → row !! i = Some x →
  x :: concat (write_cell L g i y) ≡ₚ y :: concat L.
Proof.
  unfold write_cell. revert g. induction L as [|r L IH]; intros [|g] Hg Hi; try done; cbn in *.
  - injection Hg as ->. by rewrite app_comm_cons, (insert_replaces row i x y Hi).
  - rewrite (Permutation_middle r _ x), (IH g Hg Hi). symmetry. apply Permutation_middle.
Qed.

(** The four reads at the head of a swap: rows [gi] and [gj] exist and hold
    [a] at [i] and [b] at [j]. *)
Lemma swap_cells_perm (L : list Group) gi gj i j g1 g2 (a b : Student) :
  L !! gi = Some g1 → L !! gj = Some g2 → g1 !! i = Some a → g2 !! j = Some b →
  concat (write_cell (write_cell L gi i b) gj j a) ≡ₚ concat L.
Proof.
  intros Hg1 Hg2 Ha Hb.
  assert (∃ g2', write_cell L gi i b !! gj = Some g2' ∧ g2' !! j = Some b)
    as (g2' & Hg2' & Hb').
  { rewrite write_cell_lookup. case_decide as Hg.
    - subst gj. rewrite Hg2. eexists. split; [done|].
      assert (g1 = g2) as -> by congruence.
      destruct (decide (i = j)) as [->|Hne].
      + apply list_lookup_insert_eq. by eapply lookup_lt_Some.
      + by rewrite list_lookup_insert_ne.
    - by exists g2. }
  apply (Permutation_cons_inv (a := b)).
  rewrite (write_cell_replaces _ gj j g2' b a Hg2' Hb').
  by apply (write_cell_replaces L gi i g1).
Qed.

(** The two writes of the revert restore the array of groups. *)
Lemma revert_restores (L : list Group) gi gj i j g1 g2 (a b : Student) :
  L !! gi = Some g1 → L !! gj = Some g2 → g1 !! i = Some a → g2 !! j = Some b →
  write_cell (write_cell (write_cell (write_cell L gi i b) gj j a) gi i a) gj j b = L.
Proof.
  intros Hg1 Hg2 Ha Hb. apply list_eq. intros k.
  rewrite !write_cell_lookup.
  destruct (decide (gj = k)) as [->|Hj], (decide (gi = k)) as [->|Hi].
  - rewrite Hg2. cbn. f_equal. assert (g1 = g2) as -> by congruence.
    destruct (decide (i = j)) as [->|Hne].
    + assert (a = b) as -> by congruence.
      rewrite !list_insert_insert_eq. by apply list_insert_id.
    + rewrite (list_insert_insert_ne _ i j a a) by done.
      rewrite !list_insert_insert_eq.
      rewrite (list_insert_id _ i a) by done. by apply list_insert_id.
  - rewrite Hg2. cbn. f_equal. rewrite list_insert_insert_eq. by apply list_insert_id.
  - rewrite Hg1. cbn. f_equal. rewrite list_insert_insert_eq. by apply list_insert_id.
  - done.
Qed.

(* ------------------------------------------------------------------ *)
(** ** shuffle and chunkGroups keep the students *)

Lemma shuffle_loop_perm {T : Type} (i : nat) (a a' : list T) tape tape' :
  shuffle_loop i a tape = Returned (a', tape') → a' ≡ₚ a.
Proof.
  revert a tape. induction i as [|i IH]; intros a tape Hrun; cbn [shuffle_loop] in Hrun.
  - by apply mret_Returned in Hrun as [-> _].
  - inv_run Hrun. cbv zeta in Hrun. inv_run Hrun.
    apply read_Returned in Hrun1 as [Hj _], Hrun2 as [Hi _].
    rewrite (IH _ _ Hrun). by apply exchange_perm.
Qed.

Lemma shuffle_perm {T : Type} (arr arr' : list T) tape tape' :
  shuffle arr tape = Returned (arr', tape') → arr' ≡ₚ arr.
Proof. apply shuffle_loop_perm. Qed.

(** The fuel of [chunkGroups] is enough: more fuel gives the same groups. *)
Lemma chunk_loop_fuel (fuel fuel' : nat) (students : list Student) (groupSize i : nat) :
  (1 ≤ groupSize)%nat →
  (length students - i ≤ fuel)%nat → (length students - i ≤ fuel')%nat →
  chunk_loop fuel students groupSize i = chunk_loop fuel' students groupSize i.
Proof.
  intros Hs. revert fuel' i.
  induction fuel as [|fuel IH]; intros [|fuel'] i Hf Hf'; cbn [chunk_loop]; try done.
  - destruct (Nat.ltb_spec i (length students)); [lia|done].
  - destruct (Nat.ltb_spec i (length students)); [lia|done].
  - destruct (Nat.ltb_spec i (length students)); [|done]. f_equal. apply IH; lia.
Qed.

Lemma chunk_loop_concat (fuel : nat) (students : list Student) (groupSize i : nat) :
  (1 ≤ groupSize)%nat → (length students - i ≤ fuel)%nat →
  concat (chunk_loop fuel students groupSize i) = drop i students.
Proof.
  intros Hs. revert i. induction fuel as [|fuel IH]; intros i Hfuel; cbn [chunk_loop].
  - rewrite drop_ge by lia. done.
  - destruct (Nat.ltb_spec i (length students)) as [Hi|Hi].
    + cbn [concat]. rewrite IH by lia. unfold slice.
      replace (i + groupSize - i)%nat with groupSize by lia.
      rewrite <- (drop_drop students groupSize i). apply take_drop.
    + rewrite drop_ge by lia. done.
Qed.

Lemma chunk_sizes_0 (s : nat) : chunk_sizes 0 s = [].
Proof. unfold chunk_sizes. by rewrite Nat.Div0.div_0_l, Nat.Div0.mod_0_l. Qed.

Lemma chunk_sizes_small (n s : nat) : (0 < n < s)%nat → chunk_sizes n s = [n].
Proof.
  intros Hn. unfold chunk_sizes. rewrite Nat.div_small, Nat.mod_small by lia.
  destruct (Nat.eqb_spec n 0); [lia|done].
Qed.

Lemma chunk_sizes_step (n s : nat) :
  (1 ≤ s ≤ n)%nat → chunk_sizes n s = s :: chunk_sizes (n - s) s.
Proof.
  intros Hn. unfold chunk_sizes.
  assert (Hd : (n / s = S ((n - s) / s))%nat).
  { replace n with ((n - s) + 1 * s)%nat at 1 by lia. rewrite Nat.div_add by lia. lia. }
  assert (Hm : (n mod s = (n - s) mod s)%nat).
  { replace n with ((n - s) + 1 * s)%nat at 1 by lia. by rewrite Nat.Div0.mod_add. }
  by rewrite Hd, Hm.
Qed.

Lemma chunk_loop_sizes (fuel : nat) (students : list Student) (groupSize i : nat) :
  (1 ≤ groupSize)%nat → (length students - i ≤ fuel)%nat →
  map length (chunk_loop fuel students groupSize i)
  = chunk_sizes (length students - i) groupSize.
Proof.
  intros Hs. revert i. induction fuel as [|fuel IH]; intros i Hfuel; cbn [chunk_loop].
  - replace (length students - i)%nat with 0%nat by lia. by rewrite chunk_sizes_0.
  - destruct (Nat.ltb_spec i (length students)) as [Hi|Hi].
    + cbn [map]. rewrite IH by lia. unfold slice.
      rewrite length_take, length_drop.
      replace (i + groupSize - i)%nat with groupSize by lia.
      destruct (Nat.le_gt_cases groupSize (length students - i)) as [Hle|Hgt].
      * rewrite (chunk_sizes_step (length students - i)) by lia. f_equal; [lia|].
        f_equal. lia.
      * replace (length students - (i + groupSize))%nat with 0%nat by lia.
        rewrite chunk_sizes_0, chunk_sizes_small by lia. f_equal. lia.
    + replace (length students - i)%nat with 0%nat by lia. by rewrite chunk_sizes_0.
Qed.

Lemma chunkGroups_partitions (students : list Student) (groupSize : nat) :
  (1 ≤ groupSize)%nat →
  partitions students (chunk_sizes (length students) groupSize)
    (chunkGroups students groupSize).
Proof.
  intros Hs. unfold chunkGroups. split.
  - by rewrite chunk_loop_concat, drop_0 by lia.
  - rewrite chunk_loop_sizes, Nat.sub_0_r by lia. done.
Qed.

(* ------------------------------------------------------------------ *)
(** ** The search loop *)

Lemma search_loop_steps lt_exp forbiddenPairs targetSize attempts w groupCount
    remaining t st tape st' tape' :
  search_loop lt_exp forbiddenPairs targetSize attempts w groupCount remaining t st tape
    = Returned (st', tape') →
  rtc (search_step forbiddenPairs targetSize w) st st'.
Proof.
  revert t st tape. induction remaining as [|rem IH]; intros t st tape Hrun;
    cbn [search_loop] in Hrun.
  - by apply mret_Returned in Hrun as [-> _].
  - cbv zeta in Hrun. inv_run Hrun.
    apply read_Returned in Hrun3 as [Hg1 <-], Hrun4 as [Hg2 <-].
    rename a into gi, a1 into gj, a2 into g1, a3 into g2.
    assert (Hnext : ∀ X tp,
      (if bestScore X =? 0 then mret X
       else search_loop lt_exp forbiddenPairs targetSize attempts w groupCount rem
              (t + 1) X) tp = Returned (st', tape') →
      rtc (search_step forbiddenPairs targetSize w) X st').
    { intros X tp HX. destruct (bestScore X =? 0); [|by eapply IH].
      by apply mret_Returned in HX as [-> _]. }
    destruct ((length g1 =? 0)%nat || (length g2 =? 0)%nat); [by eapply IH|].
    inv_run Hrun. rename a into i, a1 into j, a2 into sa, a3 into sb.
    apply read_Returned in Hrun5 as [Ha <-], Hrun6 as [Hb <-].
    assert (Hcells : cells_hold (curGroups st) gi gj i j sa sb) by (by exists g1, g2).
    fold (swap_cells (curGroups st) gi gj i j sa sb) in *.
    destruct a4 as [|].
    + destruct (Z.ltb_spec
        (totalScore (swap_cells (curGroups st) gi gj i j sa sb) forbiddenPairs targetSize w)
        (bestScore st)) as [Hlt|Hge].
      * rewrite map_id in Hrun. eapply rtc_l; [|by eapply Hnext].
        by apply step_new_best.
      * eapply rtc_l; [|by eapply Hnext]. by apply step_accept.
    + unfold swap_cells in Hrun. rewrite (revert_restores _ gi gj i j g1 g2) in Hrun by done.
      eapply Hnext. by destruct st.
Qed.

Lemma swap_cells_partitions students sizes (L : list Group) gi gj i j a b :
  cells_hold L gi gj i j a b →
  partitions students sizes L → partitions students sizes (swap_cells L gi gj i j a b).
Proof.
  intros (g1 & g2 & Hg1 & Hg2 & Ha & Hb) [Hperm Hsizes]. unfold swap_cells. split.
  - by rewrite (swap_cells_perm L gi gj i j g1 g2 a b).
  - by rewrite !write_cell_lengths.
Qed.

(** One step keeps the students and the group sizes, in the current groups
    and in the best groups. *)
Lemma search_step_partitions forbiddenPairs targetSize w students sizes st st' :
  search_step forbiddenPairs targetSize w st st' →
  partitions students sizes (curGroups st) ∧ partitions students sizes (bestGroups st) →
  partitions students sizes (curGroups st') ∧ partitions students sizes (bestGroups st').
Proof.
  intros Hstep [Hcur Hbest].
  destruct Hstep as [st gi gj i j a b Hcells _|st gi gj i j a b Hcells _]; cbn.
  - split; by apply swap_cells_partitions.
  - split; [by apply swap_cells_partitions|done].
Qed.

(** One step leaves the recorded best as it is or replaces it by a
    partition of a strictly lower score. *)
Lemma search_step_best forbiddenPairs targetSize w st st' :
  search_step forbiddenPairs targetSize w st st' →
  (bestGroups st' = bestGroups st ∧ bestScore st' = bestScore st)
  ∨ bestScore st' < bestScore st.
Proof. intros [st0 gi gj i j a b _ Hlt|st0 gi gj i j a b _ _]; cbn; [by right|by left]. Qed.

Lemma search_steps_partitions forbiddenPairs targetSize w students sizes st st' :
  rtc (search_step forbiddenPairs targetSize w) st st' →
  partitions students sizes (curGroups st) ∧ partitions students sizes (bestGroups st) →
  partitions students sizes (curGroups st') ∧ partitions students sizes (bestGroups st').
Proof.
  induction 1 as [|st st1 st2 Hstep _ IH]; [done|].
  intros Hinv. by eapply IH, search_step_partitions.
Qed.

Lemma search_steps_best forbiddenPairs targetSize w st st' :
  rtc (search_step forbiddenPairs targetSize w) st st' →
  (bestGroups st' = bestGroups st ∧ bestScore st' = bestScore st)
  ∨ bestScore st' < bestScore st.
Proof.
  induction 1 as [|st st1 st2 Hstep _ IH]; [by left|].
  apply search_step_best in Hstep. destruct IH as [[E1 E2]|?], Hstep as [[E3 E4]|?];
    [left; split; congruence|right; lia..].
Qed.

(* ------------------------------------------------------------------ *)
(** ** generateGroupsOptimized *)

(** A call on a non-empty list with a group size of at least 2 that returns
    has shuffled the students, chunked them and taken search steps. *)
Lemma generateGroupsOptimized_Returned lt_exp (students : list Student) groupSize
    forbiddenPairs attempts w tape r tape' :
  2 ≤ groupSize → students ≠ [] →
  generateGroupsOptimized lt_exp students groupSize forbiddenPairs attempts w tape
    = Returned (r, tape') →
  ∃ shuffled tape1 st,
    shuffle students tape = Returned (shuffled, tape1)
    ∧ rtc (search_step forbiddenPairs groupSize w)
        {| bestGroups := chunkGroups shuffled (Z.to_nat groupSize);
           bestScore := totalScore (chunkGroups shuffled (Z.to_nat groupSize))
                          forbiddenPairs groupSize w;
           curGroups := chunkGroups shuffled (Z.to_nat groupSize);
           curScore := totalScore (chunkGroups shuffled (Z.to_nat groupSize))
                         forbiddenPairs groupSize w |} st
    ∧ r = {| groups := bestGroups st; score := bestScore st |}.
Proof.
  intros Hsize Hne Hrun. unfold generateGroupsOptimized in Hrun.
  destruct (Z.ltb_spec groupSize 2) as [|_]; [lia|].
  destruct students as [|s0 students]; [done|]. cbn [length Nat.eqb] in Hrun.
  cbv zeta in Hrun. inv_run Hrun. rename a into shuffled, a0 into st.
  apply mret_Returned in Hrun as [<- _]. rewrite map_id in Hrun1.
  apply search_loop_steps in Hrun1. by exists shuffled, tape0, st.
Qed.

Lemma generateGroupsOptimized_partitions lt_exp (students : list Student) groupSize
    forbiddenPairs attempts w tape r tape' :
  2 ≤ groupSize → students ≠ [] →
  generateGroupsOptimized lt_exp students groupSize forbiddenPairs attempts w tape
    = Returned (r, tape') →
  partitions students (chunk_sizes (length students) (Z.to_nat groupSize)) (groups r).
Proof.
  intros Hsize Hne Hrun.
  apply generateGroupsOptimized_Returned in Hrun
    as (shuffled & tape1 & st & Hsh%shuffle_perm & Hsteps & ->); [|done..].
  assert (Hinit : partitions students (chunk_sizes (length students) (Z.to_nat groupSize))
    (chunkGroups shuffled (Z.to_nat groupSize))).
  { destruct (chunkGroups_partitions shuffled (Z.to_nat groupSize)) as [Hc Hs]; [lia|].
    split; [by rewrite Hc|]. by rewrite Hs, (Permutation_length Hsh). }
  by eapply search_steps_partitions in Hsteps as [_ Hbest].
Qed.

(** C1. For every list of students, group size of at least 2, budget,
    forbidden set, weights, acceptance test and tape of draws, the partition
    that [generateGroupsOptimized] returns holds the students of the input,
    none dropped and none twice: the ids across its groups are the ids of the
    input up to order. *)
Theorem generateGroupsOptimized_keeps_students lt_exp (students : list Student)
    groupSize forbiddenPairs attempts w tape r tape' :
  2 ≤ groupSize →
  generateGroupsOptimized lt_exp students groupSize forbiddenPairs attempts w tape
    = Returned (r, tape') →
  concat (groups r) ≡ₚ students
  ∧ map id (concat (groups r)) ≡ₚ map id students.
Proof.
  intros Hsize Hrun.
  assert (Hperm : concat (groups r) ≡ₚ students).
  { destruct students as [|s0 students].
    - unfold generateGroupsOptimized in Hrun.
      destruct (Z.ltb_spec groupSize 2) as [|_]; [lia|].
      by apply mret_Returned in Hrun as [<- _].
    - by eapply generateGroupsOptimized_partitions in Hrun as [Hperm _]. }
  split; [done|]. by apply Permutation_map.
Qed.

(* ------------------------------------------------------------------ *)
(** ** The sizes of the groups *)

Lemma chunk_sizes_length (n s : nat) :
  (1 ≤ s)%nat → length (chunk_sizes n s) = ((n + s - 1) / s)%nat.
Proof.
  intros Hs. unfold chunk_sizes. rewrite length_app, length_replicate.
  pose proof (Nat.div_mod_eq n s) as Hn.
  pose proof (Nat.mod_upper_bound n s ltac:(lia)) as Hr.
  destruct (Nat.eqb_spec (n mod s) 0) as [H0|H0]; cbn [length].
  - apply (Nat.div_unique _ _ _ (s - 1)); lia.
  - apply (Nat.div_unique _ _ _ (n mod s - 1)); lia.
Qed.

Lemma chunk_sizes_inner (n s k x : nat) :
  chunk_sizes n s !! k = Some x → (S k < length (chunk_sizes n s))%nat → x = s.
Proof.
  unfold chunk_sizes. rewrite length_app, length_replicate. intros Hk Hlen.
  assert (k < n / s)%nat as Hlt by (destruct (n mod s =? 0)%nat; cbn in Hlen; lia).
  rewrite lookup_app_l in Hk by (by rewrite length_replicate).
  by apply lookup_replicate in Hk as [-> _].
Qed.

Lemma chunk_sizes_last (n s x : nat) :
  last (chunk_sizes n s) = Some x →
  x = if (n mod s =? 0)%nat then s else (n mod s)%nat.
Proof.
  unfold chunk_sizes. destruct (n mod s =? 0)%nat.
  - rewrite app_nil_r. intros Hl%last_Some_elem_of. by apply elem_of_replicate_inv in Hl.
  - rewrite last_snoc. by intros [= <-].
Qed.

Lemma chunk_sizes_positive (n s x : nat) :
  (1 ≤ s)%nat → x ∈ chunk_sizes n s → x ≠ 0%nat.
Proof.
  intros Hs. unfold chunk_sizes. rewrite elem_of_app.
  intros [->%elem_of_replicate_inv|Hx]; [lia|].
  destruct (Nat.eqb_spec (n mod s) 0); [by apply elem_of_nil in Hx|].
  apply list_elem_of_singleton in Hx. lia.
Qed.

(** The sizes of the groups in the embedding over the integers: on a
    non-empty list of [n] students and a group size [s] of at least 2, the
    returned partition has [ceil(n / s)] groups; every group but the last has
    [s] members; the last has [n mod s] members when that is not 0 and [s]
    otherwise; no group is empty. *)
Theorem generateGroupsOptimized_group_sizes lt_exp (students : list Student)
    groupSize forbiddenPairs attempts w tape r tape' :
  students ≠ [] → 2 ≤ groupSize →
  generateGroupsOptimized lt_exp students groupSize forbiddenPairs attempts w tape
    = Returned (r, tape') →
  let n := length students in
  let s := Z.to_nat groupSize in
  length (groups r) = ((n + s - 1) / s)%nat
  ∧ (∀ k g, groups r !! k = Some g → (S k < length (groups r))%nat → length g = s)
  ∧ (∀ g, last (groups r) = Some g →
       length g = if (n mod s =? 0)%nat then s else (n mod s)%nat)
  ∧ (∀ g, g ∈ groups r → g ≠ []).
Proof.
  intros Hne Hsize Hrun n s.
  eapply generateGroupsOptimized_partitions in Hrun as [_ Hsizes]; [|done..].
  fold n s in Hsizes.
  assert (Hlen : length (groups r) = length (chunk_sizes n s))
    by (by rewrite <- Hsizes, length_map).
  split; [|split; [|split]].
  - rewrite Hlen. apply chunk_sizes_length. lia.
  - intros k g Hk Hlast. apply (chunk_sizes_inner n s k); [|by rewrite <- Hlen].
    rewrite <- Hsizes. change (map length (groups r)) with (length <$> groups r).
    by rewrite list_lookup_fmap, Hk.
  - intros g Hg. apply chunk_sizes_last. rewrite <- Hsizes.
    change (map length (groups r)) with (length <$> groups r).
    by rewrite fmap_last, Hg.
  - intros g Hg ->. apply (chunk_sizes_positive n s 0); [lia| |done].
    rewrite <- Hsizes. change (map length (groups r)) with (length <$> groups r).
    by apply (list_elem_of_fmap_2 length) in Hg.
Qed.


(** C4. On a non-empty list and a group size below 2 the call throws,
    whatever the budget, the forbidden set, the weights and the tape. *)
Theorem generateGroupsOptimized_small_size_throws lt_exp (students : list Student)
    groupSize forbiddenPairs attempts w tape :
  students ≠ [] → groupSize < 2 →
  generateGroupsOptimized lt_exp students groupSize forbiddenPairs attempts w tape
    = Thrown "groupSize must be >= 2".
Proof.
  intros _ Hsize. unfold generateGroupsOptimized.
  by destruct (Z.ltb_spec groupSize 2) as [_|]; [|lia].
Qed.

(** C5, as amended. On the empty list and a group size of at least 2 the
    call returns no group and the score 0, whatever the budget, and takes no
    draw from the tape: the search loop, which draws at its head, is not
    entered. *)
Theorem generateGroupsOptimized_empty lt_exp groupSize forbiddenPairs attempts w tape :
  2 ≤ groupSize →
  generateGroupsOptimized lt_exp [] groupSize forbiddenPairs attempts w tape
    = Returned ({| groups := []; score := 0 |}, tape).
Proof.
  intros Hsize. unfold generateGroupsOptimized.
  by destruct (Z.ltb_spec groupSize 2) as [|_]; [lia|].
Qed.

(* ------------------------------------------------------------------ *)
(** ** chunkGroups at a group size that is any number *)

Lemma ltb_lt (x y : Q) : Fractional.ltb x y = true ↔ (x < y)%Q.
Proof.
  unfold Fractional.ltb. rewrite negb_true_iff. split.
  - intros Hle. destruct (Qlt_le_dec x y) as [|Hyx]; [done|].
    apply Qle_bool_iff in Hyx. congruence.
  - intros Hlt. destruct (Qle_bool y x) eqn:Hle; [|done].
    apply Qle_bool_iff in Hle. by apply Qle_not_lt in Hle.
Qed.

Lemma ltb_inject (a b : Z) : Fractional.ltb (inject_Z a) (inject_Z b) = (a <? b).
Proof.
  destruct (Z.ltb_spec a b) as [Hlt|Hge].
  - apply ltb_lt. by rewrite <- Zlt_Qlt.
  - destruct (Fractional.ltb (inject_Z a) (inject_Z b)) eqn:E; [|done].
    apply ltb_lt in E. rewrite <- Zlt_Qlt in E. lia.
Qed.

Lemma to_index_inject (n : nat) : Fractional.to_index (inject_Z (Z.of_nat n)) = n.
Proof. unfold Fractional.to_index. by rewrite Qfloor_Z, Nat2Z.id. Qed.

Lemma Qfloor_nonneg (x : Q) : (0 <= x)%Q → 0 ≤ Qfloor x.
Proof. intros Hx. by apply Qfloor_resp_le in Hx. Qed.

(** A step of at least 1 moves the truncated counter on. *)
Lemma to_index_step (i g : Q) :
  (0 <= i)%Q → (1 <= g)%Q →
  (Fractional.to_index i + 1 ≤ Fractional.to_index (i + g))%nat.
Proof.
  intros Hi Hg. unfold Fractional.to_index.
  pose proof (Qfloor_nonneg i Hi) as H0.
  assert (Qfloor i + 1 ≤ Qfloor (i + g)) as Hstep.
  { rewrite <- (Qfloor_Z (Qfloor i + 1)). apply Qfloor_resp_le.
    rewrite inject_Z_plus. apply Qplus_le_compat; [apply Qfloor_le|done]. }
  lia.
Qed.



Lemma to_index_past (i : Q) (n : nat) :
  (inject_Z (Z.of_nat n) <= i)%Q → (n ≤ Fractional.to_index i)%nat.
Proof.
  intros Hn. unfold Fractional.to_index.
  apply Qfloor_resp_le in Hn. rewrite Qfloor_Z in Hn. lia.
Qed.

(** Two fractions of one value are one group size. *)
Lemma fractional_chunk_loop_proper (fuel : nat) (students : list Student) (g g' i i' : Q) :
  (g == g')%Q → (i == i')%Q →
  Fractional.chunk_loop fuel students g i = Fractional.chunk_loop fuel students g' i'.
Proof.
  intros Hg. revert i i'. induction fuel as [|fuel IH]; intros i i' Hi; [done|].
  cbn [Fractional.chunk_loop].
  assert (Hnext : (i + g == i' + g')%Q) by (by rewrite Hg, Hi).
  unfold Fractional.ltb, Fractional.to_index.
  rewrite (Qleb_comp _ _ (reflexivity _) i i' Hi).
  rewrite (Qfloor_comp i i' Hi), (Qfloor_comp _ _ Hnext).
  by rewrite (IH _ _ Hnext).
Qed.

Lemma fractional_chunk_loop_integer (fuel : nat) (students : list Student) (s i : nat) :
  Fractional.chunk_loop fuel students (inject_Z (Z.of_nat s)) (inject_Z (Z.of_nat i))
  = chunk_loop fuel students s i.
Proof.
  revert i. induction fuel as [|fuel IH]; intros i; [done|].
  cbn [Fractional.chunk_loop chunk_loop].
  rewrite ltb_inject, <- inject_Z_plus, <- Nat2Z.inj_add, !to_index_inject, IH.
  by destruct (Nat.ltb_spec i (length students)), (Z.ltb_spec (Z.of_nat i) (Z.of_nat (length students))); try lia.
Qed.

(** At an integer group size the groups are those of the embedding over the
    integers. *)
Lemma fractional_chunkGroups_integer (students : list Student) (groupSize : Q) (s : nat) :
  integer_size groupSize s →
  Fractional.chunkGroups students groupSize = chunkGroups students s.
Proof.
  intros Hs. unfold Fractional.chunkGroups, chunkGroups.
  rewrite (fractional_chunk_loop_proper _ _ groupSize (inject_Z (Z.of_nat s)) 0
             (inject_Z (Z.of_nat 0))) by done.
  apply fractional_chunk_loop_integer.
Qed.

Lemma fractional_chunk_loop_concat (fuel : nat) (students : list Student) (g i : Q) :
  (1 <= g)%Q → (0 <= i)%Q → (length students - Fractional.to_index i ≤ fuel)%nat →
  concat (Fractional.chunk_loop fuel students g i) = drop (Fractional.to_index i) students.
Proof.
  intros Hg. revert i. induction fuel as [|fuel IH]; intros i Hi Hfuel;
    cbn [Fractional.chunk_loop].
  - rewrite drop_ge by lia. done.
  - pose proof (to_index_step i g Hi Hg) as Hstep.
    assert (0 <= i + g)%Q as Hi'.
    { apply Qle_trans with (0 + 1)%Q; [done|]. by apply Qplus_le_compat. }
    destruct (Fractional.ltb i (inject_Z (Z.of_nat (length students)))) eqn:Hlt.
    + cbn [concat]. rewrite IH by (done || lia). unfold slice.
      replace (Fractional.to_index (i + g))
        with (Fractional.to_index i + (Fractional.to_index (i + g) - Fractional.to_index i))%nat
        at 2 by lia.
      rewrite <- drop_drop. apply take_drop.
    + rewrite drop_ge; [done|]. apply to_index_past.
      destruct (Qlt_le_dec i (inject_Z (Z.of_nat (length students)))) as [Hc|Hc]; [|done].
      apply ltb_lt in Hc. congruence.
Qed.


(* ------------------------------------------------------------------ *)
(** ** The optimizer at a group size that is any number *)

Lemma fractional_search_loop_partitions lt_exp forbiddenPairs targetSize attempts w
    groupCount students sizes remaining t st tape st' tape' :
  Fractional.search_loop lt_exp forbiddenPairs targetSize attempts w groupCount
    remaining t st tape = Returned (st', tape') →
  partitions students sizes (Fractional.curGroups st)
  ∧ partitions students sizes (Fractional.bestGroups st) →
  partitions students sizes (Fractional.curGroups st')
  ∧ partitions students sizes (Fractional.bestGroups st').
Proof.
  revert t st tape. induction remaining as [|rem IH]; intros t st tape Hrun Hinv;
    cbn [Fractional.search_loop] in Hrun.
  - by apply mret_Returned in Hrun as [-> _].
  - cbv zeta in Hrun. inv_run Hrun.
    apply read_Returned in Hrun3 as [Hg1 <-], Hrun4 as [Hg2 <-].
    rename a into gi, a1 into gj, a2 into g1, a3 into g2.
    assert (Hnext : ∀ X tp,
      (if Qeq_bool (Fractional.bestScore X) 0 then mret X
       else Fractional.search_loop lt_exp forbiddenPairs targetSize attempts w
              groupCount rem (t + 1) X) tp = Returned (st', tape') →
      partitions students sizes (Fractional.curGroups X)
      ∧ partitions students sizes (Fractional.bestGroups X) →
      partitions students sizes (Fractional.curGroups st')
      ∧ partitions students sizes (Fractional.bestGroups st')).
    { intros X tp HX HinvX. destruct (Qeq_bool (Fractional.bestScore X) 0); [|by eapply IH].
      by apply mret_Returned in HX as [-> _]. }
    destruct ((length g1 =? 0)%nat || (length g2 =? 0)%nat); [by eapply IH|].
    inv_run Hrun. rename a into i, a1 into j, a2 into sa, a3 into sb.
    apply read_Returned in Hrun5 as [Ha <-], Hrun6 as [Hb <-].
    assert (Hcells : cells_hold (Fractional.curGroups st) gi gj i j sa sb)
      by (by exists g1, g2).
    destruct Hinv as [Hcur Hbest].
    pose proof (swap_cells_partitions _ _ _ gi gj i j sa sb Hcells Hcur) as Hswap.
    fold (swap_cells (Fractional.curGroups st) gi gj i j sa sb) in *.
    destruct a4 as [|].
    + destruct (Fractional.ltb _ (Fractional.bestScore st)).
      * rewrite map_id in Hrun. by eapply Hnext.
      * by eapply Hnext.
    + unfold swap_cells in Hrun. rewrite (revert_restores _ gi gj i j g1 g2) in Hrun by done.
      by eapply Hnext.
Qed.

(** A call on a non-empty list with a group size of at least 2 returns the
    students in groups of the sizes of the first chunking. *)
Lemma fractional_generateGroupsOptimized_partitions lt_exp (students : list Student)
    (groupSize : Q) forbiddenPairs attempts w tape r tape' :
  (2 <= groupSize)%Q → students ≠ [] →
  Fractional.generateGroupsOptimized lt_exp students groupSize forbiddenPairs attempts w
    tape = Returned (r, tape') →
  ∃ shuffled,
    shuffled ≡ₚ students
    ∧ partitions students (map length (Fractional.chunkGroups shuffled groupSize))
        (Fractional.groups r).
Proof.
  intros Hsize Hne Hrun. unfold Fractional.generateGroupsOptimized in Hrun.
  destruct (Fractional.ltb groupSize 2) eqn:Hlt.
  { apply ltb_lt in Hlt. by apply Qle_not_lt in Hsize. }
  destruct students as [|s0 students]; [done|]. cbn [length Nat.eqb] in Hrun.
  cbv zeta in Hrun. inv_run Hrun. rename a into shuffled, a0 into st.
  apply mret_Returned in Hrun as [<- _]. rewrite map_id in Hrun1.
  apply shuffle_perm in Hrun0. exists shuffled. split; [done|].
  assert (Hfirst : partitions (s0 :: students)
    (map length (Fractional.chunkGroups shuffled groupSize))
    (Fractional.chunkGroups shuffled groupSize)).
  { split; [|done]. unfold Fractional.chunkGroups.
    rewrite fractional_chunk_loop_concat.
    - by rewrite drop_0.
    - by apply Qle_trans with 2%Q.
    - done.
    - change (Fractional.to_index 0) with 0%nat. lia. }
  by eapply fractional_search_loop_partitions in Hrun1 as [_ Hbest].
Qed.

(** At an integer group size [ceil(n / s)] and [n mod s] are the quotient
    and the rest of the division of integers. *)
Lemma ceil_div_integer (n s : nat) (groupSize : Q) :
  integer_size groupSize s → (1 ≤ s)%nat →
  ceil_div n groupSize = Z.of_nat ((n + s - 1) / s).
Proof.
  intros Hs Hpos. unfold ceil_div, integer_size in *.
  rewrite (Qceiling_comp _ (inject_Z (Z.of_nat n) / inject_Z (Z.of_nat s))%Q)
    by (by rewrite Hs).
  unfold Qceiling.
  rewrite (Qfloor_comp _ (inject_Z (- Z.of_nat n) / inject_Z (Z.of_nat s))%Q)
    by (rewrite inject_Z_opp; unfold Qdiv; ring).
  rewrite <- Zdiv_Qdiv, Nat2Z.inj_div, Nat2Z.inj_sub, Nat2Z.inj_add by lia.
  pose proof (Z.div_mod (- Z.of_nat n) (Z.of_nat s) ltac:(lia)) as Hdiv.
  pose proof (Z.mod_pos_bound (- Z.of_nat n) (Z.of_nat s) ltac:(lia)) as Hmod.
  apply (Z.div_unique _ _ _ (Z.of_nat s - 1 - (- Z.of_nat n) mod Z.of_nat s)); lia.
Qed.

Lemma rest_mod_integer (n s : nat) (groupSize : Q) :
  integer_size groupSize s → (1 ≤ s)%nat →
  (rest_mod n groupSize == inject_Z (Z.of_nat (n mod s)))%Q.
Proof.
  intros Hs Hpos. unfold rest_mod, integer_size in *.
  rewrite (Qfloor_comp _ (inject_Z (Z.of_nat n) / inject_Z (Z.of_nat s))%Q)
    by (by rewrite Hs).
  rewrite <- Zdiv_Qdiv, Hs. unfold Qminus.
  rewrite <- inject_Z_mult, <- inject_Z_opp, <- inject_Z_plus.
  rewrite Nat2Z.inj_mod, Z.mod_eq by lia. done.
Qed.

(** A partition of [n] students in groups of the sizes of [chunk_sizes] has
    the sizes that the claim asks for. *)
Lemma size_profile_integer (n s : nat) (groupSize : Q) (partition : list Group) :
  integer_size groupSize s → (1 ≤ s)%nat →
  map length partition = chunk_sizes n s →
  size_profile n groupSize partition.
Proof.
  intros Hs Hpos Hsizes.
  assert (Hlen : length partition = length (chunk_sizes n s))
    by (by rewrite <- Hsizes, length_map).
  split; [|split; [|split]].
  - by rewrite (ceil_div_integer n s), Hlen, chunk_sizes_length.
  - intros k g Hk Hlast. unfold has_size.
    rewrite (chunk_sizes_inner n s k (length g)); [by symmetry| |by rewrite <- Hlen].
    rewrite <- Hsizes. change (map length partition) with (length <$> partition).
    by rewrite list_lookup_fmap, Hk.
  - intros g Hg. unfold has_size.
    rewrite (chunk_sizes_last n s (length g)).
    2:{ rewrite <- Hsizes. change (map length partition) with (length <$> partition).
        by rewrite fmap_last, Hg. }
    pose proof (rest_mod_integer n s groupSize Hs Hpos) as Hrest.
    destruct (Nat.eqb_spec (n mod s) 0) as [H0|H0].
    + rewrite H0 in Hrest. change (inject_Z (Z.of_nat 0)) with 0%Q in Hrest.
      apply Qeq_bool_iff in Hrest as ->. by symmetry.
    + destruct (Qeq_bool (rest_mod n groupSize) 0) eqn:Hz; [|by symmetry].
      apply Qeq_bool_iff in Hz. rewrite Hz in Hrest.
      unfold Qeq in Hrest. cbn in Hrest. lia.
  - intros g Hg ->. apply (chunk_sizes_positive n s 0); [lia| |done].
    rewrite <- Hsizes. change (map length partition) with (length <$> partition).
    by apply (list_elem_of_fmap_2 length) in Hg.
Qed.

(** C10, as amended. On a non-empty list of [n] students and a group size
    that is an integer [s] of at least 2, the returned partition has
    [ceil(n / s)] groups; every group but the last has [s] members; the last
    has [n mod s] members when that is not 0 and [s] otherwise; no group is
    empty. *)
Theorem generateGroupsOptimized_integer_group_sizes lt_exp (students : list Student)
    (groupSize : Q) (s : nat) forbiddenPairs attempts w tape r tape' :
  students ≠ [] → integer_size groupSize s → (2 ≤ s)%nat →
  Fractional.generateGroupsOptimized lt_exp students groupSize forbiddenPairs attempts w
    tape = Returned (r, tape') →
  size_profile (length students) groupSize (Fractional.groups r).
Proof.
  intros Hne Hs Hsize Hrun.
  apply fractional_generateGroupsOptimized_partitions in Hrun
    as (shuffled & Hsh & _ & Hsizes); [| |done].
  - apply (size_profile_integer _ s); [done|lia|].
    rewrite Hsizes, (fractional_chunkGroups_integer _ _ s Hs).
    destruct (chunkGroups_partitions shuffled s) as [_ ->]; [lia|].
    by rewrite (Permutation_length Hsh).
  - unfold integer_size in Hs. rewrite Hs.
    change 2%Q with (inject_Z 2). rewrite <- Zle_Qle. lia.
Qed.

(* ------------------------------------------------------------------ *)
(** ** At an integer group size the two embeddings agree *)

Lemma foldl_inject_Z {B : Type} (f : Z → B → Z) (f' : Q → B → Q) (l : list B) (a : Z) :
  (∀ a x, f' (inject_Z a) x = inject_Z (f a x)) →
  foldl f' (inject_Z a) l = inject_Z (foldl f a l).
Proof.
  intros Hf. revert a. induction l as [|x l IH]; intros a; [done|].
  cbn [foldl]. by rewrite Hf, IH.
Qed.

Lemma Qabs_minus_inject_Z (a b : Z) :
  Qabs (inject_Z a - inject_Z b) = inject_Z (Z.abs (a - b)).
Proof.
  unfold Qminus. rewrite <- inject_Z_opp, <- inject_Z_plus. done.
Qed.

Lemma fractional_groupScore_integer (group : Group) (forbiddenPairs : gset string)
    (targetSize : Z) (w : Weights) :
  Fractional.groupScore group forbiddenPairs (inject_Z targetSize) w
  = inject_Z (groupScore group forbiddenPairs targetSize w).
Proof.
  unfold Fractional.groupScore, groupScore. cbv zeta.
  set (pairsQ := for_range 0 (length group) _ 0%Q).
  set (pairsZ := for_range 0 (length group) _ 0).
  assert (pairsQ = inject_Z pairsZ) as ->.
  { subst pairsQ pairsZ. unfold for_range at 1 3. change 0%Q with (inject_Z 0).
    apply foldl_inject_Z. intros a i. unfold for_range.
    apply foldl_inject_Z. intros a' j.
    destruct (group !! i), (group !! j); try done.
    case_decide; [by rewrite inject_Z_plus|done]. }
  rewrite Qabs_minus_inject_Z, <- inject_Z_mult, <- inject_Z_plus.
  destruct (2 <=? _); destruct (2 <=? _); destruct (2 <=? _);
    by rewrite <- ?inject_Z_plus.
Qed.

Lemma fractional_totalScore_integer (partition : list Group) (forbiddenPairs : gset string)
    (targetSize : Z) (w : Weights) :
  Fractional.totalScore partition forbiddenPairs (inject_Z targetSize) w
  = inject_Z (totalScore partition forbiddenPairs targetSize w).
Proof.
  unfold Fractional.totalScore, totalScore. change 0%Q with (inject_Z 0).
  apply foldl_inject_Z. intros a g.
  by rewrite fractional_groupScore_integer, inject_Z_plus.
Qed.

Lemma Qle_bool_inject_Z (a b : Z) : Qle_bool (inject_Z a) (inject_Z b) = (a <=? b).
Proof. unfold Qle_bool. cbn. by rewrite !Z.mul_1_r. Qed.

Lemma Qeq_bool_inject_Z (a b : Z) : Qeq_bool (inject_Z a) (inject_Z b) = (a =? b).
Proof. unfold Qeq_bool. cbn. by rewrite !Z.mul_1_r. Qed.

Lemma Qminus_inject_Z (a b : Z) : (inject_Z a - inject_Z b)%Q = inject_Z (a - b).
Proof. unfold Qminus. by rewrite <- inject_Z_opp, <- inject_Z_plus. Qed.

(** Runs the next computation of the two sides of an equation of runs. *)
Ltac run_both :=
  match goal with
  | |- context [match ?c ?tp with Returned _ => _ | Thrown _ => _ | Starved => _ end] =>
      destruct (c tp) as [[? ?]| |]; [|done..]
  end.

Lemma fractional_search_loop_integer lt_exp forbiddenPairs (targetSize : Z) attempts w
    groupCount remaining t st tape :
  Fractional.search_loop lt_exp forbiddenPairs (inject_Z targetSize) attempts w groupCount
    remaining t (fractional_state st) tape
  = map_outcome fractional_state
      (search_loop lt_exp forbiddenPairs targetSize attempts w groupCount remaining t st
         tape).
Proof.
  revert t st tape. induction remaining as [|rem IH]; intros t st tape; [done|].
  assert (Hnext : ∀ X tp,
    (if Qeq_bool (Fractional.bestScore (fractional_state X)) 0 then mret (fractional_state X)
     else Fractional.search_loop lt_exp forbiddenPairs (inject_Z targetSize) attempts w
            groupCount rem (t + 1) (fractional_state X)) tp
    = map_outcome fractional_state
        ((if bestScore X =? 0 then mret X
          else search_loop lt_exp forbiddenPairs targetSize attempts w groupCount rem
                 (t + 1) X) tp)).
  { intros X tp. cbn [fractional_state Fractional.bestScore].
    change 0%Q with (inject_Z 0). rewrite Qeq_bool_inject_Z.
    destruct (bestScore X =? 0); [done|apply IH]. }
  cbn [Fractional.search_loop search_loop]. cbv zeta.
  cbn [fractional_state Fractional.curGroups Fractional.curScore Fractional.bestScore
       Fractional.bestGroups].
  unfold mbind, Rand_bind, bind.
  do 5 run_both.
  destruct ((length _ =? 0)%nat || (length _ =? 0)%nat); [apply IH|].
  do 4 run_both.
  rewrite fractional_totalScore_integer, Qminus_inject_Z.
  change 0%Q with (inject_Z 0) at 1. rewrite Qle_bool_inject_Z.
  run_both.
  rewrite ltb_inject.
  destruct b; [destruct (_ <? bestScore st)|];
    exact (Hnext (Build_search_state _ _ _ _) _).
Qed.

(** The optimizer of [Fractional] at a group size that is an integer does
    what the optimizer over the integers does, on every tape. *)
Lemma fractional_generateGroupsOptimized_integer lt_exp (students : list Student)
    (groupSize : Z) forbiddenPairs attempts w tape :
  Fractional.generateGroupsOptimized lt_exp students (inject_Z groupSize) forbiddenPairs
    attempts w tape
  = map_outcome fractional_result
      (generateGroupsOptimized lt_exp students groupSize forbiddenPairs attempts w tape).
Proof.
  unfold Fractional.generateGroupsOptimized, generateGroupsOptimized.
  change 2%Q with (inject_Z 2). rewrite ltb_inject.
  destruct (Z.ltb_spec groupSize 2) as [|Hsize]; [done|].
  destruct (length students =? 0)%nat; [done|]. cbv zeta.
  unfold mbind, Rand_bind, bind.
  destruct (shuffle students tape) as [[shuffled tape1]| |]; [|done..].
  rewrite (fractional_chunkGroups_integer shuffled _ (Z.to_nat groupSize))
    by (unfold integer_size; by rewrite Z2Nat.id by lia).
  rewrite fractional_totalScore_integer.
  pose proof (fractional_search_loop_integer lt_exp forbiddenPairs groupSize attempts w
    (length (map (λ g, g) (chunkGroups shuffled (Z.to_nat groupSize)))) (Z.to_nat attempts) 0
    {| bestGroups := chunkGroups shuffled (Z.to_nat groupSize);
       bestScore := totalScore (chunkGroups shuffled (Z.to_nat groupSize)) forbiddenPairs
                      groupSize w;
       curGroups := map (λ g, g) (chunkGroups shuffled (Z.to_nat groupSize));
       curScore := totalScore (chunkGroups shuffled (Z.to_nat groupSize)) forbiddenPairs
                     groupSize w |} tape1) as Hloop.
  unfold fractional_state in Hloop.
  cbn [bestGroups bestScore curGroups curScore] in Hloop. rewrite Hloop.
  by destruct (search_loop _ _ _ _ _ _ _ _ _ _) as [[st tape2]| |].
Qed.

(* ------------------------------------------------------------------ *)
(** ** Every call with a valid group size returns on some tape *)

Lemma floor_mul_lt (u : draw) (n : nat) : (0 < n)%nat → (floor_mul u n < n)%nat.
Proof.
  intros Hn. unfold floor_mul. apply Nat.Div0.div_lt_upper_bound. nia.
Qed.

Lemma floor_mul_zero (n : nat) : floor_mul (fraction 0 1) n = 0%nat.
Proof. unfold floor_mul. cbn [fraction num gap]. by rewrite Nat.mul_0_l. Qed.

Lemma floor_mul_half (n : nat) : floor_mul (fraction 1 2) n = (n / 2)%nat.
Proof. unfold floor_mul. cbn [fraction num gap]. by rewrite Nat.mul_1_l. Qed.

(** Two draws that follow each other on an alternating tape pick two
    different groups when there are two groups or more. *)
Lemma alternate_indices_differ (b : bool) (n : nat) :
  (1 < n)%nat →
  floor_mul (if negb b then fraction 1 2 else fraction 0 1) n
  ≠ floor_mul (if b then fraction 1 2 else fraction 0 1) n.
Proof.
  intros Hn. assert (1 ≤ n / 2)%nat by (apply Nat.div_le_lower_bound; lia).
  destruct b; cbn [negb]; rewrite floor_mul_zero, floor_mul_half; lia.
Qed.

Lemma drop_alternate (i k : nat) (b : bool) :
  ∃ b', drop i (alternate k b) = alternate (k - i) b'.
Proof.
  revert k b. induction i as [|i IH]; intros k b.
  - exists b. by rewrite drop_0, Nat.sub_0_r.
  - destruct k as [|k]; [by exists b|]. cbn. apply IH.
Qed.

Lemma bind_run {A B : Type} (c : Rand A) (k : A → Rand B) tape a tape1 :
  c tape = Returned (a, tape1) → (c ≫= k) tape = k a tape1.
Proof. intros Hc. unfold mbind, Rand_bind, bind. by rewrite Hc. Qed.

Lemma read_run {A : Type} (arr : list A) i v tape :
  arr !! i = Some v → read arr i tape = Returned (v, tape).
Proof. intros Hv. unfold read. by rewrite Hv. Qed.

Lemma randomIndex_run (n : nat) (u : draw) tape :
  randomIndex n (u :: tape) = Returned (floor_mul u n, tape).
Proof. reflexivity. Qed.

Lemma redraw_differ groupCount gi gj tape :
  gj ≠ gi → redraw groupCount gi gj tape = Returned (gj, tape).
Proof.
  intros Hne%Nat.eqb_neq. destruct tape; cbn; by rewrite Hne.
Qed.

Lemma shuffle_loop_runs {T : Type} (i : nat) (a : list T) tape :
  (i < length a)%nat → (i ≤ length tape)%nat →
  ∃ a', shuffle_loop i a tape = Returned (a', drop i tape).
Proof.
  revert a tape. induction i as [|i IH]; intros a tape Hi Htape; cbn [shuffle_loop].
  - by exists a.
  - destruct tape as [|u tape]; [cbn in Htape; lia|].
    rewrite (bind_run _ _ _ u tape) by done. cbv zeta.
    pose proof (floor_mul_lt u (S i + 1) ltac:(lia)) as Hj.
    destruct (lookup_lt_is_Some_2 a (floor_mul u (S i + 1))) as [aj Haj]; [lia|].
    destruct (lookup_lt_is_Some_2 a (S i)) as [ai Hai]; [lia|].
    rewrite (bind_run _ _ _ aj tape) by (by apply read_run).
    rewrite (bind_run _ _ _ ai tape) by (by apply read_run).
    apply IH; [rewrite !length_insert; lia|cbn in Htape; lia].
Qed.

Lemma search_loop_runs lt_exp forbiddenPairs targetSize attempts w
    (sizes : list nat) remaining t st k b :
  map length (curGroups st) = sizes → sizes ≠ [] → (∀ x, x ∈ sizes → x ≠ 0%nat) →
  (5 * remaining ≤ k)%nat →
  returns (search_loop lt_exp forbiddenPairs targetSize attempts w (length sizes)
             remaining t st (alternate k b)).
Proof.
  intros Hsizes Hne Hpos. revert t st k b Hsizes.
  induction remaining as [|rem IH]; intros t st k b Hsizes Hk; cbn [search_loop]; [done|].
  do 5 (destruct k as [|k]; [lia|]). cbn [alternate]. rewrite !negb_involutive.
  set (x := if b then fraction 1 2 else fraction 0 1).
  set (y := if negb b then fraction 1 2 else fraction 0 1).
  assert (Hcount : (0 < length sizes)%nat) by (destruct sizes; [done|cbn; lia]).
  assert (Hlen : length (curGroups st) = length sizes) by (by rewrite <- Hsizes, length_map).
  assert (Hrow : ∀ g, (g < length sizes)%nat →
    ∃ row, curGroups st !! g = Some row ∧ (0 < length row)%nat).
  { intros g Hg. destruct (lookup_lt_is_Some_2 (curGroups st) g) as [row Hrow]; [lia|].
    exists row. split; [done|].
    assert (length row ∈ sizes).
    { rewrite <- Hsizes. change (map length (curGroups st)) with (length <$> curGroups st).
      apply list_elem_of_fmap_2. by eapply list_elem_of_lookup_2. }
    specialize (Hpos (length row) H). lia. }
  cbv zeta.
  rewrite (bind_run _ _ _ (floor_mul x (length sizes)) (y :: x :: y :: x :: alternate k (negb b)))
    by apply randomIndex_run.
  rewrite (bind_run _ _ _ (floor_mul y (length sizes)) (x :: y :: x :: alternate k (negb b)))
    by apply randomIndex_run.
  set (gi := floor_mul x (length sizes)). set (gj := floor_mul y (length sizes)).
  rewrite (bind_run _ _ _ gj (x :: y :: x :: alternate k (negb b))).
  2:{ destruct (Nat.ltb_spec 1 (length sizes)); [|done].
      apply redraw_differ. by apply alternate_indices_differ. }
  destruct (Hrow gi) as (g1 & Hg1 & Hl1); [by apply floor_mul_lt|].
  destruct (Hrow gj) as (g2 & Hg2 & Hl2); [by apply floor_mul_lt|].
  rewrite (bind_run _ _ _ g1 (x :: y :: x :: alternate k (negb b))) by (by apply read_run).
  rewrite (bind_run _ _ _ g2 (x :: y :: x :: alternate k (negb b))) by (by apply read_run).
  destruct (Nat.eqb_spec (length g1) 0) as [|_]; [lia|].
  destruct (Nat.eqb_spec (length g2) 0) as [|_]; [lia|]. cbn [orb].
  rewrite (bind_run _ _ _ (floor_mul x (length g1)) (y :: x :: alternate k (negb b)))
    by apply randomIndex_run.
  rewrite (bind_run _ _ _ (floor_mul y (length g2)) (x :: alternate k (negb b)))
    by apply randomIndex_run.
  destruct (lookup_lt_is_Some_2 g1 (floor_mul x (length g1))) as [sa Ha];
    [by apply floor_mul_lt|].
  destruct (lookup_lt_is_Some_2 g2 (floor_mul y (length g2))) as [sb Hb];
    [by apply floor_mul_lt|].
  rewrite (bind_run _ _ _ sa (x :: alternate k (negb b))) by (by apply read_run).
  rewrite (bind_run _ _ _ sb (x :: alternate k (negb b))) by (by apply read_run).
  set (swapped := write_cell (write_cell (curGroups st) gi (floor_mul x (length g1)) sb)
                    gj (floor_mul y (length g2)) sa).
  assert (Hnext : ∀ X k' b', map length (curGroups X) = sizes → (5 * rem ≤ k')%nat →
    returns ((if bestScore X =? 0 then mret X
              else search_loop lt_exp forbiddenPairs targetSize attempts w (length sizes)
                     rem (t + 1) X) (alternate k' b'))).
  { intros X k' b' HX Hk'. destruct (bestScore X =? 0); [done|]. by apply IH. }
  assert (Hswapped : map length swapped = sizes)
    by (unfold swapped; by rewrite !write_cell_lengths).
  assert (Hreverted : map length
    (write_cell (write_cell swapped gi (floor_mul x (length g1)) sa)
       gj (floor_mul y (length g2)) sb) = sizes)
    by (by rewrite !write_cell_lengths).
  destruct (totalScore swapped forbiddenPairs targetSize w - curScore st <=? 0).
  - rewrite (bind_run _ _ _ true (x :: alternate k (negb b))) by done.
    destruct (totalScore swapped forbiddenPairs targetSize w <? bestScore st);
      apply (Hnext _ (S k) b); cbn [curGroups]; first [done|lia].
  - erewrite (bind_run _ _ _ _ (alternate k (negb b))) by done.
    destruct (lt_exp x _);
      [destruct (totalScore swapped forbiddenPairs targetSize w <? bestScore st)|];
      apply (Hnext _ k (negb b)); cbn [curGroups]; first [done|lia].
Qed.

Lemma length_alternate (k : nat) (b : bool) : length (alternate k b) = k.
Proof. revert b. induction k as [|k IH]; intros b; cbn; [done|]. by rewrite IH. Qed.

Lemma returns_bind {A B : Type} (c : Rand A) (k : A → Rand B) tape :
  returns (c tape) → (∀ a tape1, c tape = Returned (a, tape1) → returns (k a tape1)) →
  returns ((c ≫= k) tape).
Proof.
  unfold mbind, Rand_bind, bind. destruct (c tape) as [[a tape1]| |]; [|done..].
  intros _ Hk. by apply Hk.
Qed.

Lemma chunk_sizes_nonempty (n s : nat) : (1 ≤ s)%nat → (1 ≤ n)%nat → chunk_sizes n s ≠ [].
Proof.
  intros Hs Hn Hnil. apply (f_equal length) in Hnil.
  rewrite chunk_sizes_length in Hnil by done. cbn in Hnil.
  assert (1 ≤ (n + s - 1) / s)%nat by (apply Nat.div_le_lower_bound; lia). lia.
Qed.

(** For every input with a group size of at least 2 there is a tape on
    which [generateGroupsOptimized] returns: what the theorems on the returned
    partition say is said of a value that exists. *)
Lemma generateGroupsOptimized_returns lt_exp (students : list Student) groupSize
    forbiddenPairs attempts w :
  2 ≤ groupSize →
  ∃ tape r tape',
    generateGroupsOptimized lt_exp students groupSize forbiddenPairs attempts w tape
    = Returned (r, tape').
Proof.
  intros Hsize.
  assert (Hret : ∃ tape, returns
    (generateGroupsOptimized lt_exp students groupSize forbiddenPairs attempts w tape)).
  { unfold generateGroupsOptimized. destruct (Z.ltb_spec groupSize 2) as [|_]; [lia|].
    destruct students as [|s0 students]; [by exists []|]. cbn [length Nat.eqb].
    set (roster0 := s0 :: students).
    set (k := (length roster0 - 1 + 5 * Z.to_nat attempts)%nat).
    exists (alternate k false). cbv zeta.
    destruct (shuffle_loop_runs (length roster0 - 1) roster0 (alternate k false))
      as [shuffled Hsh].
    { unfold roster0. cbn [length]. lia. }
    { rewrite length_alternate. unfold k. lia. }
    destruct (drop_alternate (length roster0 - 1) k false) as [b' Hdrop].
    rewrite Hdrop in Hsh.
    rewrite (bind_run _ _ _ shuffled (alternate (k - (length roster0 - 1)) b')) by exact Hsh.
    assert (Hperm : shuffled ≡ₚ roster0) by (by eapply shuffle_loop_perm).
    destruct (chunkGroups_partitions shuffled (Z.to_nat groupSize)) as [_ Hsizes]; [lia|].
    rewrite map_id.
    replace (length (chunkGroups shuffled (Z.to_nat groupSize)))
      with (length (chunk_sizes (length shuffled) (Z.to_nat groupSize)))
      by (by rewrite <- Hsizes, length_map).
    apply returns_bind; [|done].
    apply search_loop_runs; [done| | |unfold k; lia].
    - apply chunk_sizes_nonempty; [lia|].
      rewrite (Permutation_length Hperm). unfold roster0. cbn [length]. lia.
    - intros x. apply chunk_sizes_positive. lia. }
  destruct Hret as [tape Hret]. exists tape.
  destruct (generateGroupsOptimized _ _ _ _ _ _ tape) as [[r tape']| |]; [|done..].
  by exists r, tape'.
Qed.

(* ------------------------------------------------------------------ *)
(** ** No read is out of range *)

Lemma bind_Thrown {A B : Type} (c : Rand A) (k : A → Rand B) tape msg :
  (c ≫= k) tape = Thrown msg →
  c tape = Thrown msg ∨ ∃ a tape1, c tape = Returned (a, tape1) ∧ k a tape1 = Thrown msg.
Proof.
  unfold mbind, Rand_bind, bind. destruct (c tape) as [[a tape1]|msg'|]; [| |done].
  - intros Hk. right. by exists a, tape1.
  - intros [= ->]. by left.
Qed.

Lemma randomIndex_no_throw (n : nat) tape msg : randomIndex n tape ≠ Thrown msg.
Proof. by destruct tape. Qed.

Lemma randomIndex_bound (n k : nat) tape tape' :
  (0 < n)%nat → randomIndex n tape = Returned (k, tape') → (k < n)%nat.
Proof.
  intros Hn (u & _ & ->)%randomIndex_Returned. by apply floor_mul_lt.
Qed.

Lemma redraw_no_throw groupCount gi gj tape msg : redraw groupCount gi gj tape ≠ Thrown msg.
Proof.
  revert gj. induction tape as [|u tape IH]; intros gj; cbn; destruct (gj =? gi)%nat;
    first [done|apply IH].
Qed.

Lemma redraw_bound groupCount gi gj gj' tape tape' :
  (0 < groupCount)%nat → (gj < groupCount)%nat →
  redraw groupCount gi gj tape = Returned (gj', tape') → (gj' < groupCount)%nat.
Proof.
  intros Hn. revert gj. induction tape as [|u tape IH]; intros gj Hgj; cbn;
    destruct (gj =? gi)%nat; try done; try (by intros [= <- _]).
  apply IH. by apply floor_mul_lt.
Qed.

Lemma read_Thrown {A : Type} (arr : list A) i tape msg :
  read arr i tape = Thrown msg → (length arr ≤ i)%nat.
Proof.
  unfold read. destruct (arr !! i) eqn:Hi; [done|]. intros _. by apply lookup_ge_None.
Qed.

Lemma search_loop_no_throw lt_exp forbiddenPairs targetSize attempts w
    (sizes : list nat) remaining t st tape msg :
  map length (curGroups st) = sizes → sizes ≠ [] →
  search_loop lt_exp forbiddenPairs targetSize attempts w (length sizes)
    remaining t st tape ≠ Thrown msg.
Proof.
  intros Hsizes Hne. revert t st tape Hsizes.
  induction remaining as [|rem IH]; intros t st tape Hsizes Hrun; cbn [search_loop] in Hrun;
    [done|].
  assert (Hcount : (0 < length sizes)%nat) by (destruct sizes; [done|cbn; lia]).
  assert (Hlen : length (curGroups st) = length sizes) by (by rewrite <- Hsizes, length_map).
  assert (Hnext : ∀ X tp, map length (curGroups X) = sizes →
    (if bestScore X =? 0 then mret X
     else search_loop lt_exp forbiddenPairs targetSize attempts w (length sizes) rem
            (t + 1) X) tp ≠ Thrown msg).
  { intros X tp HX. destruct (bestScore X =? 0); [done|]. by apply IH. }
  cbv zeta in Hrun.
  apply bind_Thrown in Hrun as [Hrun|(gi & tape1 & Hgi & Hrun)];
    [by apply randomIndex_no_throw in Hrun|].
  apply randomIndex_bound in Hgi; [|done].
  apply bind_Thrown in Hrun as [Hrun|(gj0 & tape2 & Hgj0 & Hrun)];
    [by apply randomIndex_no_throw in Hrun|].
  apply randomIndex_bound in Hgj0; [|done].
  apply bind_Thrown in Hrun as [Hrun|(gj & tape3 & Hgj & Hrun)].
  { destruct (1 <? length sizes)%nat; [by apply redraw_no_throw in Hrun|done]. }
  assert (gj < length sizes)%nat.
  { destruct (1 <? length sizes)%nat; [exact (redraw_bound _ _ _ _ _ _ Hcount Hgj0 Hgj)|].
    by apply mret_Returned in Hgj as [<- _]. }
  apply bind_Thrown in Hrun as [Hrun%read_Thrown|(g1 & ? & [Hg1 <-]%read_Returned & Hrun)];
    [lia|].
  apply bind_Thrown in Hrun as [Hrun%read_Thrown|(g2 & ? & [Hg2 <-]%read_Returned & Hrun)];
    [lia|].
  destruct (Nat.eqb_spec (length g1) 0) as [|Hl1]; cbn [orb] in Hrun; [by eapply IH|].
  destruct (Nat.eqb_spec (length g2) 0) as [|Hl2]; cbn [orb] in Hrun; [by eapply IH|].
  apply bind_Thrown in Hrun as [Hrun|(i & tape4 & Hi & Hrun)];
    [by apply randomIndex_no_throw in Hrun|].
  apply randomIndex_bound in Hi; [|lia].
  apply bind_Thrown in Hrun as [Hrun|(j & tape5 & Hj & Hrun)];
    [by apply randomIndex_no_throw in Hrun|].
  apply randomIndex_bound in Hj; [|lia].
  apply bind_Thrown in Hrun as [Hrun%read_Thrown|(sa & ? & [Ha <-]%read_Returned & Hrun)];
    [lia|].
  apply bind_Thrown in Hrun as [Hrun%read_Thrown|(sb & ? & [Hb <-]%read_Returned & Hrun)];
    [lia|].
  apply bind_Thrown in Hrun as [Hrun|(saysYes & tape6 & _ & Hrun)].
  { destruct (_ <=? 0); [done|].
    apply bind_Thrown in Hrun as [Hrun|(u & ? & _ & Hrun)]; [by destruct tape5|done]. }
  revert Hrun. apply Hnext.
  destruct saysYes; [destruct (_ <? _)|]; cbn [curGroups]; by rewrite !write_cell_lengths.
Qed.

(** With a group size of at least 2 the call does not throw: every index
    that the shuffle and the search read is inside its array. *)
Lemma generateGroupsOptimized_no_throw lt_exp (students : list Student) groupSize
    forbiddenPairs attempts w tape msg :
  2 ≤ groupSize →
  generateGroupsOptimized lt_exp students groupSize forbiddenPairs attempts w tape
  ≠ Thrown msg.
Proof.
  intros Hsize Hrun. unfold generateGroupsOptimized in Hrun.
  destruct (Z.ltb_spec groupSize 2) as [|_]; [lia|].
  destruct students as [|s0 students]; [done|]. cbn [length Nat.eqb] in Hrun.
  cbv zeta in Hrun. set (roster0 := s0 :: students) in *.
  apply bind_Thrown in Hrun as [Hrun|(shuffled & tape1 & Hsh & Hrun)].
  - revert Hrun. unfold shuffle. cbv zeta.
    assert (Hi : (length roster0 - 1 < length roster0)%nat) by (unfold roster0; cbn; lia).
    revert Hi. generalize (length roster0 - 1)%nat as i. generalize roster0 as a.
    clear. intros a i. revert a tape.
    induction i as [|i IH]; intros a tape Hi Hrun; cbn [shuffle_loop] in Hrun; [done|].
    apply bind_Thrown in Hrun as [Hrun|(u & ? & _ & Hrun)]; [by destruct tape|].
    cbv zeta in Hrun. pose proof (floor_mul_lt u (S i + 1) ltac:(lia)).
    apply bind_Thrown in Hrun as [Hrun%read_Thrown|(aj & ? & _ & Hrun)]; [lia|].
    apply bind_Thrown in Hrun as [Hrun%read_Thrown|(ai & ? & _ & Hrun)]; [lia|].
    revert Hrun. apply IH. rewrite !length_insert. lia.
  - apply shuffle_perm in Hsh.
    destruct (chunkGroups_partitions shuffled (Z.to_nat groupSize)) as [_ Hsizes]; [lia|].
    rewrite map_id in Hrun.
    replace (length (chunkGroups shuffled (Z.to_nat groupSize)))
      with (length (chunk_sizes (length shuffled) (Z.to_nat groupSize))) in Hrun
      by (by rewrite <- Hsizes, length_map).
    apply bind_Thrown in Hrun as [Hrun|(st & ? & _ & Hrun)]; [|done].
    revert Hrun. apply search_loop_no_throw; [done|].
    apply chunk_sizes_nonempty; [lia|].
    rewrite (Permutation_length Hsh). unfold roster0. cbn [length]. lia.
Qed.

(* ------------------------------------------------------------------ *)
(** ** The concrete scenarios *)

Example example_run :
  generateGroupsOptimized never roster 2 history_pairs 3 default_weights example_tape
  = Returned (example_result, [fraction 1 2]).
Proof. vm_compute. reflexivity. Qed.

(** A run with a single group: the two cells of the swap are in the same
    row. The swap of A and B keeps the score, is accepted, and the best stays
    the first partition. *)
Example single_group_run :
  generateGroupsOptimized never [student_A; student_B] 2 ∅ 1 default_weights
    [fraction 1 2; fraction 0 1; fraction 0 1; fraction 0 1; fraction 1 2]
  = Returned ({| groups := [[student_A; student_B]]; score := 6 |}, []).
Proof. vm_compute. reflexivity. Qed.

(** The history [[A, B], [C, D]] yields the keys of A-B and of C-D and no
    other: none of A-C, A-D, B-C, B-D. *)
Lemma buildForbiddenPairs_history :
  (∀ k, k ∈ history_pairs ↔ k = pairKey "A" "B" ∨ k = pairKey "C" "D")
  ∧ (pairKey "A" "C" ∉ history_pairs) ∧ (pairKey "A" "D" ∉ history_pairs)
  ∧ (pairKey "B" "C" ∉ history_pairs) ∧ (pairKey "B" "D" ∉ history_pairs).
Proof.
  assert (Hk : ∀ k, k ∈ history_pairs ↔ k = pairKey "A" "B" ∨ k = pairKey "C" "D").
  { intros k. unfold history_pairs. rewrite elem_of_buildForbiddenPairs. split.
    - intros (g & p & Hg & Hp & ->). unfold history in Hg.
      repeat (apply elem_of_cons in Hg as [->|Hg]); [| |by apply elem_of_nil in Hg];
        cbn in Hp; apply list_elem_of_singleton in Hp as ->; auto.
    - intros [->| ->].
      + exists [student_A; student_B], (student_A, student_B).
        split; [left|split; [left|done]].
      + exists [student_C; student_D], (student_C, student_D).
        split; [right; left|split; [left|done]]. }
  split; [exact Hk|]. rewrite !Hk. vm_compute. repeat split; intros [|]; discriminate.
Qed.

(** C3. The history of the single group of the ids [a||b] and [c] yields a
    set that holds the key of the ids [a] and [b||c], which no group of the
    history holds: the keys of two different pairs of ids coincide. *)
Theorem buildForbiddenPairs_key_collision :
  pairKey "a" "b||c" ∈ buildForbiddenPairs [[student_ab; student_c]]
  ∧ ¬ grouped_together [[student_ab; student_c]] "a" "b||c".
Proof.
  split.
  - apply elem_of_buildForbiddenPairs.
    exists [student_ab; student_c], (student_ab, student_c).
    split; [left|split; [left|done]].
  - intros (g & i & j & a & b & Hg & _ & Hi & _ & Ha & _).
    apply list_elem_of_singleton in Hg as ->.
    destruct i as [|[|i]]; cbn in Hi; [| |done]; injection Hi as <-; discriminate.
Qed.

(** C5, as stated, fails: the call on the empty list with the group size 1
    throws, it does not return the empty partition. *)
Lemma generateGroupsOptimized_empty_size_1 :
  generateGroupsOptimized never [] 1 ∅ 1000 default_weights example_tape
    = Thrown "groupSize must be >= 2"
  ∧ generateGroupsOptimized never [] 1 ∅ 1000 default_weights example_tape
    ≠ Returned ({| groups := []; score := 0 |}, example_tape).
Proof. split; [reflexivity|discriminate]. Qed.

Lemma generateGroupsOptimized_keeps_students_witness :
  2 ≤ 2
  ∧ generateGroupsOptimized never roster 2 history_pairs 3 default_weights example_tape
    = Returned (example_result, [fraction 1 2])
  ∧ concat (groups example_result) ≡ₚ roster
  ∧ map id (concat (groups example_result)) ≡ₚ map id roster.
Proof.
  split; [lia|]. split; [vm_compute; reflexivity|].
  apply (generateGroupsOptimized_keeps_students never roster 2 history_pairs 3
    default_weights example_tape example_result [fraction 1 2]);
    [lia|vm_compute; reflexivity].
Defined.

Lemma totalScore_sum_nonneg_witness :
  nonneg_weights default_weights
  ∧ totalScore history history_pairs 2 default_weights
    = sum_scores (map (λ g, groupScore g history_pairs 2 default_weights) history)
  ∧ 0 ≤ totalScore history history_pairs 2 default_weights
  ∧ ∀ g : Group, 0 ≤ groupScore g history_pairs 2 default_weights.
Proof.
  assert (Hw : nonneg_weights default_weights) by (unfold nonneg_weights; cbn; lia).
  split; [exact Hw|].
  exact (totalScore_sum_nonneg history history_pairs 2 default_weights Hw).
Defined.

Lemma generateGroupsOptimized_small_size_throws_witness :
  roster ≠ [] ∧ 1 < 2
  ∧ generateGroupsOptimized never roster 1 history_pairs 3 default_weights example_tape
    = Thrown "groupSize must be >= 2".
Proof.
  assert (Hne : roster ≠ []) by discriminate.
  assert (Hlt : 1 < 2) by lia.
  split; [exact Hne|]. split; [exact Hlt|].
  exact (generateGroupsOptimized_small_size_throws never roster 1 history_pairs 3
    default_weights example_tape Hne Hlt).
Defined.

Lemma generateGroupsOptimized_empty_witness :
  2 ≤ 3
  ∧ generateGroupsOptimized never [] 3 history_pairs 1000 default_weights example_tape
    = Returned ({| groups := []; score := 0 |}, example_tape).
Proof.
  assert (Hle : 2 ≤ 3) by lia. split; [exact Hle|].
  exact (generateGroupsOptimized_empty never 3 history_pairs 1000 default_weights
    example_tape Hle).
Defined.


Lemma generateGroupsOptimized_group_sizes_witness :
  roster ≠ [] ∧ 2 ≤ 2
  ∧ generateGroupsOptimized never roster 2 history_pairs 3 default_weights example_tape
    = Returned (example_result, [fraction 1 2])
  ∧ length (groups example_result) = ((4 + 2 - 1) / 2)%nat
  ∧ (∀ k g, groups example_result !! k = Some g →
       (S k < length (groups example_result))%nat → length g = 2%nat)
  ∧ (∀ g, last (groups example_result) = Some g → length g = 2%nat)
  ∧ (∀ g, g ∈ groups example_result → g ≠ []).
Proof.
  assert (Hne : roster ≠ []) by discriminate.
  assert (Hle : 2 ≤ 2) by lia.
  assert (Hrun : generateGroupsOptimized never roster 2 history_pairs 3 default_weights
    example_tape = Returned (example_result, [fraction 1 2]))
    by (vm_compute; reflexivity).
  split; [exact Hne|]. split; [exact Hle|]. split; [exact Hrun|].
  exact (generateGroupsOptimized_group_sizes never roster 2 history_pairs 3
    default_weights example_tape example_result [fraction 1 2] Hne Hle Hrun).
Defined.

(** C10, as stated, fails: at the group size 2.5, which is at least 2, the
    call on five students returns a group of two and a group of three. The
    two groups are [ceil(5 / 2.5)] groups and none is empty, but the first
    has not 2.5 members, and neither has the last, which should have them as
    [5 mod 2.5] is 0. The returned score is 9, the sum 1/2 + 17/2. *)
Lemma generateGroupsOptimized_fractional_size :
  Fractional.generateGroupsOptimized never roster_of_five (5 # 2) ∅ 1 default_weights
    tape_of_five
  = Returned ({| Fractional.groups := groups_of_five; Fractional.score := 36 # 4 |}, [])
  ∧ map length groups_of_five = [2; 3]%nat
  ∧ ¬ size_profile (length roster_of_five) (5 # 2) groups_of_five.
Proof.
  split; [by vm_compute|]. split; [done|].
  intros (_ & Hinner & _).
  specialize (Hinner 0%nat [student_A; student_D] eq_refl ltac:(cbn; lia)).
  unfold has_size, Qeq in Hinner. cbn in Hinner. lia.
Qed.

Lemma generateGroupsOptimized_integer_group_sizes_witness :
  roster ≠ [] ∧ integer_size 2%Q 2 ∧ (2 ≤ 2)%nat
  ∧ Fractional.generateGroupsOptimized never roster 2%Q history_pairs 3
      default_weights example_tape
    = Returned ({| Fractional.groups := groups example_result;
                   Fractional.score := 6 |}, [fraction 1 2])
  ∧ size_profile (length roster) 2%Q (groups example_result).
Proof.
  assert (Hne : roster ≠ []) by discriminate.
  assert (Hs : integer_size 2%Q 2) by reflexivity.
  assert (Hle : (2 ≤ 2)%nat) by lia.
  assert (Hrun : Fractional.generateGroupsOptimized never roster 2%Q history_pairs 3
      default_weights example_tape
    = Returned ({| Fractional.groups := groups example_result;
                   Fractional.score := 6 |}, [fraction 1 2]))
    by (vm_compute; reflexivity).
  split; [exact Hne|]. split; [exact Hs|]. split; [exact Hle|]. split; [exact Hrun|].
  exact (generateGroupsOptimized_integer_group_sizes never roster 2%Q 2 history_pairs
    3 default_weights example_tape _ [fraction 1 2] Hne Hs Hle Hrun).
Defined.

Lemma groupScore_zero_witness :
  Z.of_nat (length [student_A; student_D]) = 2
  ∧ no_forbidden_pair history_pairs [student_A; student_D]
  ∧ (length (known_gender [student_A; student_D]) ≤ 1)%nat
  ∧ (length (known_level [student_A; student_D]) ≤ 1)%nat
  ∧ (length (known_exchange [student_A; student_D]) ≤ 1)%nat
  ∧ groupScore [student_A; student_D] history_pairs 2 default_weights = 0.
Proof.
  assert (Hlen : Z.of_nat (length [student_A; student_D]) = 2) by reflexivity.
  assert (Hno : no_forbidden_pair history_pairs [student_A; student_D]).
  { intros i j a b Hij Hi Hj.
    destruct i as [|[|i]], j as [|[|j]]; cbn in Hi, Hj; try done; try lia.
    injection Hi as <-. injection Hj as <-.
    apply buildForbiddenPairs_history. }
  assert (Hg : (length (known_gender [student_A; student_D]) ≤ 1)%nat) by (vm_compute; lia).
  assert (Hl : (length (known_level [student_A; student_D]) ≤ 1)%nat) by (vm_compute; lia).
  assert (He : (length (known_exchange [student_A; student_D]) ≤ 1)%nat) by (vm_compute; lia).
  repeat (split; [assumption|]).
  exact (groupScore_zero [student_A; student_D] history_pairs 2 default_weights
    Hlen Hno Hg Hl He).
Defined.

Lemma groupScore_gender_term_witness :
  (2 ≤ length (known_gender two_f_two_m))%nat
  ∧ count_gender Gf two_f_two_m = 2 ∧ count_gender Gm two_f_two_m = 2
  ∧ count_gender Gx two_f_two_m = 0
  ∧ groupScore two_f_two_m ∅ 4 default_weights
    = groupScore two_f_two_m ∅ 4 (without_gender default_weights)
      + 2 * genderImbalance default_weights.
Proof.
  assert (Hk : (2 ≤ length (known_gender two_f_two_m))%nat) by (vm_compute; lia).
  assert (Hf : count_gender Gf two_f_two_m = 2) by reflexivity.
  assert (Hm : count_gender Gm two_f_two_m = 2) by reflexivity.
  assert (Hx : count_gender Gx two_f_two_m = 0) by reflexivity.
  repeat (split; [assumption|]).
  exact (proj2 (groupScore_gender_term two_f_two_m ∅ 4 default_weights Hk) Hf Hm Hx).
Defined.

Lemma groupScore_permutation_witness :
  [student_A; student_B; student_C] ≡ₚ [student_B; student_A; student_C]
  ∧ groupScore [student_A; student_B; student_C] history_pairs 3 default_weights
    = groupScore [student_B; student_A; student_C] history_pairs 3 default_weights.
Proof.
  assert (Hp : [student_A; student_B; student_C] ≡ₚ [student_B; student_A; student_C])
    by apply perm_swap.
  split; [exact Hp|].
  exact (groupScore_permutation _ _ history_pairs 3 default_weights Hp).
Defined.

(* ================================================================== *)
(** * Further properties of the code *)

(* ------------------------------------------------------------------ *)
(** ** shuffle *)

Lemma shuffle_loop_starves {T : Type} (i : nat) (a : list T) tape :
  (i < length a)%nat → (length tape < i)%nat → shuffle_loop i a tape = Starved.
Proof.
  revert a tape. induction i as [|i IH]; intros a tape Hi Htape; [lia|].
  cbn [shuffle_loop]. destruct tape as [|u tape]; [done|].
  rewrite (bind_run _ _ _ u tape) by done. cbv zeta.
  pose proof (floor_mul_lt u (S i + 1) ltac:(lia)) as Hj.
  destruct (lookup_lt_is_Some_2 a (floor_mul u (S i + 1))) as [aj Haj]; [lia|].
  destruct (lookup_lt_is_Some_2 a (S i)) as [ai Hai]; [lia|].
  rewrite (bind_run _ _ _ aj tape) by (by apply read_run).
  rewrite (bind_run _ _ _ ai tape) by (by apply read_run).
  apply IH; [rewrite !length_insert; lia|cbn in Htape; lia].
Qed.

(** X1. [shuffle] takes one draw for each element but one. On a tape that
    holds that many it returns a permutation of the array and the rest of the
    tape; on a shorter tape it is starved. *)
Theorem shuffle_draws_and_permutes {T : Type} (arr : list T) (tape : list draw) :
  ((length arr - 1 ≤ length tape)%nat →
     ∃ arr', shuffle arr tape = Returned (arr', drop (length arr - 1) tape)
             ∧ arr' ≡ₚ arr)
  ∧ ((length tape < length arr - 1)%nat → shuffle arr tape = Starved).
Proof.
  unfold shuffle. cbv zeta. split.
  - intros Htape. destruct arr as [|x arr]; [by exists []|].
    destruct (shuffle_loop_runs (length (x :: arr) - 1) (x :: arr) tape) as [arr' Hrun];
      [cbn; lia|done|].
    exists arr'. split; [done|]. by eapply shuffle_loop_perm.
  - intros Htape. apply shuffle_loop_starves; [|done]. destruct arr; cbn in *; lia.
Qed.

Lemma floor_mul_fraction (j n : nat) : (j < n)%nat → floor_mul (fraction j n) n = j.
Proof.
  intros Hj. unfold floor_mul, fraction. cbn [num gap].
  replace (j + (n - j - 1) + 1)%nat with n by lia. apply Nat.div_mul. lia.
Qed.

Lemma shuffle_loop_reaches {T : Type} (i : nat) (a target : list T) :
  (i < length a)%nat → length target = length a →
  take (S i) target ≡ₚ take (S i) a → drop (S i) target = drop (S i) a →
  ∃ tape, length tape = i ∧ shuffle_loop i a tape = Returned (target, []).
Proof.
  revert a. induction i as [|i IH]; intros a Hi Hlen Htake Hdrop.
  - exists []. split; [done|]. cbn. unfold mret, Rand_ret, ret. do 2 f_equal.
    destruct a as [|y a], target as [|x target]; try (cbn in *; lia).
    cbn in Htake, Hdrop. rewrite !drop_0 in Hdrop.
    apply Permutation_singleton_inj in Htake. by subst.
  - destruct (lookup_lt_is_Some_2 target (S i)) as [x Hx]; [lia|].
    destruct (lookup_lt_is_Some_2 a (S i)) as [ai Hai]; [lia|].
    assert (x ∈ take (S (S i)) a) as (j & Hj & Hjlt)%elem_of_take.
    { rewrite <- Htake. apply elem_of_take. exists (S i). split; [done|lia]. }
    set (a' := <[j := ai]> (<[S i := x]> a)).
    assert (Ha' : a' !! S i = Some x).
    { unfold a'. destruct (decide (j = S i)) as [->|Hne].
      - assert (ai = x) as -> by congruence.
        apply list_lookup_insert_eq. rewrite length_insert. lia.
      - rewrite list_lookup_insert_ne by done. apply list_lookup_insert_eq. lia. }
    destruct (IH a') as (tape & Htape & Hrun).
    + unfold a'. rewrite !length_insert. lia.
    + unfold a'. rewrite !length_insert. lia.
    + assert (Hswap : take (S (S i)) a' ≡ₚ take (S (S i)) a).
      { unfold a'. rewrite !take_insert_lt by lia.
        apply exchange_perm; by rewrite lookup_take_lt by lia. }
      rewrite (take_S_r a' (S i) x Ha'), <- Htake, (take_S_r target (S i) x Hx) in Hswap.
      symmetry. by apply (inj (.++ [x])) in Hswap.
    + rewrite (drop_S target x (S i) Hx), (drop_S a' x (S i) Ha'), Hdrop.
      unfold a'. by rewrite !drop_insert_lt by lia.
    + exists (fraction j (S i + 1) :: tape). split; [cbn; lia|].
      cbn [shuffle_loop]. rewrite (bind_run _ _ _ (fraction j (S i + 1)) tape) by done.
      cbv zeta. rewrite floor_mul_fraction by lia.
      rewrite (bind_run _ _ _ x tape) by (by apply read_run).
      rewrite (bind_run _ _ _ ai tape) by (by apply read_run).
      exact Hrun.
Qed.

(** X2. [shuffle] can return every order of its array: for each permutation
    there is a tape, of one draw for each element but one, on which it
    returns that permutation. *)
Theorem shuffle_reaches_every_order {T : Type} (arr target : list T) :
  target ≡ₚ arr →
  ∃ tape, length tape = (length arr - 1)%nat
          ∧ shuffle arr tape = Returned (target, []).
Proof.
  intros Hperm. unfold shuffle. cbv zeta.
  destruct arr as [|x arr].
  - apply Permutation_nil_r in Hperm as ->. by exists [].
  - pose proof (Permutation_length Hperm) as Hlen.
    apply shuffle_loop_reaches; [cbn; lia|done| |].
    + rewrite !take_ge by (cbn in *; lia). done.
    + rewrite !drop_ge by (cbn in *; lia). done.
Qed.

(* ------------------------------------------------------------------ *)
(** ** chunkGroups *)


(* ------------------------------------------------------------------ *)
(** ** countBy *)

Lemma countBy_from_lookup (keyFn : Student → string) (group : Group)
    (r : gmap string Z) (k : string) :
  (∀ s, s ∈ group → keyFn s ≠ k) →
  foldl (λ r s, let k := keyFn s in <[ k := get0 r k + 1 ]> r) r group !! k = r !! k.
Proof.
  revert r. induction group as [|s group IH]; intros r Hk; [done|].
  cbn [foldl]. rewrite IH by (intros s' Hs'; apply Hk; by right).
  cbv zeta. apply lookup_insert_ne, Hk. left.
Qed.

Lemma countBy_from_present (keyFn : Student → string) (group : Group)
    (r : gmap string Z) (k : string) :
  Exists (λ s, keyFn s = k) group →
  is_Some (foldl (λ r s, let k := keyFn s in <[ k := get0 r k + 1 ]> r) r group !! k).
Proof.
  revert r. induction group as [|s group IH]; intros r Hex.
  - by apply Exists_nil in Hex.
  - cbn [foldl]. destruct (decide (Exists (λ s, keyFn s = k) group)) as [Hex'|Hno].
    + by apply IH.
    + rewrite countBy_from_lookup.
      2:{ intros s'' Hs'' Hk''. apply Hno, Exists_exists. eauto. }
      apply Exists_cons in Hex as [Hk|?]; [|done].
      cbv zeta. rewrite Hk, lookup_insert_eq. eauto.
Qed.

(** X4. At a key that no object inherits from [Object.prototype], the
    record that [countBy] builds has an entry exactly when some member of the
    group has that key, and the entry is the number of those members; such a
    key of no member is missing. *)
Theorem countBy_lookup (group : Group) (keyFn : Student → string) (k : string) :
  k ∉ Object_prototype_keys →
  countBy group keyFn !! k
  = if decide (Exists (λ s, keyFn s = k) group)
    then Some (count_key keyFn k group) else None.
Proof.
  intros _. case_decide as Hex.
  - destruct (countBy_from_present keyFn group ∅ k Hex) as [v Hv].
    change (countBy group keyFn !! k = Some v) in Hv. rewrite Hv. f_equal.
    rewrite <- get0_countBy. unfold get0. by rewrite Hv.
  - unfold countBy. rewrite countBy_from_lookup; [apply lookup_empty|].
    intros s Hs Hk. apply Hex, Exists_exists. eauto.
Qed.

(* ------------------------------------------------------------------ *)
(** ** groupScore and totalScore *)

Lemma filter_length_mono {A : Type} (P Q : A → Prop)
    `{∀ x, Decision (P x)} `{∀ x, Decision (Q x)} (l : list A) :
  (∀ x, P x → Q x) → (length (filter P l) ≤ length (filter Q l))%nat.
Proof.
  intros HPQ. induction l as [|x l IH]; [done|].
  rewrite !filter_cons. destruct (decide (P x)) as [HP|HP].
  - rewrite decide_True by auto. cbn. lia.
  - destruct (decide (Q x)); cbn; lia.
Qed.

Lemma filter_length_pos {A : Type} (P : A → Prop) `{∀ x, Decision (P x)}
    (l : list A) (x : A) :
  x ∈ l → P x → (1 ≤ length (filter P l))%nat.
Proof.
  intros Hx HP. assert (Hin : x ∈ filter P l) by (by apply list_elem_of_filter).
  destruct (filter P l); [by apply elem_of_nil in Hin|cbn; lia].
Qed.

Lemma forbidden_count_pos (forbidden : gset string) (group : Group) i j a b :
  i ≠ j → group !! i = Some a → group !! j = Some b →
  pairKey (id a) (id b) ∈ forbidden → 1 ≤ forbidden_count forbidden group.
Proof.
  intros Hij Hi Hj Hkey. unfold forbidden_count.
  destruct (Nat.lt_total i j) as [Hlt|[?|Hlt]]; [|done|].
  - assert (1 ≤ length (filter (λ p, key_of p ∈ forbidden) (pairs_of group)))%nat; [|lia].
    apply (filter_length_pos _ _ (a, b)); [|done].
    apply elem_of_pairs_of. by exists i, j.
  - assert (1 ≤ length (filter (λ p, key_of p ∈ forbidden) (pairs_of group)))%nat; [|lia].
    apply (filter_length_pos _ _ (b, a)).
    + apply elem_of_pairs_of. by exists j, i.
    + unfold key_of. cbn. by rewrite pairKey_comm.
Qed.

Lemma other_terms_nonneg (group : Group) (targetSize : Z) (w : Weights) :
  nonneg_weights w →
  0 ≤ sizeImbalance w * Z.abs (Z.of_nat (length group) - targetSize)
      + balance3 (genderImbalance w) (count_key gender_key "f" group)
          (count_key gender_key "m" group) (count_key gender_key "x" group)
      + balance2 (levelImbalance w) (count_key level_key "bachelor" group)
          (count_key level_key "master" group)
      + balance2 (exchangeImbalance w) (count_key exchange_key "true" group)
          (count_key exchange_key "false" group).
Proof.
  intros (? & ? & ? & ? & ?).
  pose proof (balance3_nonneg (genderImbalance w) (count_key gender_key "f" group)
    (count_key gender_key "m" group) (count_key gender_key "x" group)).
  pose proof (balance2_nonneg (levelImbalance w) (count_key level_key "bachelor" group)
    (count_key level_key "master" group)).
  pose proof (balance2_nonneg (exchangeImbalance w) (count_key exchange_key "true" group)
    (count_key exchange_key "false" group)).
  assert (0 ≤ sizeImbalance w * Z.abs (Z.of_nat (length group) - targetSize))
    by (apply Z.mul_nonneg_nonneg; lia).
  lia.
Qed.

Lemma groupScore_repeat_bound (group : Group) (forbidden : gset string)
    (targetSize : Z) (w : Weights) (i j : nat) (a b : Student) :
  nonneg_weights w →
  i ≠ j → group !! i = Some a → group !! j = Some b →
  pairKey (id a) (id b) ∈ forbidden →
  forbidPair w ≤ groupScore group forbidden targetSize w.
Proof.
  intros Hw Hij Hi Hj Hkey. rewrite groupScore_terms.
  pose proof (other_terms_nonneg group targetSize w Hw).
  pose proof (forbidden_count_pos forbidden group i j a b Hij Hi Hj Hkey).
  destruct Hw as (Hfp & _). nia.
Qed.

(** X5. Under non-negative weights a group that holds, at two distinct
    positions, two students whose key is in the forbidden set scores at least
    [forbidPair]. *)
Theorem groupScore_repeat_costs (group : Group) (forbidden : gset string)
    (targetSize : Z) (w : Weights) (i j : nat) (a b : Student) :
  nonneg_weights w →
  i ≠ j → group !! i = Some a → group !! j = Some b →
  pairKey (id a) (id b) ∈ forbidden →
  forbidPair w ≤ groupScore group forbidden targetSize w.
Proof. apply groupScore_repeat_bound. Qed.

Lemma groupScore_mono (group : Group) (forbidden forbidden' : gset string)
    (targetSize : Z) (w : Weights) :
  0 ≤ forbidPair w → forbidden ⊆ forbidden' →
  groupScore group forbidden targetSize w ≤ groupScore group forbidden' targetSize w.
Proof.
  intros Hfp Hsub. rewrite !groupScore_terms.
  assert (forbidden_count forbidden group ≤ forbidden_count forbidden' group).
  { unfold forbidden_count. apply inj_le, filter_length_mono. intros p. apply Hsub. }
  nia.
Qed.

(** X6. With a non-negative [forbidPair], a larger forbidden set never
    lowers a score: neither the score of a group nor that of a partition. *)
Theorem score_grows_with_forbidden_set (partition : list Group)
    (forbidden forbidden' : gset string) (targetSize : Z) (w : Weights) :
  0 ≤ forbidPair w → forbidden ⊆ forbidden' →
  (∀ g : Group, groupScore g forbidden targetSize w ≤ groupScore g forbidden' targetSize w)
  ∧ totalScore partition forbidden targetSize w
    ≤ totalScore partition forbidden' targetSize w.
Proof.
  intros Hfp Hsub. split; [intros g; by apply groupScore_mono|].
  unfold totalScore. rewrite !totalScore_from.
  induction partition as [|g partition IH]; [done|].
  unfold sum_scores in *. cbn [map foldr].
  pose proof (groupScore_mono g forbidden forbidden' targetSize w Hfp Hsub). lia.
Qed.

Lemma groupScore_perm (g g' : Group) (forbidden : gset string) (targetSize : Z)
    (w : Weights) :
  g ≡ₚ g' → groupScore g forbidden targetSize w = groupScore g' forbidden targetSize w.
Proof.
  intros Hp. rewrite !groupScore_terms, (forbidden_count_perm forbidden g g' Hp),
    (Permutation_length Hp). by rewrite !(count_key_perm _ _ g g' Hp).
Qed.

(** X7. With an integer target size and non-negative integer weights, and a
    score below 2^53 (the terms are then added without rounding), the score
    of a partition depends neither on the order of its groups nor on the
    order of the members inside them. *)
Theorem totalScore_order_free (partition reordered partition' : list Group)
    (forbidden : gset string) (targetSize : Z) (w : Weights) :
  nonneg_weights w →
  totalScore partition forbidden targetSize w < 2 ^ 53 →
  partition ≡ₚ reordered → Forall2 (≡ₚ) reordered partition' →
  totalScore partition forbidden targetSize w
  = totalScore partition' forbidden targetSize w.
Proof.
  intros _ _ Hgroups Hmembers. unfold totalScore. rewrite !totalScore_from. f_equal.
  transitivity (sum_scores (map (λ g, groupScore g forbidden targetSize w) reordered)).
  - clear Hmembers. unfold sum_scores.
    induction Hgroups as [|g l l' _ IH|g g' l|l l' l'' _ IH1 _ IH2]; cbn [map foldr];
      [done|lia|lia|congruence].
  - clear Hgroups. unfold sum_scores.
    induction Hmembers as [|g g' l l' Hg _ IH]; [done|].
    cbn [map foldr]. by rewrite IH, (groupScore_perm g g' forbidden targetSize w Hg).
Qed.

(* ------------------------------------------------------------------ *)
(** ** buildForbiddenPairs *)

Lemma buildForbiddenPairs_union (history1 history2 : list Group) :
  buildForbiddenPairs (history1 ++ history2)
  = buildForbiddenPairs history1 ∪ buildForbiddenPairs history2.
Proof.
  apply set_eq. intros k.
  rewrite elem_of_union, !elem_of_buildForbiddenPairs. split.
  - intros (g & p & [Hg|Hg]%elem_of_app & Hp & Hk); [left|right]; by exists g, p.
  - intros [(g & p & Hg & Hp & Hk)|(g & p & Hg & Hp & Hk)]; exists g, p;
      (split; [apply elem_of_app; auto|done]).
Qed.

(** X8. The pairs of a history put after another are the pairs of the one
    and the pairs of the other. *)
Theorem buildForbiddenPairs_app (history1 history2 : list Group) :
  buildForbiddenPairs (history1 ++ history2)
  = buildForbiddenPairs history1 ∪ buildForbiddenPairs history2.
Proof. apply buildForbiddenPairs_union. Qed.

(** X9. No repeat is missed: when a group of the history holds students
    with the ids [x] and [y] at two distinct positions, the set holds their
    key, whichever of the two ids is given first. *)
Theorem buildForbiddenPairs_holds_every_pair (previousGroups : list Group)
    (x y : string) :
  grouped_together previousGroups x y →
  pairKey x y ∈ buildForbiddenPairs previousGroups
  ∧ pairKey y x ∈ buildForbiddenPairs previousGroups.
Proof.
  intros Hxy. split; [by apply buildForbiddenPairs_complete|].
  rewrite pairKey_comm. by apply buildForbiddenPairs_complete.
Qed.

(** X10. When no id holds the character [|], the set holds the key of two
    ids exactly when a group of the history holds students with these ids at
    two distinct positions. *)
Theorem buildForbiddenPairs_exact_without_bar (previousGroups : list Group)
    (x y : string) :
  (∀ g s, g ∈ previousGroups → s ∈ g → bar_free (id s) = true) →
  bar_free x = true → bar_free y = true →
  pairKey x y ∈ buildForbiddenPairs previousGroups ↔ grouped_together previousGroups x y.
Proof.
  intros Hids Hx Hy. split.
  - by apply buildForbiddenPairs_sound.
  - apply buildForbiddenPairs_complete.
Qed.

(* ------------------------------------------------------------------ *)
(** ** The swap and its revert *)

(** X11. The two writes of a swap keep the students and the size of every
    group, and the two writes of the revert give back the groups as they
    were, also when the two cells lie in one group or are one cell. *)
Theorem swap_then_revert_restores (L : list Group) (gi gj i j : nat) (a b : Student) :
  cells_hold L gi gj i j a b →
  concat (swap_cells L gi gj i j a b) ≡ₚ concat L
  ∧ map length (swap_cells L gi gj i j a b) = map length L
  ∧ write_cell (write_cell (swap_cells L gi gj i j a b) gi i a) gj j b = L.
Proof.
  intros (g1 & g2 & Hg1 & Hg2 & Ha & Hb). unfold swap_cells. split; [|split].
  - by apply (swap_cells_perm L gi gj i j g1 g2).
  - by rewrite !write_cell_lengths.
  - by apply (revert_restores L gi gj i j g1 g2).
Qed.

(* ------------------------------------------------------------------ *)
(** ** More on generateGroupsOptimized *)

Lemma search_step_scored forbiddenPairs targetSize w st st' :
  search_step forbiddenPairs targetSize w st st' →
  bestScore st = totalScore (bestGroups st) forbiddenPairs targetSize w →
  bestScore st' = totalScore (bestGroups st') forbiddenPairs targetSize w.
Proof. by intros [st0 gi gj i j a b _ _|st0 gi gj i j a b _ _]. Qed.

Lemma search_steps_scored forbiddenPairs targetSize w st st' :
  rtc (search_step forbiddenPairs targetSize w) st st' →
  bestScore st = totalScore (bestGroups st) forbiddenPairs targetSize w →
  bestScore st' = totalScore (bestGroups st') forbiddenPairs targetSize w.
Proof.
  induction 1 as [|st st1 st2 Hstep _ IH]; [done|].
  intros Hst. by eapply IH, search_step_scored.
Qed.

Lemma generateGroupsOptimized_scored lt_exp (students : list Student)
    groupSize forbiddenPairs attempts w tape r tape' :
  2 ≤ groupSize →
  generateGroupsOptimized lt_exp students groupSize forbiddenPairs attempts w tape
    = Returned (r, tape') →
  score r = totalScore (groups r) forbiddenPairs groupSize w.
Proof.
  intros Hsize Hrun. destruct students as [|s0 students].
  - unfold generateGroupsOptimized in Hrun.
    destruct (Z.ltb_spec groupSize 2) as [|_]; [lia|].
    by apply mret_Returned in Hrun as [<- _].
  - apply generateGroupsOptimized_Returned in Hrun
      as (shuffled & tape1 & st & _ & Hsteps & ->); [|done..].
    by apply search_steps_scored in Hsteps.
Qed.

Lemma generateGroupsOptimized_perm lt_exp (students : list Student)
    groupSize forbiddenPairs attempts w tape r tape' :
  2 ≤ groupSize →
  generateGroupsOptimized lt_exp students groupSize forbiddenPairs attempts w tape
    = Returned (r, tape') →
  concat (groups r) ≡ₚ students.
Proof.
  intros Hsize Hrun. destruct students as [|s0 students].
  - unfold generateGroupsOptimized in Hrun.
    destruct (Z.ltb_spec groupSize 2) as [|_]; [lia|].
    by apply mret_Returned in Hrun as [<- _].
  - by eapply generateGroupsOptimized_partitions in Hrun as [Hperm _].
Qed.

(** X12. The score that the call returns is the score of the partition that
    it returns. *)
Theorem generateGroupsOptimized_score_of_groups lt_exp (students : list Student)
    groupSize forbiddenPairs attempts w tape r tape' :
  2 ≤ groupSize →
  generateGroupsOptimized lt_exp students groupSize forbiddenPairs attempts w tape
    = Returned (r, tape') →
  score r = totalScore (groups r) forbiddenPairs groupSize w.
Proof. apply generateGroupsOptimized_scored. Qed.

(** X13. With a budget of 0 or below the loop is not entered: the call
    returns the chunking of the shuffled list with its score, and the tape as
    the shuffle left it. *)
Theorem generateGroupsOptimized_no_budget lt_exp (students shuffled : list Student)
    groupSize forbiddenPairs attempts w tape tape1 :
  students ≠ [] → 2 ≤ groupSize → attempts ≤ 0 →
  shuffle students tape = Returned (shuffled, tape1) →
  generateGroupsOptimized lt_exp students groupSize forbiddenPairs attempts w tape
  = Returned ({| groups := chunkGroups shuffled (Z.to_nat groupSize);
                 score := totalScore (chunkGroups shuffled (Z.to_nat groupSize))
                            forbiddenPairs groupSize w |}, tape1).
Proof.
  intros Hne Hsize Hatt Hsh. unfold generateGroupsOptimized.
  destruct (Z.ltb_spec groupSize 2) as [|_]; [lia|].
  destruct students as [|s0 students]; [done|]. cbn [length Nat.eqb]. cbv zeta.
  rewrite (bind_run _ _ _ shuffled tape1) by done.
  replace (Z.to_nat attempts) with 0%nat by lia. done.
Qed.

(** X14. Under non-negative weights, when the first partition (the chunking
    of the shuffled list) has the score 0, the call returns that partition
    with the score 0, whatever the search draws. *)
Theorem generateGroupsOptimized_keeps_perfect_start lt_exp
    (students shuffled : list Student) groupSize forbiddenPairs attempts w
    tape tape1 r tape' :
  students ≠ [] → 2 ≤ groupSize → nonneg_weights w →
  shuffle students tape = Returned (shuffled, tape1) →
  totalScore (chunkGroups shuffled (Z.to_nat groupSize)) forbiddenPairs groupSize w = 0 →
  generateGroupsOptimized lt_exp students groupSize forbiddenPairs attempts w tape
    = Returned (r, tape') →
  r = {| groups := chunkGroups shuffled (Z.to_nat groupSize); score := 0 |}.
Proof.
  intros Hne Hsize Hw Hsh Hzero Hrun.
  apply generateGroupsOptimized_Returned in Hrun
    as (shuffled' & tape1' & st & Hsh' & Hsteps & ->); [|done..].
  assert (shuffled' = shuffled) as -> by congruence.
  pose proof (search_steps_scored _ _ _ _ _ Hsteps eq_refl) as Hscore.
  apply search_steps_best in Hsteps. cbn in Hsteps. rewrite Hzero in Hsteps.
  destruct Hsteps as [[-> ->]|Hlt]; [done|].
  assert (0 ≤ totalScore (bestGroups st) forbiddenPairs groupSize w); [|lia].
  unfold totalScore. rewrite totalScore_from.
  apply Z.add_nonneg_nonneg; [done|]. apply sum_scores_nonneg, Forall_forall.
  intros z (g & -> & _)%list_elem_of_fmap. by apply groupScore_nonneg.
Qed.

(** X15. When no two students of the input have the same id, no id comes
    twice in the returned partition: its groups are disjoint. *)
Theorem generateGroupsOptimized_disjoint_groups lt_exp (students : list Student)
    groupSize forbiddenPairs attempts w tape r tape' :
  2 ≤ groupSize → NoDup (map id students) →
  generateGroupsOptimized lt_exp students groupSize forbiddenPairs attempts w tape
    = Returned (r, tape') →
  NoDup (map id (concat (groups r))).
Proof.
  intros Hsize Hnodup Hrun.
  pose proof (generateGroupsOptimized_perm _ _ _ _ _ _ _ _ _ Hsize Hrun) as Hperm.
  assert (Hids : map id (concat (groups r)) ≡ₚ map id students)
    by (by apply Permutation_map).
  by rewrite Hids.
Qed.

(* ------------------------------------------------------------------ *)
(** ** uidFromName *)

Lemma is_space_lower_char (c : ascii) : is_space (lower_char c) = is_space c.
Proof. destruct c as [[] [] [] [] [] [] [] []]; reflexivity. Qed.

Lemma lower_char_idem (c : ascii) : lower_char (lower_char c) = lower_char c.
Proof. destruct c as [[] [] [] [] [] [] [] []]; reflexivity. Qed.

Lemma toLowerCase_idem (s : string) : toLowerCase (toLowerCase s) = toLowerCase s.
Proof. induction s as [|c s IH]; [done|]. cbn. by rewrite lower_char_idem, IH. Qed.

Lemma trimStart_lower (s : string) : trimStart (toLowerCase s) = toLowerCase (trimStart s).
Proof.
  induction s as [|c s IH]; [done|]. cbn. rewrite is_space_lower_char.
  by destruct (is_space c).
Qed.

Lemma trimEnd_lower (s : string) : trimEnd (toLowerCase s) = toLowerCase (trimEnd s).
Proof.
  induction s as [|c s IH]; [done|]. cbn. rewrite IH, is_space_lower_char.
  destruct (trimEnd s); cbn; [by destruct (is_space c)|done].
Qed.

Lemma trim_lower (s : string) : trim (toLowerCase s) = toLowerCase (trim s).
Proof. unfold trim. by rewrite trimStart_lower, trimEnd_lower. Qed.

Lemma replace_spaces_lower (b : bool) (s : string) :
  replace_spaces b (toLowerCase s) = toLowerCase (replace_spaces b s).
Proof.
  revert b. induction s as [|c s IH]; intros b; [done|]. cbn.
  rewrite is_space_lower_char. destruct (is_space c), b; cbn; by rewrite ?IH.
Qed.

Lemma trimStart_clean (s : string) : starts_clean (trimStart s).
Proof. induction s as [|c s IH]; [done|]. cbn. by destruct (is_space c) eqn:Hc. Qed.

Lemma trimStart_id (s : string) : starts_clean s → trimStart s = s.
Proof. destruct s as [|c s]; [done|]. cbn. by intros ->. Qed.

Lemma trimEnd_clean (s : string) : starts_clean s → starts_clean (trimEnd s).
Proof.
  destruct s as [|c s]; [done|]. cbn. intros Hc. rewrite Hc. by destruct (trimEnd s).
Qed.

Lemma trimEnd_cons (c : ascii) (s : string) :
  trimEnd (String c s)
  = match trimEnd s with
    | EmptyString => if is_space c then EmptyString else String c EmptyString
    | rest => String c rest
    end.
Proof. reflexivity. Qed.

Lemma trimEnd_idem (s : string) : trimEnd (trimEnd s) = trimEnd s.
Proof.
  induction s as [|c s IH]; [done|]. rewrite trimEnd_cons.
  destruct (trimEnd s) as [|d r] eqn:Hr.
  - destruct (is_space c) eqn:Hc; [done|]. cbn. by rewrite Hc.
  - rewrite trimEnd_cons. by rewrite IH.
Qed.

Lemma trim_trimmed (s : string) : trim (trim s) = trim s.
Proof.
  unfold trim. rewrite (trimStart_id (trimEnd (trimStart s))).
  - apply trimEnd_idem.
  - apply trimEnd_clean, trimStart_clean.
Qed.

Lemma replace_spaces_again (b b' : bool) (s : string) :
  b' = false ∨ b = true →
  replace_spaces b' (replace_spaces b s) = replace_spaces b s.
Proof.
  revert b b'. induction s as [|c s IH]; intros b b' Hb; [done|]. cbn.
  destruct (is_space c) eqn:Hc.
  - destruct b.
    + apply IH. by right.
    + destruct Hb as [->|?]; [|done]. cbn. f_equal. apply IH. by right.
  - cbn. rewrite Hc. f_equal. apply IH. by left.
Qed.

Lemma trimEnd_cons_inv (c : ascii) (s : string) :
  trimEnd (String c s) = String c s →
  (s = EmptyString ∧ is_space c = false) ∨ (s ≠ EmptyString ∧ trimEnd s = s).
Proof.
  cbn. destruct (trimEnd s) as [|d r] eqn:Hr.
  - destruct (is_space c); [done|]. intros [= <-]. by left.
  - intros [= <-]. by right.
Qed.

Lemma replace_spaces_nonempty (b : bool) (s : string) :
  trimEnd s = s → s ≠ EmptyString → replace_spaces b s ≠ EmptyString.
Proof.
  revert b. induction s as [|c s IH]; intros b Hs Hne; [done|].
  apply trimEnd_cons_inv in Hs as [[-> Hc]|[Hs' Hs]]; cbn.
  - by rewrite Hc.
  - destruct (is_space c), b; try done. by apply IH.
Qed.

Lemma trimEnd_replace_spaces (b : bool) (s : string) :
  trimEnd s = s → trimEnd (replace_spaces b s) = replace_spaces b s.
Proof.
  revert b. induction s as [|c s IH]; intros b Hs; [done|].
  apply trimEnd_cons_inv in Hs as [[-> Hc]|[Hne Hs]].
  - cbn. rewrite Hc. cbn. by rewrite Hc.
  - assert (Hrest : ∀ b' d, trimEnd (String d (replace_spaces b' s))
                            = String d (replace_spaces b' s)).
    { intros b' d. rewrite trimEnd_cons, (IH b' Hs).
      pose proof (replace_spaces_nonempty b' s Hs Hne).
      by destruct (replace_spaces b' s). }
    cbn [replace_spaces]. destruct (is_space c), b; try apply Hrest. by apply IH.
Qed.

Lemma trimStart_replace_spaces (s : string) :
  starts_clean s → trimStart (replace_spaces false s) = replace_spaces false s.
Proof. destruct s as [|c s]; [done|]. cbn. intros Hc. rewrite Hc. cbn. by rewrite Hc. Qed.

Lemma replace_spaces_clean (s : string) :
  starts_clean s → starts_clean (replace_spaces false s).
Proof. destruct s as [|c s]; [done|]. cbn. intros Hc. by rewrite Hc. Qed.

Lemma trim_replace_spaces_trim (s : string) :
  trim (replace_spaces false (trim s)) = replace_spaces false (trim s).
Proof.
  assert (Hclean : starts_clean (trim s)) by apply trimEnd_clean, trimStart_clean.
  unfold trim at 1. rewrite trimStart_replace_spaces by done.
  apply trimEnd_replace_spaces. unfold trim. apply trimEnd_idem.
Qed.

Lemma uidFromName_alt (name : string) :
  uidFromName name = toLowerCase (replace_spaces false (trim name)).
Proof. unfold uidFromName. apply replace_spaces_lower. Qed.

Lemma trim_uidFromName (name : string) : trim (uidFromName name) = uidFromName name.
Proof. by rewrite uidFromName_alt, trim_lower, trim_replace_spaces_trim. Qed.

(** X16. [uidFromName] is idempotent: the id of an id is that id. *)
Theorem uidFromName_idempotent (name : string) :
  uidFromName (uidFromName name) = uidFromName name.
Proof.
  unfold uidFromName at 1. rewrite trim_uidFromName.
  rewrite uidFromName_alt at 1. rewrite toLowerCase_idem, <- uidFromName_alt.
  unfold uidFromName. apply replace_spaces_again. by left.
Qed.

(** X17. The id does not depend on the case of the letters nor on white
    space around the name. *)
Theorem uidFromName_ignores_case_and_padding (name : string) :
  uidFromName (toLowerCase name) = uidFromName name
  ∧ uidFromName (trim name) = uidFromName name.
Proof.
  unfold uidFromName. split.
  - by rewrite trim_lower, toLowerCase_idem.
  - by rewrite trim_trimmed.
Qed.

Lemma chars_toLowerCase (s : string) : chars (toLowerCase s) = map lower_char (chars s).
Proof. induction s as [|c s IH]; [done|]. cbn. by rewrite IH. Qed.

Lemma chars_replace_spaces (b : bool) (s : string) (c : ascii) :
  c ∈ chars (replace_spaces b s) → c = " "%char ∨ (is_space c = false ∧ c ∈ chars s).
Proof.
  revert b. induction s as [|d s IH]; intros b; cbn; [by intros ?%elem_of_nil|].
  destruct (is_space d) eqn:Hd.
  - destruct b; cbn.
    + intros [?|[? ?]]%IH; [by left|right; split; [done|by right]].
    + intros [->|[?|[? ?]]%IH]%elem_of_cons; [by left|by left|].
      right; split; [done|by right].
  - cbn. intros [->|[?|[? ?]]%IH]%elem_of_cons; [right; split; [done|left]|by left|].
    right; split; [done|by right].
Qed.

(** X18. An id holds no upper-case letter and no white space but single
    spaces inside it: every character of it is its own lower case, a
    character of it that is white space is the space, there is none at either
    end and no two follow each other. *)
Theorem uidFromName_normal_form (name : string) :
  (∀ c, c ∈ chars (uidFromName name) →
     lower_char c = c ∧ (is_space c = true → c = " "%char))
  ∧ trim (uidFromName name) = uidFromName name
  ∧ replace_spaces false (uidFromName name) = uidFromName name.
Proof.
  split; [|split].
  - intros c Hc. split.
    + rewrite uidFromName_alt, chars_toLowerCase in Hc.
      change (c ∈ lower_char <$> chars (replace_spaces false (trim name))) in Hc.
      apply list_elem_of_fmap in Hc as (d & -> & _). apply lower_char_idem.
    + unfold uidFromName in Hc. apply chars_replace_spaces in Hc as [->|[Hns _]]; [done|].
      by rewrite Hns.
  - apply trim_uidFromName.
  - unfold uidFromName. apply replace_spaces_again. by left.
Qed.

(* ------------------------------------------------------------------ *)
(** ** parseStudents *)

Lemma filter_unseen_spec (seen : gset string) (out : list Student) :
  NoDup (map id (filter_unseen seen out))
  ∧ ∀ s, s ∈ filter_unseen seen out → (id s ∉ seen) ∧ s ∈ out.
Proof.
  revert seen. induction out as [|s0 out IH]; intros seen; cbn [filter_unseen].
  - split; [constructor|]. by intros s ?%elem_of_nil.
  - case_decide as Hseen.
    + destruct (IH seen) as [Hnd Hin]. split; [done|].
      intros s [? ?]%Hin. split; [done|by right].
    + destruct (IH ({[ id s0 ]} ∪ seen)) as [Hnd Hin]. split.
      * cbn [map]. constructor; [|done].
        change (map id (filter_unseen ({[id s0]} ∪ seen) out))
          with (id <$> filter_unseen ({[id s0]} ∪ seen) out).
        intros (s & Heq & [Hs _]%Hin)%list_elem_of_fmap.
        by apply Hs, elem_of_union_l, elem_of_singleton.
      * intros s [->|[Hs ?]%Hin]%elem_of_cons; [split; [done|left]|].
        split; [|by right]. intros ?. by apply Hs, elem_of_union_r.
Qed.

Lemma filter_unseen_keeps (seen : gset string) (out : list Student) (s : Student) :
  s ∈ out → id s ∉ seen → ∃ s', s' ∈ filter_unseen seen out ∧ id s' = id s.
Proof.
  revert seen. induction out as [|s0 out IH]; intros seen Hs Hseen;
    [by apply elem_of_nil in Hs|].
  cbn [filter_unseen]. apply elem_of_cons in Hs as [->|Hs].
  - rewrite decide_False by done. exists s0. split; [left|done].
  - case_decide as Hs0; [by apply IH|].
    destruct (decide (id s = id s0)) as [Heq|Hne].
    + exists s0. split; [left|done].
    + destruct (IH ({[ id s0 ]} ∪ seen) Hs) as (s' & Hs' & Hid);
        [by intros [?%elem_of_singleton|?]%elem_of_union|].
      exists s'. split; [by right|done].
Qed.

Lemma filter_unseen_first (seen : gset string) (out : list Student) (s : Student) :
  s ∈ filter_unseen seen out →
  ∃ i, out !! i = Some s ∧ ∀ j t, (j < i)%nat → out !! j = Some t → id t ≠ id s.
Proof.
  revert seen. induction out as [|s0 out IH]; intros seen Hs;
    [by apply elem_of_nil in Hs|].
  cbn [filter_unseen] in Hs. case_decide as Hs0.
  - pose proof (proj2 (filter_unseen_spec seen out) s Hs) as [Hnew _].
    destruct (IH seen Hs) as (i & Hi & Hfirst). exists (S i). split; [done|].
    intros [|j] t Hj Ht; cbn in Ht.
    + injection Ht as <-. congruence.
    + apply (Hfirst j); [lia|done].
  - apply elem_of_cons in Hs as [->|Hs].
    + exists 0%nat. split; [done|]. intros j t Hj. lia.
    + pose proof (proj2 (filter_unseen_spec _ out) s Hs) as [Hnew _].
      destruct (IH _ Hs) as (i & Hi & Hfirst). exists (S i). split; [done|].
      intros [|j] t Hj Ht; cbn in Ht.
      * injection Ht as <-. intros Heq. by apply Hnew, elem_of_union_l, elem_of_singleton.
      * apply (Hfirst j); [lia|done].
Qed.

Lemma filter_unseen_sublist (seen : gset string) (out : list Student) :
  filter_unseen seen out `sublist_of` out.
Proof.
  revert seen. induction out as [|s0 out IH]; intros seen; cbn [filter_unseen]; [done|].
  case_decide; [by apply sublist_cons|by apply sublist_skip].
Qed.

Lemma filter_unseen_app (seen : gset string) (out1 out2 : list Student) :
  ∃ seen', filter_unseen seen (out1 ++ out2)
           = filter_unseen seen out1 ++ filter_unseen seen' out2.
Proof.
  revert seen. induction out1 as [|s0 out1 IH]; intros seen; cbn [filter_unseen app].
  - by exists seen.
  - case_decide; [apply IH|].
    destruct (IH ({[ id s0 ]} ∪ seen)) as [seen' ->]. by exists seen'.
Qed.

(** X19. No two students that [parseStudents] returns have the same id. *)
Theorem parseStudents_ids_distinct (input : string) :
  NoDup (map id (parseStudents input)).
Proof. unfold parseStudents. cbv zeta. apply filter_unseen_spec. Qed.

(** X20. Of the students that the lines yield, [parseStudents] keeps for
    each id the first one and drops the later ones: the result is a
    subsequence of the parsed lines, every id of a parsed line is the id of a
    kept student, and a kept student stands in the parsed lines before every
    other student of its id. *)
Theorem parseStudents_first_occurrence_wins (input : string) :
  parseStudents input `sublist_of` parsed_lines input
  ∧ (∀ s, s ∈ parsed_lines input → ∃ s', s' ∈ parseStudents input ∧ id s' = id s)
  ∧ (∀ s, s ∈ parseStudents input →
       ∃ i, parsed_lines input !! i = Some s
            ∧ ∀ j t, (j < i)%nat → parsed_lines input !! j = Some t → id t ≠ id s).
Proof.
  unfold parseStudents. cbv zeta. split; [apply filter_unseen_sublist|]. split.
  - intros s Hs. apply filter_unseen_keeps; [done|apply not_elem_of_empty].
  - intros s Hs. by apply filter_unseen_first in Hs.
Qed.

Lemma chars_append (a b : string) : chars (a +:+ b) = chars a ++ chars b.
Proof. induction a as [|c a IH]; [done|]. cbn. by rewrite <- IH. Qed.

Lemma trimStart_chars (s : string) (c : ascii) : c ∈ chars (trimStart s) → c ∈ chars s.
Proof.
  induction s as [|d s IH]; [done|]. cbn. destruct (is_space d); [|done].
  intros ?%IH. by right.
Qed.

Lemma trimEnd_chars (s : string) (c : ascii) : c ∈ chars (trimEnd s) → c ∈ chars s.
Proof.
  induction s as [|d s IH]; [done|]. rewrite trimEnd_cons.
  destruct (trimEnd s) as [|e r].
  - destruct (is_space d); [by intros ?%elem_of_nil|].
    cbn. intros [->|?%elem_of_nil]%elem_of_cons; [left|done].
  - cbn [chars]. intros [->|Hc]%elem_of_cons; [left|right; by apply IH].
Qed.

Lemma trim_chars (s : string) (c : ascii) : c ∈ chars (trim s) → c ∈ chars s.
Proof. unfold trim. by intros ?%trimEnd_chars%trimStart_chars. Qed.

Lemma split_on_cons (sep : ascii) (s : string) :
  ∃ piece pieces, split_on sep s = piece :: pieces.
Proof.
  induction s as [|c s (piece & pieces & IH)]; cbn; [by eexists _, _|].
  destruct (Ascii.eqb c sep); [by eexists _, _|]. rewrite IH. by eexists _, _.
Qed.

Lemma split_on_pieces (sep : ascii) (s piece : string) :
  piece ∈ split_on sep s →
  (sep ∉ chars piece) ∧ ∀ c, c ∈ chars piece → c ∈ chars s.
Proof.
  revert piece. induction s as [|c s IH]; intros piece; cbn.
  - intros ->%list_elem_of_singleton. split; [apply not_elem_of_nil|done].
  - destruct (Ascii.eqb_spec c sep) as [->|Hne].
    + intros [->|[Hfree Hsub]%IH]%elem_of_cons.
      * split; [apply not_elem_of_nil|]. by intros c ?%elem_of_nil.
      * split; [done|]. intros c Hc. right. by apply Hsub.
    + destruct (split_on sep s) as [|p ps]; cbn.
      * intros ->%list_elem_of_singleton. cbn. split.
        -- intros [?|?%elem_of_nil]%elem_of_cons; [congruence|done].
        -- intros d [->|?%elem_of_nil]%elem_of_cons; [left|done].
      * intros [->|Hp]%elem_of_cons.
        -- destruct (IH p) as [Hfree Hsub]; [left|]. cbn. split.
           ++ intros [?|?]%elem_of_cons; [congruence|done].
           ++ intros d [->|?]%elem_of_cons; [left|right; by apply Hsub].
        -- destruct (IH piece) as [Hfree Hsub]; [by right|].
           split; [done|]. intros d Hd. right. by apply Hsub.
Qed.

Lemma uidFromName_nonempty (name : string) :
  name ≠ EmptyString → trim name = name → uidFromName name ≠ EmptyString.
Proof.
  intros Hne Htrim. unfold uidFromName. rewrite Htrim.
  assert (Hclean : starts_clean name).
  { rewrite <- Htrim. apply trimEnd_clean, trimStart_clean. }
  destruct name as [|c name]; [done|]. cbn in *.
  by rewrite is_space_lower_char, Hclean.
Qed.

Lemma parse_line_elem (out : list Student) (line : string) (s : Student) :
  s ∈ parse_line out line →
  s ∈ out
  ∨ (name s ≠ EmptyString ∧ trim (name s) = name s ∧ id s = uidFromName (name s)
     ∧ ("," %char ∉ chars (name s)) ∧ ∀ c, c ∈ chars (name s) → c ∈ chars line).
Proof.
  unfold parse_line. cbv zeta.
  destruct (split_on_cons "," line) as (piece & pieces & Hsplit).
  rewrite Hsplit. cbn [map lookup list_lookup default]. unfold Datatypes.id.
  destruct (String.eqb_spec (trim piece) "") as [|Hname]; [intros ?; by left|].
  intros [?| ->%list_elem_of_singleton]%elem_of_app; [by left|]. right. cbn.
  destruct (split_on_pieces "," line piece) as [Hfree Hsub]; [rewrite Hsplit; left|].
  split; [done|]. split; [apply trim_trimmed|]. split; [done|]. split.
  - by intros ?%trim_chars.
  - intros c ?%trim_chars. by apply Hsub.
Qed.

Lemma roster_lines_elem (input line : string) :
  line ∈ roster_lines input → LF ∉ chars line.
Proof.
  unfold roster_lines. intros [_ Hl]%list_elem_of_filter.
  change (line ∈ trim <$> split_on LF input) in Hl.
  apply list_elem_of_fmap in Hl as (piece & -> & [Hfree _]%split_on_pieces).
  by intros ?%trim_chars.
Qed.

(** X21. Every student that [parseStudents] returns has a name that is not
    empty, is trimmed and holds neither a comma nor a line feed, and has the
    id that [uidFromName] gives to that name, which is not empty. *)
Theorem parseStudents_students_well_formed (input : string) (s : Student) :
  s ∈ parseStudents input →
  name s ≠ EmptyString ∧ trim (name s) = name s
  ∧ (","%char ∉ chars (name s)) ∧ (LF ∉ chars (name s))
  ∧ id s = uidFromName (name s) ∧ id s ≠ EmptyString.
Proof.
  intros Hs. apply filter_unseen_spec in Hs as [_ Hs]. unfold parsed_lines in Hs.
  assert (Hgood : name s ≠ EmptyString ∧ trim (name s) = name s
    ∧ id s = uidFromName (name s) ∧ ("," %char ∉ chars (name s)) ∧ LF ∉ chars (name s)).
  { revert Hs. generalize (roster_lines_elem input).
    generalize (roster_lines input) as lines. intros lines Hlines.
    assert (Hout : ∀ s', s' ∈ @nil Student → name s' ≠ EmptyString ∧ trim (name s') = name s'
      ∧ id s' = uidFromName (name s') ∧ ("," %char ∉ chars (name s'))
      ∧ LF ∉ chars (name s')) by (by intros s' ?%elem_of_nil).
    revert Hout. generalize (@nil Student) as out.
    induction lines as [|line lines IH]; intros out Hout Hs; cbn [foldl] in Hs; [by apply Hout|].
    eapply IH; [| |exact Hs].
    - intros l Hl. apply Hlines. by right.
    - intros s' [?|(? & ? & ? & ? & Hsub)]%parse_line_elem; [by apply Hout|].
      repeat (split; [done|]). intros ?%Hsub. by apply (Hlines line); [left|]. }
  destruct Hgood as (Hne & Htrim & Hid & Hcomma & Hlf).
  repeat (split; [done|]). rewrite Hid. by apply uidFromName_nonempty.
Qed.

Lemma split_on_app_sep (sep : ascii) (a b : string) :
  split_on sep (a +:+ String sep b) = split_on sep a ++ split_on sep b.
Proof.
  induction a as [|c a IH].
  - rewrite append_nil_l. cbn. by rewrite Ascii.eqb_refl.
  - rewrite append_cons_l. cbn [split_on]. rewrite IH.
    destruct (Ascii.eqb c sep); [done|].
    by destruct (split_on_cons sep a) as (piece & pieces & ->).
Qed.

Lemma split_on_none (sep : ascii) (s : string) : sep ∉ chars s → split_on sep s = [s].
Proof.
  induction s as [|c s IH]; [done|]. cbn. intros Hfree.
  destruct (Ascii.eqb_spec c sep) as [->|_]; [exfalso; apply Hfree; left|].
  rewrite IH; [done|]. intros ?. apply Hfree. by right.
Qed.

Lemma roster_lines_app (a b : string) :
  roster_lines (a +:+ String LF b) = roster_lines a ++ roster_lines b.
Proof. unfold roster_lines. by rewrite split_on_app_sep, map_app, filter_app. Qed.

Lemma roster_lines_skipped (line : string) : skipped_line line → roster_lines line = [].
Proof.
  intros [Hfree Hskip]. unfold roster_lines. rewrite split_on_none by done.
  cbn [map]. rewrite filter_cons, filter_nil. rewrite decide_False; [done|].
  intros [Hne Hprefix]. destruct Hskip as [?|Hhash]; [done|congruence].
Qed.

Lemma parse_line_app (out : list Student) (line : string) :
  parse_line out line = out ++ parse_line [] line.
Proof.
  unfold parse_line. cbv zeta. destruct (String.eqb _ ""); [by rewrite app_nil_r|done].
Qed.

Lemma foldl_parse_line (out : list Student) (lines : list string) :
  foldl parse_line out lines = out ++ foldl parse_line [] lines.
Proof.
  revert out. induction lines as [|line lines IH]; intros out; cbn [foldl].
  - by rewrite app_nil_r.
  - rewrite (IH (parse_line out line)), (IH (parse_line [] line)), (parse_line_app out).
    by rewrite <- (assoc_L (++)).
Qed.

Lemma parsed_lines_app (a b : string) :
  parsed_lines (a +:+ String LF b) = parsed_lines a ++ parsed_lines b.
Proof.
  unfold parsed_lines. rewrite roster_lines_app, foldl_app. apply foldl_parse_line.
Qed.

Lemma parsed_lines_skipped (line : string) : skipped_line line → parsed_lines line = [].
Proof. intros Hskip. unfold parsed_lines. by rewrite roster_lines_skipped. Qed.

(** X22. A line that is blank or starts with [#] changes nothing: with it
    at the head, at the end or between two texts, [parseStudents] returns
    what it returns without it. *)
Theorem parseStudents_skips_blank_and_comment_lines (before line after : string) :
  skipped_line line →
  parseStudents (line +:+ String LF after) = parseStudents after
  ∧ parseStudents (before +:+ String LF line) = parseStudents before
  ∧ parseStudents (before +:+ String LF (line +:+ String LF after))
    = parseStudents (before +:+ String LF after).
Proof.
  intros Hskip. unfold parseStudents. cbv zeta.
  rewrite !parsed_lines_app, (parsed_lines_skipped line Hskip).
  by rewrite app_nil_r.
Qed.

(** X23. Lines added at the end do not touch the students parsed before:
    what [parseStudents] returns on a text is the head of what it returns on
    the text with more lines. *)
Theorem parseStudents_more_lines_keep_head (before after : string) :
  parseStudents before `prefix_of` parseStudents (before +:+ String LF after).
Proof.
  unfold parseStudents. cbv zeta. rewrite parsed_lines_app.
  destruct (filter_unseen_app ∅ (parsed_lines before) (parsed_lines after)) as [seen' ->].
  by eexists.
Qed.

(* ------------------------------------------------------------------ *)
(** ** The handlers of the page *)

Lemma append_assoc (a b c : string) : (a +:+ b) +:+ c = a +:+ (b +:+ c).
Proof. induction a as [|x a IH]; [done|]. rewrite !append_cons_l. by rewrite IH. Qed.

Lemma append_line (line rest more : string) :
  (line +:+ String LF rest) +:+ more = line +:+ String LF (rest +:+ more).
Proof. by rewrite append_assoc, append_cons_l. Qed.

Lemma parsed_lines_skip_head (line after : string) :
  skipped_line line → parsed_lines (line +:+ String LF after) = parsed_lines after.
Proof. intros Hskip. by rewrite parsed_lines_app, parsed_lines_skipped. Qed.

Lemma comment_skipped (line : string) :
  bool_decide (LF ∉ chars line) = true → String.prefix "#" (trim line) = true →
  skipped_line line.
Proof. intros Hfree%bool_decide_eq_true Hhash. split; [done|by right]. Qed.

(** X24. The button "Add legend" puts four comment lines before the text:
    the students parsed from the text stay the same. *)
Theorem addLegend_keeps_students (st : Page.state) :
  Page.students (Page.addLegend st) = Page.students st.
Proof.
  unfold Page.students, Page.addLegend, Page.csvTemplate, parseStudents.
  cbn [Page.raw]. cbv zeta.
  rewrite !append_line, append_nil_l.
  rewrite !parsed_lines_skip_head; [done|by apply comment_skipped..].
Qed.

(** X25. "Save as previous" adds the pairs of the groups on show to the
    forbidden pairs and loses none; with no group on show it leaves the state
    as it is. "Clear history" leaves no forbidden pair. *)
Theorem acceptAsPrevious_adds_pairs (st : Page.state) :
  Page.forbiddenPairs (Page.acceptAsPrevious st)
  = Page.forbiddenPairs st ∪ buildForbiddenPairs (Page.groups st)
  ∧ Page.forbiddenPairs st ⊆ Page.forbiddenPairs (Page.acceptAsPrevious st)
  ∧ (Page.groups st = [] → Page.acceptAsPrevious st = st)
  ∧ Page.forbiddenPairs (Page.clearPrevious (Page.acceptAsPrevious st)) = ∅.
Proof.
  assert (Heq : Page.forbiddenPairs (Page.acceptAsPrevious st)
    = Page.forbiddenPairs st ∪ buildForbiddenPairs (Page.groups st)).
  { unfold Page.forbiddenPairs, Page.acceptAsPrevious.
    destruct (Page.groups st) as [|g gs] eqn:Hgroups; cbn [length Nat.eqb].
    - rewrite buildForbiddenPairs_nil. by rewrite (right_id_L ∅ (∪)).
    - cbn [Page.previous]. by rewrite map_id, buildForbiddenPairs_union. }
  split; [exact Heq|]. split; [rewrite Heq; apply union_subseteq_l|]. split; [|done].
  intros Hnil. unfold Page.acceptAsPrevious. by rewrite Hnil.
Qed.

(** X26. When the group size of the page is at least 2 and [makeGroups]
    comes to its end, the groups on show hold the students parsed from the
    text, each once, no id twice; the score on show is their score under the
    forbidden pairs of the history; the status says "perfect" exactly when
    that score is 0; text, settings and history are as before. *)
Theorem makeGroups_shows_partition lt_exp (st st' : Page.state) tape :
  2 ≤ Page.groupSize st →
  Page.makeGroups lt_exp st tape = Returned st' →
  concat (Page.groups st') ≡ₚ Page.students st
  ∧ NoDup (map id (concat (Page.groups st')))
  ∧ Page.score st'
    = totalScore (Page.groups st') (Page.forbiddenPairs st) (Page.groupSize st) Page.weights
  ∧ (Page.status st' = "Done (perfect constraints match)." ↔ Page.score st' = 0)
  ∧ Page.raw st' = Page.raw st ∧ Page.groupSize st' = Page.groupSize st
  ∧ Page.attempts st' = Page.attempts st ∧ Page.previous st' = Page.previous st.
Proof.
  intros Hsize. unfold Page.makeGroups.
  destruct (generateGroupsOptimized lt_exp (Page.students st) (Page.groupSize st)
    (Page.forbiddenPairs st) (Page.attempts st) Page.weights tape)
    as [[[g sc] tape']|msg|] eqn:Hrun; [|by apply generateGroupsOptimized_no_throw in Hrun|done].
  intros [= <-]. cbn.
  pose proof (generateGroupsOptimized_perm _ _ _ _ _ _ _ _ _ Hsize Hrun) as Hperm.
  pose proof (generateGroupsOptimized_scored _ _ _ _ _ _ _ _ _ Hsize Hrun) as Hscore.
  cbn in Hperm, Hscore. split; [done|]. split.
  - assert (Hids : map id (concat g) ≡ₚ map id (Page.students st))
      by (by apply Permutation_map).
    rewrite Hids. unfold Page.students, parseStudents. apply filter_unseen_spec.
  - split; [done|]. split; [|done].
    destruct (Z.eqb_spec sc 0); split; done.
Qed.

(** X27. Once groups are saved as previous, a repeat costs: under the
    forbidden pairs of the page after "Save as previous" and the weights of
    the page, any group that holds at two distinct positions two students
    with the ids of two students who shared a saved group scores at least
    250. *)
Theorem acceptAsPrevious_makes_repeats_cost (st : Page.state) (saved group : Group)
    (i j i' j' : nat) (a b a' b' : Student) (targetSize : Z) :
  saved ∈ Page.groups st → i ≠ j → saved !! i = Some a → saved !! j = Some b →
  i' ≠ j' → group !! i' = Some a' → group !! j' = Some b' →
  id a' = id a → id b' = id b →
  250 ≤ groupScore group (Page.forbiddenPairs (Page.acceptAsPrevious st)) targetSize
          Page.weights.
Proof.
  intros Hsaved Hij Hi Hj Hij' Hi' Hj' Ha Hb.
  apply (groupScore_repeat_bound group _ targetSize Page.weights i' j' a' b');
    [unfold nonneg_weights; cbn; lia|done..|].
  rewrite Ha, Hb. unfold Page.forbiddenPairs, Page.acceptAsPrevious.
  destruct (Page.groups st) as [|g gs] eqn:Hgroups; [by apply elem_of_nil in Hsaved|].
  cbn [length Nat.eqb Page.previous]. rewrite map_id, buildForbiddenPairs_union.
  apply elem_of_union_r, buildForbiddenPairs_complete.
  by exists saved, i, j, a, b.
Qed.

(* ------------------------------------------------------------------ *)
(** ** When the call throws and when it returns *)

(** X28. The call throws exactly when the group size is below 2, and then
    with the message of the guard: no read of the shuffle or of the search
    is out of range. *)
Theorem generateGroupsOptimized_throws_iff lt_exp (students : list Student) groupSize
    forbiddenPairs attempts w tape msg :
  generateGroupsOptimized lt_exp students groupSize forbiddenPairs attempts w tape
    = Thrown msg
  ↔ groupSize < 2 ∧ msg = "groupSize must be >= 2".
Proof.
  split.
  - intros Hrun. destruct (Z.lt_ge_cases groupSize 2) as [Hlt|Hge].
    + split; [done|]. unfold generateGroupsOptimized in Hrun.
      destruct (Z.ltb_spec groupSize 2) as [_|]; [|lia]. by injection Hrun as <-.
    + by apply generateGroupsOptimized_no_throw in Hrun.
  - intros [Hlt ->]. unfold generateGroupsOptimized.
    by destruct (Z.ltb_spec groupSize 2) as [_|]; [|lia].
Qed.

(** X29. With a group size of at least 2 the call returns on some tape,
    whatever the students, the budget, the forbidden pairs, the weights and
    the acceptance test. *)
Theorem generateGroupsOptimized_can_return lt_exp (students : list Student) groupSize
    forbiddenPairs attempts w :
  2 ≤ groupSize →
  ∃ tape r tape',
    generateGroupsOptimized lt_exp students groupSize forbiddenPairs attempts w tape
    = Returned (r, tape').
Proof. apply generateGroupsOptimized_returns. Qed.

(* ------------------------------------------------------------------ *)
(** ** The further properties on concrete inputs *)

Lemma shuffle_draws_and_permutes_witness :
  (length roster - 1 ≤ length example_tape)%nat
  ∧ ∃ arr', shuffle roster example_tape
            = Returned (arr', drop (length roster - 1) example_tape)
            ∧ arr' ≡ₚ roster.
Proof.
  assert (Hlen : (length roster - 1 ≤ length example_tape)%nat) by (vm_compute; lia).
  split; [exact Hlen|].
  exact (proj1 (shuffle_draws_and_permutes roster example_tape) Hlen).
Defined.

Lemma shuffle_reaches_every_order_witness :
  [2; 1; 3]%nat ≡ₚ [1; 2; 3]%nat
  ∧ ∃ tape, length tape = (length [1; 2; 3]%nat - 1)%nat
            ∧ shuffle [1; 2; 3]%nat tape = Returned ([2; 1; 3]%nat, []).
Proof.
  assert (Hp : [2; 1; 3]%nat ≡ₚ [1; 2; 3]%nat) by apply perm_swap.
  split; [exact Hp|].
  exact (shuffle_reaches_every_order [1; 2; 3]%nat [2; 1; 3]%nat Hp).
Defined.


Lemma groupScore_repeat_costs_witness :
  nonneg_weights default_weights ∧ 0%nat ≠ 1%nat
  ∧ [student_B; student_A] !! 0%nat = Some student_B
  ∧ [student_B; student_A] !! 1%nat = Some student_A
  ∧ pairKey (id student_B) (id student_A) ∈ history_pairs
  ∧ forbidPair default_weights
    ≤ groupScore [student_B; student_A] history_pairs 2 default_weights.
Proof.
  assert (Hw : nonneg_weights default_weights) by (unfold nonneg_weights; cbn; lia).
  assert (Hij : 0%nat ≠ 1%nat) by lia.
  assert (Hi : [student_B; student_A] !! 0%nat = Some student_B) by reflexivity.
  assert (Hj : [student_B; student_A] !! 1%nat = Some student_A) by reflexivity.
  assert (Hk : pairKey (id student_B) (id student_A) ∈ history_pairs)
    by (apply buildForbiddenPairs_history; left; reflexivity).
  repeat (split; [assumption|]).
  exact (groupScore_repeat_costs _ history_pairs 2 default_weights _ _ _ _ Hw Hij Hi Hj Hk).
Defined.

Lemma score_grows_with_forbidden_set_witness :
  0 ≤ forbidPair default_weights ∧ (∅ : gset string) ⊆ history_pairs
  ∧ totalScore history ∅ 2 default_weights
    ≤ totalScore history history_pairs 2 default_weights.
Proof.
  assert (Hfp : 0 ≤ forbidPair default_weights) by (cbn; lia).
  assert (Hsub : (∅ : gset string) ⊆ history_pairs) by apply empty_subseteq.
  split; [exact Hfp|]. split; [exact Hsub|].
  exact (proj2 (score_grows_with_forbidden_set history ∅ history_pairs 2
    default_weights Hfp Hsub)).
Defined.

Lemma totalScore_order_free_witness :
  nonneg_weights default_weights
  ∧ totalScore history history_pairs 2 default_weights < 2 ^ 53
  ∧ history ≡ₚ [[student_C; student_D]; [student_A; student_B]]
  ∧ Forall2 (≡ₚ) [[student_C; student_D]; [student_A; student_B]]
      [[student_D; student_C]; [student_A; student_B]]
  ∧ totalScore history history_pairs 2 default_weights
    = totalScore [[student_D; student_C]; [student_A; student_B]] history_pairs 2
        default_weights.
Proof.
  assert (Hg : history ≡ₚ [[student_C; student_D]; [student_A; student_B]])
    by apply perm_swap.
  assert (Hm : Forall2 (≡ₚ) [[student_C; student_D]; [student_A; student_B]]
    [[student_D; student_C]; [student_A; student_B]]).
  { constructor; [apply perm_swap|]. constructor; [reflexivity|constructor]. }
  assert (Hw : nonneg_weights default_weights) by (unfold nonneg_weights; cbn; lia).
  assert (Hb : totalScore history history_pairs 2 default_weights < 2 ^ 53)
    by (vm_compute; reflexivity).
  split; [exact Hw|]. split; [exact Hb|]. split; [exact Hg|]. split; [exact Hm|].
  exact (totalScore_order_free _ _ _ history_pairs 2 default_weights Hw Hb Hg Hm).
Defined.

Lemma countBy_lookup_witness :
  ("f" ∉ Object_prototype_keys)
  ∧ countBy two_f_two_m gender_key !! "f" = Some 2.
Proof.
  assert (Hk : "f" ∉ Object_prototype_keys)
    by (apply (bool_decide_unpack _); vm_compute; exact I).
  split; [exact Hk|].
  exact (countBy_lookup two_f_two_m gender_key "f" Hk).
Defined.

Lemma buildForbiddenPairs_holds_every_pair_witness :
  grouped_together history "A" "B"
  ∧ pairKey "A" "B" ∈ buildForbiddenPairs history
  ∧ pairKey "B" "A" ∈ buildForbiddenPairs history.
Proof.
  assert (Hg : grouped_together history "A" "B").
  { exists [student_A; student_B], 0%nat, 1%nat, student_A, student_B.
    split; [left|]. split; [lia|]. repeat split. }
  split; [exact Hg|]. exact (buildForbiddenPairs_holds_every_pair history "A" "B" Hg).
Defined.

Lemma history_bar_free (g : Group) (s : Student) :
  g ∈ history → s ∈ g → bar_free (id s) = true.
Proof.
  unfold history. intros Hg Hs.
  repeat (apply elem_of_cons in Hg as [->|Hg]); [| |by apply elem_of_nil in Hg];
    repeat (apply elem_of_cons in Hs as [->|Hs]); try reflexivity;
    by apply elem_of_nil in Hs.
Qed.

Lemma buildForbiddenPairs_exact_without_bar_witness :
  (∀ g s, g ∈ history → s ∈ g → bar_free (id s) = true)
  ∧ bar_free "A" = true ∧ bar_free "C" = true
  ∧ (pairKey "A" "C" ∈ buildForbiddenPairs history ↔ grouped_together history "A" "C").
Proof.
  assert (Hx : bar_free "A" = true) by reflexivity.
  assert (Hy : bar_free "C" = true) by reflexivity.
  split; [exact history_bar_free|]. split; [exact Hx|]. split; [exact Hy|].
  exact (buildForbiddenPairs_exact_without_bar history "A" "C" history_bar_free Hx Hy).
Defined.

Lemma swap_then_revert_restores_witness :
  cells_hold history 0 1 0 1 student_A student_D
  ∧ concat (swap_cells history 0 1 0 1 student_A student_D) ≡ₚ concat history
  ∧ map length (swap_cells history 0 1 0 1 student_A student_D) = map length history
  ∧ write_cell (write_cell (swap_cells history 0 1 0 1 student_A student_D)
      0 0 student_A) 1 1 student_D = history.
Proof.
  assert (Hc : cells_hold history 0 1 0 1 student_A student_D).
  { exists [student_A; student_B], [student_C; student_D]. repeat split. }
  split; [exact Hc|].
  exact (swap_then_revert_restores history 0 1 0 1 student_A student_D Hc).
Defined.

Lemma generateGroupsOptimized_score_of_groups_witness :
  2 ≤ 2
  ∧ generateGroupsOptimized never roster 2 history_pairs 3 default_weights example_tape
    = Returned (example_result, [fraction 1 2])
  ∧ score example_result = totalScore (groups example_result) history_pairs 2 default_weights.
Proof.
  assert (Hle : 2 ≤ 2) by lia.
  assert (Hrun : generateGroupsOptimized never roster 2 history_pairs 3 default_weights
    example_tape = Returned (example_result, [fraction 1 2]))
    by (vm_compute; reflexivity).
  split; [exact Hle|]. split; [exact Hrun|].
  exact (generateGroupsOptimized_score_of_groups never roster 2 history_pairs 3
    default_weights example_tape example_result [fraction 1 2] Hle Hrun).
Defined.

Lemma generateGroupsOptimized_no_budget_witness :
  roster ≠ [] ∧ 2 ≤ 2 ∧ 0 ≤ 0
  ∧ shuffle roster example_tape = Returned (roster, drop 3 example_tape)
  ∧ generateGroupsOptimized never roster 2 history_pairs 0 default_weights example_tape
    = Returned ({| groups := chunkGroups roster (Z.to_nat 2);
                   score := totalScore (chunkGroups roster (Z.to_nat 2))
                              history_pairs 2 default_weights |}, drop 3 example_tape).
Proof.
  assert (Hne : roster ≠ []) by discriminate.
  assert (Hle : 2 ≤ 2) by lia.
  assert (Hatt : 0 ≤ 0) by lia.
  assert (Hsh : shuffle roster example_tape = Returned (roster, drop 3 example_tape))
    by (vm_compute; reflexivity).
  repeat (split; [assumption|]).
  exact (generateGroupsOptimized_no_budget never roster roster 2 history_pairs 0
    default_weights example_tape (drop 3 example_tape) Hne Hle Hatt Hsh).
Defined.

Lemma generateGroupsOptimized_keeps_perfect_start_witness :
  [student_A; student_D] ≠ [] ∧ 2 ≤ 2 ∧ nonneg_weights default_weights
  ∧ shuffle [student_A; student_D] short_tape
    = Returned ([student_A; student_D], drop 1 short_tape)
  ∧ totalScore (chunkGroups [student_A; student_D] (Z.to_nat 2)) ∅ 2 default_weights = 0
  ∧ generateGroupsOptimized never [student_A; student_D] 2 ∅ 1 default_weights short_tape
    = Returned ({| groups := [[student_A; student_D]]; score := 0 |}, [])
  ∧ {| groups := [[student_A; student_D]]; score := 0 |}
    = {| groups := chunkGroups [student_A; student_D] (Z.to_nat 2); score := 0 |}.
Proof.
  assert (Hne : [student_A; student_D] ≠ []) by discriminate.
  assert (Hle : 2 ≤ 2) by lia.
  assert (Hw : nonneg_weights default_weights) by (unfold nonneg_weights; cbn; lia).
  assert (Hsh : shuffle [student_A; student_D] short_tape
    = Returned ([student_A; student_D], drop 1 short_tape)) by (vm_compute; reflexivity).
  assert (Hzero : totalScore (chunkGroups [student_A; student_D] (Z.to_nat 2)) ∅ 2
    default_weights = 0) by (vm_compute; reflexivity).
  assert (Hrun : generateGroupsOptimized never [student_A; student_D] 2 ∅ 1
    default_weights short_tape
    = Returned ({| groups := [[student_A; student_D]]; score := 0 |}, []))
    by (vm_compute; reflexivity).
  repeat (split; [assumption|]).
  exact (generateGroupsOptimized_keeps_perfect_start never _ _ 2 ∅ 1 default_weights
    short_tape (drop 1 short_tape) _ [] Hne Hle Hw Hsh Hzero Hrun).
Defined.

Lemma generateGroupsOptimized_disjoint_groups_witness :
  2 ≤ 2 ∧ NoDup (map id roster)
  ∧ generateGroupsOptimized never roster 2 history_pairs 3 default_weights example_tape
    = Returned (example_result, [fraction 1 2])
  ∧ NoDup (map id (concat (groups example_result))).
Proof.
  assert (Hle : 2 ≤ 2) by lia.
  assert (Hnd : NoDup (map id roster))
    by (apply (bool_decide_unpack (NoDup (map id roster))); vm_compute; exact I).
  assert (Hrun : generateGroupsOptimized never roster 2 history_pairs 3 default_weights
    example_tape = Returned (example_result, [fraction 1 2]))
    by (vm_compute; reflexivity).
  repeat (split; [assumption|]).
  exact (generateGroupsOptimized_disjoint_groups never roster 2 history_pairs 3
    default_weights example_tape example_result [fraction 1 2] Hle Hnd Hrun).
Defined.

Lemma parseStudents_students_well_formed_witness :
  student_ada ∈ parseStudents example_text
  ∧ name student_ada ≠ EmptyString ∧ trim (name student_ada) = name student_ada
  ∧ (","%char ∉ chars (name student_ada)) ∧ (LF ∉ chars (name student_ada))
  ∧ id student_ada = uidFromName (name student_ada) ∧ id student_ada ≠ EmptyString.
Proof.
  assert (Hs : student_ada ∈ parseStudents example_text) by (vm_compute; left).
  split; [exact Hs|].
  exact (parseStudents_students_well_formed example_text student_ada Hs).
Defined.

Lemma parseStudents_skips_blank_and_comment_lines_witness :
  skipped_line "# roster"
  ∧ parseStudents ("# roster" +:+ String LF "Sam Lee , M") = parseStudents "Sam Lee , M".
Proof.
  assert (Hskip : skipped_line "# roster") by (by apply comment_skipped).
  split; [exact Hskip|].
  exact (proj1 (parseStudents_skips_blank_and_comment_lines EmptyString "# roster"
    "Sam Lee , M" Hskip)).
Defined.

Lemma makeGroups_shows_partition_witness :
  2 ≤ Page.groupSize page_before
  ∧ Page.makeGroups never page_before short_tape = Returned page_after
  ∧ concat (Page.groups page_after) ≡ₚ Page.students page_before
  ∧ NoDup (map id (concat (Page.groups page_after))).
Proof.
  assert (Hle : 2 ≤ Page.groupSize page_before) by (cbn; lia).
  assert (Hrun : Page.makeGroups never page_before short_tape = Returned page_after)
    by (vm_compute; reflexivity).
  split; [exact Hle|]. split; [exact Hrun|].
  destruct (makeGroups_shows_partition never page_before page_after short_tape Hle Hrun)
    as (Hperm & Hnd & _).
  split; [exact Hperm|exact Hnd].
Defined.

Lemma acceptAsPrevious_makes_repeats_cost_witness :
  [student_ada; student_sam] ∈ Page.groups page_after ∧ 0%nat ≠ 1%nat
  ∧ [student_ada; student_sam] !! 0%nat = Some student_ada
  ∧ [student_ada; student_sam] !! 1%nat = Some student_sam
  ∧ 1%nat ≠ 0%nat
  ∧ [student_sam; student_ada] !! 1%nat = Some student_ada
  ∧ [student_sam; student_ada] !! 0%nat = Some student_sam
  ∧ id student_ada = id student_ada ∧ id student_sam = id student_sam
  ∧ 250 ≤ groupScore [student_sam; student_ada]
             (Page.forbiddenPairs (Page.acceptAsPrevious page_after)) 2 Page.weights.
Proof.
  assert (Hg : [student_ada; student_sam] ∈ Page.groups page_after) by (cbn; left).
  assert (Hij : 0%nat ≠ 1%nat) by lia.
  assert (Hi : [student_ada; student_sam] !! 0%nat = Some student_ada) by reflexivity.
  assert (Hj : [student_ada; student_sam] !! 1%nat = Some student_sam) by reflexivity.
  assert (Hij' : 1%nat ≠ 0%nat) by lia.
  assert (Hi' : [student_sam; student_ada] !! 1%nat = Some student_ada) by reflexivity.
  assert (Hj' : [student_sam; student_ada] !! 0%nat = Some student_sam) by reflexivity.
  assert (Ha : id student_ada = id student_ada) by reflexivity.
  assert (Hb : id student_sam = id student_sam) by reflexivity.
  repeat (split; [assumption|]).
  exact (acceptAsPrevious_makes_repeats_cost page_after _ _ _ _ _ _ _ _ _ _ 2
    Hg Hij Hi Hj Hij' Hi' Hj' Ha Hb).
Defined.

Lemma generateGroupsOptimized_can_return_witness :
  2 ≤ 2
  ∧ ∃ tape r tape',
      generateGroupsOptimized never roster 2 history_pairs 3 default_weights tape
      = Returned (r, tape').
Proof.
  assert (Hle : 2 ≤ 2) by lia. split; [exact Hle|].
  exact (generateGroupsOptimized_can_return never roster 2 history_pairs 3
    default_weights Hle).
Defined.
